(** * QTube: a shallow embedding of the messaging and player-control bridge

    The development follows the two scripts of the extension:

    - [QTube_content.js]: the script injected into the page's main world
      (readiness gate, command queue, polling loop), [callGeminiApi]
      (the timestamp parser applied to the model's answer), the helpers
      [escapeHtml], [getVideoId] and [getVideoTitle], and the overlay
      ([showOverlay], [hideOverlay], [updateOverlay],
      [processManualTranscript] and the message listener);
    - [QTube_popup.js]: [sendMessageWithRetry], [ensureContentScriptLoaded],
      [askQuestion], the placeholder of the question field and the
      [processManualTranscript] listener.

    JavaScript strings are modelled by [string] (code units below 256),
    numbers that the code only ever uses as integers by [Z], and the
    [Map] of pending handshakes by a [gmap].  Console output is not
    modelled. *)

From Stdlib Require Import ZArith List String Ascii Bool Lia.
From Stdlib Require Import Numbers.DecimalString Numbers.DecimalPos.
From stdpp Require Import base option gmap.
Import ListNotations.

Local Open Scope string_scope.
Local Open Scope Z_scope.

(* stdpp blocks the unfolding of string concatenation; the proofs below
   compute with it. *)
#[local] Arguments String.append !_ _ / : simpl nomatch.

(** ** Results of JavaScript computations *)

(** A computation either returns a value or throws an [Error] whose
    [message] is recorded. *)
Inductive outcome (A : Type) : Type :=
| Ret (a : A)
| Throw (message : string).
Arguments Ret {A} a.
Arguments Throw {A} message.

(** ** JavaScript strings *)

Module JsString.

Definition chr (n : nat) : string := String (ascii_of_nat n) EmptyString.

(** Characters that cannot be written inside a literal. *)
Definition LF : string := chr 10.
Definition DQ : string := chr 34.

Definition code (c : ascii) : nat := nat_of_ascii c.

(** [\d] *)
Definition is_digit (c : ascii) : bool :=
  (48 <=? code c)%nat && (code c <=? 57)%nat.

(** [\s], also the set removed by [trim]: TAB LF VT FF CR SP NBSP. *)
Definition is_space (c : ascii) : bool :=
  ((9 <=? code c)%nat && (code c <=? 13)%nat)
  || (code c =? 32)%nat || (code c =? 160)%nat.

(** Line terminators, the characters [.] does not match. *)
Definition is_line_terminator (c : ascii) : bool :=
  (code c =? 10)%nat || (code c =? 13)%nat.

Definition is_lf (c : ascii) : bool := (code c =? 10)%nat.

Fixpoint drop (n : nat) (s : string) : string :=
  match n, s with
  | O, _ => s
  | S _, EmptyString => EmptyString
  | S k, String _ r => drop k r
  end.

(** [s.startsWith(p)] *)
Fixpoint starts_with (p s : string) : bool :=
  match p, s with
  | EmptyString, _ => true
  | String _ _, EmptyString => false
  | String a p', String b s' => Ascii.eqb a b && starts_with p' s'
  end.

(** [s.includes(p)] *)
Fixpoint includes (s p : string) : bool :=
  starts_with p s ||
  match s with
  | EmptyString => false
  | String _ r => includes r p
  end.

Fixpoint trimStart (s : string) : string :=
  match s with
  | EmptyString => EmptyString
  | String c r => if is_space c then trimStart r else s
  end.

Fixpoint trimEnd (s : string) : string :=
  match s with
  | EmptyString => EmptyString
  | String c r =>
      match trimEnd r with
      | EmptyString => if is_space c then EmptyString else String c EmptyString
      | t => String c t
      end
  end.

(** [s.trim()] *)
Definition trim (s : string) : string := trimEnd (trimStart s).

(** [s.replace(p, r)] for a string pattern [p] and a replacement [r]
    without [$]: the first occurrence of [p] is replaced. *)
Fixpoint replace (s p r : string) : string :=
  if starts_with p s then r ++ drop (String.length p) s
  else match s with
       | EmptyString => EmptyString
       | String c s' => String c (replace s' p r)
       end.

(** [String(n)] for an integer [n]. *)
Definition of_number (n : Z) : string :=
  NilZero.string_of_int (Z.to_int n).

Fixpoint repeat (c : ascii) (n : nat) : string :=
  match n with
  | O => EmptyString
  | S k => String c (repeat c k)
  end.

(** [s.padStart(n, c)] for a one-character filler. *)
Definition padStart (s : string) (n : nat) (c : ascii) : string :=
  repeat c (n - String.length s) ++ s.

(** [parseInt(s, 10)] on a string that starts with a digit: the value
    of the longest prefix of decimal digits.  (Without a leading digit
    JavaScript gives NaN; the parser only calls it on the digit groups
    of a match.) *)
Fixpoint parseInt_acc (acc : Z) (s : string) : Z :=
  match s with
  | EmptyString => acc
  | String c r =>
      if is_digit c then parseInt_acc (10 * acc + (Z.of_nat (code c) - 48)) r
      else acc
  end.

Definition parseInt (s : string) : Z := parseInt_acc 0 s.

End JsString.

(** ** JavaScript values *)

Module Js.
Import JsString.

(** A call of a method of the native player, as the page sees it. *)
Inductive call : Type :=
| CGetPlayerState
| CSeekTo (seconds : Z) (allowSeekAhead : bool)
| CPlayVideo.

(** Values.  A function value is a native method: what it returns or
    throws may depend on the calls the player has received before. *)
#[warnings="-register-all"] Inductive jsval : Type :=
| JUndefined
| JNull
| JBool (b : bool)
| JNum (n : Z)
| JStr (s : string)
| JFun (f : list call -> outcome jsval)
| JArr (items : list jsval)
| JObj (props : list (string * jsval)).

(** [typeof v] *)
Definition typeof (v : jsval) : string :=
  match v with
  | JUndefined => "undefined"
  | JNull => "object"
  | JBool _ => "boolean"
  | JNum _ => "number"
  | JStr _ => "string"
  | JFun _ => "function"
  | JArr _ => "object"
  | JObj _ => "object"
  end.

Fixpoint lookup_prop (props : list (string * jsval)) (k : string) : jsval :=
  match props with
  | [] => JUndefined
  | (k', v) :: rest => if String.eqb k' k then v else lookup_prop rest k
  end.

(** [v.k]: reading a property of [undefined] or [null] throws a
    TypeError; a property that is not there reads as [undefined]. *)
Definition get_prop (v : jsval) (k : string) : outcome jsval :=
  match v with
  | JUndefined =>
      Throw ("Cannot read properties of undefined (reading '" ++ k ++ "')")
  | JNull =>
      Throw ("Cannot read properties of null (reading '" ++ k ++ "')")
  | JObj props => Ret (lookup_prop props k)
  | _ => Ret JUndefined
  end.

(** The value in a boolean position. *)
Definition truthy (v : jsval) : bool :=
  match v with
  | JUndefined | JNull => false
  | JBool b => b
  | JNum n => negb (n =? 0)
  | JStr s => negb (String.eqb s "")
  | _ => true
  end.

(** [v === true] and [v === n] *)
Definition is_true (v : jsval) : bool :=
  match v with JBool true => true | _ => false end.

Definition is_num (v : jsval) (n : Z) : bool :=
  match v with JNum m => m =? n | _ => false end.

(** *** Conversions

    The conversions below are those of the values of JSON and of
    [undefined]; such values hold no function, and an own property
    [toString] or [valueOf] of an object among them is not callable. *)

(** The object has an own property [k]. *)
Definition has_key (props : list (string * jsval)) (k : string) : bool :=
  existsb (fun p => String.eqb (fst p) k) props.

(** [ToString(v)] and [ToNumber(v)] do not throw.  An object is
    converted by [Object.prototype.toString], unless an own [toString]
    hides it: the conversion then finds nothing to call and ends in a
    TypeError.  An array is joined, which converts its elements. *)
Fixpoint printable (v : jsval) : bool :=
  match v with
  | JObj props => negb (has_key props "toString")
  | JArr items => forallb printable items
  | _ => true
  end.

(** The longest prefix of characters of the class [p], and the rest. *)
Fixpoint span (p : ascii -> bool) (s : string) : string * string :=
  match s with
  | EmptyString => (EmptyString, EmptyString)
  | String c r =>
      if p c then let (a, b) := span p r in (String c a, b)
      else (EmptyString, s)
  end.

Fixpoint all_in (p : ascii -> bool) (s : string) : bool :=
  match s with
  | EmptyString => true
  | String c r => p c && all_in p r
  end.

(** A digit other than [0] occurs (in a text of digits). *)
Fixpoint some_nonzero (s : string) : bool :=
  match s with
  | EmptyString => false
  | String c r => negb (code c =? 48)%nat || some_nonzero r
  end.

Definition is_hex_digit (c : ascii) : bool :=
  is_digit c
  || ((97 <=? code c)%nat && (code c <=? 102)%nat)
  || ((65 <=? code c)%nat && (code c <=? 70)%nat).

Definition is_octal_digit (c : ascii) : bool :=
  (48 <=? code c)%nat && (code c <=? 55)%nat.

Definition is_binary_digit (c : ascii) : bool :=
  (code c =? 48)%nat || (code c =? 49)%nat.

(** The digits of the literals [0x..], [0o..] and [0b..], by the letter
    after the [0]. *)
Definition radix_digits (letter : ascii) : option (ascii -> bool) :=
  if (code letter =? 120)%nat || (code letter =? 88)%nat then Some is_hex_digit
  else if (code letter =? 111)%nat || (code letter =? 79)%nat then Some is_octal_digit
  else if (code letter =? 98)%nat || (code letter =? 66)%nat then Some is_binary_digit
  else None.

(** A text that begins like a literal of radix 16, 8 or 2: whether it is
    one and its value is above zero. *)
Definition non_decimal (s : string) : option bool :=
  match s with
  | String z (String letter r) =>
      if (code z =? 48)%nat then
        match radix_digits letter with
        | Some p =>
            Some (negb (String.eqb r "") && all_in p r && some_nonzero r)
        | None => None
        end
      else None
  | _ => None
  end.

(** The exponent part of a decimal literal, which may be absent. *)
Definition exponent (s : string) : option Z :=
  match s with
  | EmptyString => Some 0
  | String e r =>
      if (code e =? 101)%nat || (code e =? 69)%nat then
        let (negative, ds) :=
          match r with
          | String sign r' =>
              if (code sign =? 45)%nat then (true, r')
              else if (code sign =? 43)%nat then (false, r')
              else (false, r)
          | EmptyString => (false, r)
          end in
        if negb (String.eqb ds "") && all_in is_digit ds
        then Some (if negative then - parseInt ds else parseInt ds)
        else None
      else None
  end.

(** An unsigned decimal literal whose value is above zero as a Number:
    [Infinity], or digits with an optional fraction and exponent whose
    value [m * 10 ^ e] is not rounded to zero, that is, exceeds
    [2 ^ -1075], half of the least Number above zero (the literal is
    rounded to the nearest Number, as V8 does). *)
Definition unsigned_positive (s : string) : bool :=
  if String.eqb s "Infinity" then true
  else
    let (int, r1) := span is_digit s in
    let (frac, r2) :=
      match r1 with
      | String dot r => if (code dot =? 46)%nat then span is_digit r
                        else (EmptyString, r1)
      | EmptyString => (EmptyString, r1)
      end in
    if String.eqb int "" && String.eqb frac "" then false
    else
      match exponent r2 with
      | None => false
      | Some e =>
          let m := parseInt (int ++ frac) in
          let e := e - Z.of_nat (String.length frac) in
          (0 <? m) && ((0 <=? e) || (10 ^ (- e) <? m * 2 ^ 1075))
      end.

(** [ToNumber(s) > 0] for a text: white space around the literal is
    ignored, a literal of radix 16, 8 or 2 has no sign, and a text that
    is no literal is NaN. *)
Definition string_positive (s : string) : bool :=
  let t := trim s in
  match non_decimal t with
  | Some b => b
  | None =>
      match t with
      | EmptyString => false
      | String sign r =>
          if (code sign =? 45)%nat then false
          else if (code sign =? 43)%nat then unsigned_positive r
          else unsigned_positive t
      end
  end.

(** [ToNumber(ToString(v)) > 0]: a number is written in decimal, an
    array of one element is written as that element, and every other
    value is written as a text that is no literal ([true], [null],
    [[object Object]], elements separated by commas) or as the empty
    text. *)
Fixpoint text_positive (v : jsval) : bool :=
  match v with
  | JNum n => 0 <? n
  | JStr s => string_positive s
  | JArr (x :: nil) => text_positive x
  | _ => false
  end.

(** [v > 0] *)
Definition greater_than_zero (v : jsval) : outcome bool :=
  if printable v then
    Ret (match v with
         | JBool b => b
         | _ => text_positive v
         end)
  else Throw "Cannot convert object to primitive value".

End Js.

(** ** The AI Gateway's answer parser ([callGeminiApi], QTube_content.js) *)

Module Gateway.
Import JsString.
Local Open Scope string_scope.

(** The array returned by [timestampRegex.exec]: the whole match and the
    capture groups of
    [/\[(\d{1,2}):(\d{2})\](?: - (.*?))?(\n|$)/g].
    Group 3 is [undefined] when the optional part did not take part. *)
Record rmatch : Type := {
  m_full : string;            (* match[0] *)
  m_minutes : string;         (* match[1] *)
  m_seconds : string;         (* match[2] *)
  m_desc : option string;     (* match[3] *)
  m_term : string             (* match[4] *)
}.

(** [(.*?)(\n|$)]: the lazy star tries the terminator first and only
    then consumes one more character that is not a line terminator. *)
Fixpoint lazy_desc (s : string) : option (string * string) :=
  match s with
  | EmptyString => Some (EmptyString, EmptyString)
  | String c r =>
      if is_lf c then Some (EmptyString, LF)
      else if is_line_terminator c then None
      else match lazy_desc r with
           | Some (d, t) => Some (String c d, t)
           | None => None
           end
  end.

(** [(\n|$)] with no [m] flag: a line feed, or the end of the text. *)
Definition terminator (s : string) : option string :=
  match s with
  | EmptyString => Some EmptyString
  | String c _ => if is_lf c then Some LF else None
  end.

(** [(?: - (.*?))?(\n|$)]: the optional group is greedy, so it is tried
    first; when it fails the terminator must follow the bracket. *)
Definition tail (s : string) : option (option string * string) :=
  let skip := match terminator s with
              | Some t => Some (None, t)
              | None => None
              end in
  if starts_with " - " s then
    match lazy_desc (drop 3 s) with
    | Some (d, t) => Some (Some d, t)
    | None => skip
    end
  else skip.

(** [(\d{1,2}):] after the bracket: two digits are tried before one.
    (When two digits and the colon match, the one-digit alternative can
    never match later, because the second digit is not a colon.) *)
Definition minutes_part (s : string) : option (string * string) :=
  match s with
  | String d1 r1 =>
      if is_digit d1 then
        let one := match r1 with
                   | String ":" r => Some (String d1 "", r)
                   | _ => None
                   end in
        match r1 with
        | String d2 (String ":" r) =>
            if is_digit d2 then Some (String d1 (String d2 ""), r) else one
        | _ => one
        end
      else None
  | EmptyString => None
  end.

(** [(\d{2})\]] *)
Definition seconds_part (s : string) : option (string * string) :=
  match s with
  | String s1 (String s2 (String "]" r)) =>
      if is_digit s1 && is_digit s2 then Some (String s1 (String s2 ""), r)
      else None
  | _ => None
  end.

Definition opt_desc (d : option string) : string :=
  match d with
  | Some x => " - " ++ x
  | None => EmptyString
  end.

(** The regular expression tried at the start of [s]. *)
Definition match_here (s : string) : option rmatch :=
  match s with
  | String "[" r0 =>
      match minutes_part r0 with
      | Some (mm, r1) =>
          match seconds_part r1 with
          | Some (ss, r2) =>
              match tail r2 with
              | Some (d, t) =>
                  Some {| m_full := "[" ++ mm ++ ":" ++ ss ++ "]" ++ opt_desc d ++ t;
                          m_minutes := mm; m_seconds := ss;
                          m_desc := d; m_term := t |}
              | None => None
              end
          | None => None
          end
      | None => None
      end
  | _ => None
  end.

(** The search of [exec]: the first index at or after the current one
    where the expression matches. *)
Fixpoint search (suffix : string) (i : nat) : option (nat * rmatch) :=
  match match_here suffix with
  | Some m => Some (i, m)
  | None =>
      match suffix with
      | EmptyString => None
      | String _ r => search r (S i)
      end
  end.

(** [timestampRegex.exec(text)] with [lastIndex]; on success the new
    [lastIndex] is the end of the match. *)
Definition exec (text : string) (lastIndex : nat) : option (nat * rmatch) :=
  if (String.length text <? lastIndex)%nat then None
  else search (drop lastIndex text) lastIndex.

(** An element of [parsedTimestamps]. *)
Record citation : Type := {
  time : Z;
  timestamp : string;
  text : string
}.

Definition citation_of (m : rmatch) : citation :=
  let minutes := parseInt (m_minutes m) in
  let seconds := parseInt (m_seconds m) in
  let totalSeconds := minutes * 60 + seconds in
  let description :=
    match m_desc m with
    | Some EmptyString => EmptyString
    | Some d => trim d
    | None => EmptyString
    end in
  {| time := totalSeconds;
     timestamp := padStart (of_number minutes) 2 "0" ++ ":"
                  ++ padStart (of_number seconds) 2 "0";
     text := description |}.

(** The [while ((match = exec(fullAiAnswer)) !== null)] loop.  Every
    match is at least seven characters long, so [lastIndex] grows and
    the fuel given by [parse] is never used up ([parse_total]). *)
Fixpoint parse_loop (fuel : nat) (fullAiAnswer : string) (lastIndex : nat)
    (parsedTimestamps : list citation) (cleanAnswer : string)
    : option (list citation * string) :=
  match fuel with
  | O => None
  | S fuel' =>
      match exec fullAiAnswer lastIndex with
      | None => Some (parsedTimestamps, cleanAnswer)
      | Some (i, m) =>
          let fullMatch := m_full m in
          parse_loop fuel' fullAiAnswer (i + String.length fullMatch)
            (parsedTimestamps ++ [citation_of m])
            (trim (replace cleanAnswer fullMatch ""))
      end
  end.

(** [\s*\n] after a line feed: the greedy star backs off to the last
    line feed of the white-space run; the result is the number of
    characters consumed. *)
Fixpoint blank_run (s : string) : option nat :=
  match s with
  | EmptyString => None
  | String c r =>
      if is_space c then
        match blank_run r with
        | Some k => Some (S k)
        | None => if is_lf c then Some 1%nat else None
        end
      else None
  end.

(** [s.replace(/\n\s*\n/g, '\n\n')]; [skip] counts the characters of
    the current match that are still to be passed over. *)
Fixpoint collapse_blank (skip : nat) (s : string) : string :=
  match s with
  | EmptyString => EmptyString
  | String c r =>
      match skip with
      | S k => collapse_blank k r
      | O =>
          if is_lf c then
            match blank_run r with
            | Some k => LF ++ LF ++ collapse_blank k r
            | None => String c (collapse_blank 0 r)
            end
          else String c (collapse_blank 0 r)
      end
  end.

(** The object [{ answer, timestamps }] that [callGeminiApi] returns. *)
Record parsed : Type := {
  answer : string;
  timestamps : list citation
}.

(** The body of [callGeminiApi] from [fullAiAnswer] on. *)
Definition parse (fullAiAnswer : string) : option parsed :=
  match parse_loop (S (String.length fullAiAnswer)) fullAiAnswer 0 [] fullAiAnswer with
  | Some (ts, cleanAnswer) =>
      Some {| answer := trim (collapse_blank 0 cleanAnswer); timestamps := ts |}
  | None => None
  end.

(** The response of [fetch]: [response.ok], [response.status], the body
    as [response.text()] gives it and as [response.json()] gives it. *)
Record http_response : Type := {
  r_ok : bool;
  r_status : Z;
  r_text : string;
  r_json : Js.jsval
}.

(** [v.length > 0] for a value that is neither [undefined] nor [null]:
    the number of elements of an array, the length of a text, the own
    property [length] of an object, and [undefined] for a number or a
    boolean. *)
Definition has_elements (v : Js.jsval) : outcome bool :=
  match v with
  | Js.JArr items => Ret (match items with [] => false | _ :: _ => true end)
  | Js.JStr s => Ret (match s with EmptyString => false | String _ _ => true end)
  | Js.JObj props => Js.greater_than_zero (Js.lookup_prop props "length")
  | _ => Ret false
  end.

(** [v[0]] *)
Definition first (v : Js.jsval) : outcome Js.jsval :=
  match v with
  | Js.JArr (x :: _) => Ret x
  | Js.JStr (String c _) => Ret (Js.JStr (String c EmptyString))
  | Js.JObj props => Ret (Js.lookup_prop props "0")
  | Js.JUndefined => Throw "Cannot read properties of undefined (reading '0')"
  | Js.JNull => Throw "Cannot read properties of null (reading '0')"
  | _ => Ret Js.JUndefined
  end.

Definition and_then {A} (x : outcome A) (k : A -> outcome parsed) : outcome parsed :=
  match x with
  | Ret a => k a
  | Throw e => Throw e
  end.

Definition invalid_structure : outcome parsed :=
  Throw "AI response structure invalid or empty.".

(** [callGeminiApi] from the response of [fetch] on.  A text that is not
    a string has no [replace] method, which the cleaning calls. *)
Definition callGeminiApi (response : http_response) : outcome parsed :=
  if negb (r_ok response) then
    Throw ("Gemini API request failed: " ++ of_number (r_status response)
           ++ " " ++ r_text response)
  else
    and_then (Js.get_prop (r_json response) "candidates") (fun candidates =>
    if negb (Js.truthy candidates) then invalid_structure
    else
      and_then (has_elements candidates) (fun some_candidate =>
      if negb some_candidate then invalid_structure
      else
        and_then (first candidates) (fun candidate =>
        and_then (Js.get_prop candidate "content") (fun content =>
        if negb (Js.truthy content) then invalid_structure
        else
          and_then (Js.get_prop content "parts") (fun parts =>
          if negb (Js.truthy parts) then invalid_structure
          else
            and_then (has_elements parts) (fun some_part =>
            if negb some_part then invalid_structure
            else
              and_then (first parts) (fun part =>
              and_then (Js.get_prop part "text") (fun fullAiAnswer =>
              match fullAiAnswer with
              | Js.JStr s =>
                  match parse s with
                  | Some r => Ret r
                  | None => Throw "the scan of the answer did not end"
                  end
              | Js.JUndefined =>
                  Throw "Cannot read properties of undefined (reading 'replace')"
              | Js.JNull =>
                  Throw "Cannot read properties of null (reading 'replace')"
              | _ => Throw "cleanAnswer.replace is not a function"
              end)))))))).

(** The success envelope of the generative-language endpoint around an
    answer text. *)
Definition envelope (fullAiAnswer : string) : http_response :=
  {| r_ok := true; r_status := 200; r_text := "";
     r_json :=
       Js.JObj [("candidates",
                 Js.JArr [Js.JObj [("content",
                   Js.JObj [("parts",
                     Js.JArr [Js.JObj [("text", Js.JStr fullAiAnswer)]])])]])] |}.

(** The input of the spec's example:
    ["[01:23] - Intro\nSome text\n[00:05]\n"]. *)
Definition example_answer : string :=
  "[01:23] - Intro" ++ LF ++ "Some text" ++ LF ++ "[00:05]" ++ LF.

End Gateway.

(** *** The grammar of a citation line, as the specification words it

    A citation is a bracketed [MM:SS] with one or two minute digits and
    exactly two second digits, optionally followed by [" - "] and a
    description that stays on the line, and terminated by a line feed or
    by the end of the text. *)

Module CitationGrammar.
Import JsString.

Record occurrence : Type := {
  o_index : nat;               (* where the bracket stands in the text *)
  o_minutes : string;
  o_seconds : string;
  o_desc : option string;
  o_term : string
}.

Fixpoint all_chars (p : ascii -> bool) (s : string) : bool :=
  match s with
  | EmptyString => true
  | String c r => p c && all_chars p r
  end.

Definition o_text (o : occurrence) : string :=
  "[" ++ o_minutes o ++ ":" ++ o_seconds o ++ "]"
  ++ Gateway.opt_desc (o_desc o) ++ o_term o.

Definition o_end (o : occurrence) : nat :=
  (o_index o + String.length (o_text o))%nat.

Definition on_one_line (d : option string) : Prop :=
  match d with
  | Some x => all_chars (fun c => negb (is_line_terminator c)) x = true
  | None => True
  end.

(** [o] is a citation line of [text]. *)
Definition occurs_in (text : string) (o : occurrence) : Prop :=
  exists rest,
    (o_index o <= String.length text)%nat
    /\ drop (o_index o) text = o_text o ++ rest
    /\ all_chars is_digit (o_minutes o) = true
    /\ (String.length (o_minutes o) = 1%nat \/ String.length (o_minutes o) = 2%nat)
    /\ all_chars is_digit (o_seconds o) = true
    /\ String.length (o_seconds o) = 2%nat
    /\ on_one_line (o_desc o)
    /\ (o_term o = LF \/ (o_term o = EmptyString /\ rest = EmptyString)).

(** [occs] are the citation lines of [text] met when reading it from
    index [from]: each is the first one at or after the end of the one
    before, and none is left after the last. *)
Inductive reading (text : string) : nat -> list occurrence -> Prop :=
| reading_done from :
    (forall o, occurs_in text o -> (o_index o < from)%nat) ->
    reading text from []
| reading_next from o occs :
    occurs_in text o ->
    (from <= o_index o)%nat ->
    (forall o', occurs_in text o' -> (from <= o_index o')%nat ->
                (o_index o <= o_index o')%nat) ->
    reading text (o_end o) occs ->
    reading text from (o :: occs).

Definition digit_value (c : ascii) : Z := Z.of_nat (code c) - 48.

(** The number written by one or two digits. *)
Definition digits_value (s : string) : Z :=
  match s with
  | String a EmptyString => digit_value a
  | String a (String b EmptyString) => 10 * digit_value a + digit_value b
  | _ => 0
  end.

(** One digit gets a leading zero, two digits stay as written. *)
Definition zero_padded (s : string) : string :=
  match s with
  | String a EmptyString => String "0" (String a EmptyString)
  | _ => s
  end.

(** The citation the specification assigns to a citation line. *)
Definition citation_spec (o : occurrence) : Gateway.citation :=
  {| Gateway.time := digits_value (o_minutes o) * 60 + digits_value (o_seconds o);
     Gateway.timestamp := zero_padded (o_minutes o) ++ ":" ++ zero_padded (o_seconds o);
     Gateway.text := match o_desc o with
                     | Some d => trim d
                     | None => EmptyString
                     end |}.

(** The citation line read off a match of the regular expression. *)
Definition of_match (i : nat) (m : Gateway.rmatch) : occurrence :=
  {| o_index := i;
     o_minutes := Gateway.m_minutes m;
     o_seconds := Gateway.m_seconds m;
     o_desc := Gateway.m_desc m;
     o_term := Gateway.m_term m |}.

(** The match that stands for a citation line. *)
Definition match_of (o : occurrence) : Gateway.rmatch :=
  {| Gateway.m_full := o_text o; Gateway.m_minutes := o_minutes o;
     Gateway.m_seconds := o_seconds o;
     Gateway.m_desc := o_desc o; Gateway.m_term := o_term o |}.

(** The two ways a citation line can end, and the two lengths of the
    minutes. *)
Definition line_end (t rest : string) : Prop :=
  t = LF \/ (t = "" /\ rest = "").

Definition one_or_two (s : string) : Prop :=
  String.length s = 1%nat \/ String.length s = 2%nat.

End CitationGrammar.


(** ** The Player Bridge: the script injected into the page's main world
    ([injectYouTubePlayerControlScript], QTube_content.js) *)

Module Bridge.
Import JsString Js.

(** The page as the injected script sees it, together with the
    variables of its closure. *)
Record page : Type := {
  ytplayer : jsval;          (* window.ytplayer *)
  calls : list call;         (* calls received by the native player *)
  playerReady : bool;        (* let playerReady *)
  commandQueue : list Z;     (* const commandQueue *)
  timers : list Z;           (* delays of the pending setTimeout calls *)
  listening : bool;          (* the qtube_seek_video listener is attached *)
  uncaught : list string     (* errors that escaped a task *)
}.

Definition set_calls (cs : list call) (pg : page) : page :=
  {| ytplayer := ytplayer pg; calls := cs; playerReady := playerReady pg;
     commandQueue := commandQueue pg; timers := timers pg;
     listening := listening pg; uncaught := uncaught pg |}.

Definition set_playerReady (b : bool) (pg : page) : page :=
  {| ytplayer := ytplayer pg; calls := calls pg; playerReady := b;
     commandQueue := commandQueue pg; timers := timers pg;
     listening := listening pg; uncaught := uncaught pg |}.

Definition set_commandQueue (q : list Z) (pg : page) : page :=
  {| ytplayer := ytplayer pg; calls := calls pg; playerReady := playerReady pg;
     commandQueue := q; timers := timers pg;
     listening := listening pg; uncaught := uncaught pg |}.

Definition set_timers (ts : list Z) (pg : page) : page :=
  {| ytplayer := ytplayer pg; calls := calls pg; playerReady := playerReady pg;
     commandQueue := commandQueue pg; timers := ts;
     listening := listening pg; uncaught := uncaught pg |}.

Definition set_listening (b : bool) (pg : page) : page :=
  {| ytplayer := ytplayer pg; calls := calls pg; playerReady := playerReady pg;
     commandQueue := commandQueue pg; timers := timers pg;
     listening := b; uncaught := uncaught pg |}.

Definition set_uncaught (es : list string) (pg : page) : page :=
  {| ytplayer := ytplayer pg; calls := calls pg; playerReady := playerReady pg;
     commandQueue := commandQueue pg; timers := timers pg;
     listening := listening pg; uncaught := es |}.

Definition set_ytplayer (v : jsval) (pg : page) : page :=
  {| ytplayer := v; calls := calls pg; playerReady := playerReady pg;
     commandQueue := commandQueue pg; timers := timers pg;
     listening := listening pg; uncaught := uncaught pg |}.

(** Code running on the page: it returns or throws, and what it did to
    the page before throwing stays done. *)
Definition M (A : Type) : Type := page -> outcome A * page.

Definition ret {A} (a : A) : M A := fun pg => (Ret a, pg).

Definition bind {A B} (m : M A) (k : A -> M B) : M B :=
  fun pg =>
    match m pg with
    | (Ret a, pg') => k a pg'
    | (Throw e, pg') => (Throw e, pg')
    end.

(** [try { m } catch (e) { h e }] *)
Definition try_catch {A} (m : M A) (h : string -> M A) : M A :=
  fun pg =>
    match m pg with
    | (Ret a, pg') => (Ret a, pg')
    | (Throw e, pg') => h e pg'
    end.

Notation "x <- m ;; k" := (bind m (fun x => k))
  (at level 100, m at next level, right associativity).
Notation "m ;;; k" := (bind m (fun _ => k))
  (at level 100, right associativity).

(** [window.ytplayer.name] *)
Definition member (name : string) : M jsval :=
  fun pg => (get_prop (ytplayer pg) name, pg).

(** [typeof window.ytplayer.name] *)
Definition typeof_member (name : string) : M string :=
  v <- member name ;; ret (typeof v).

(** [window.ytplayer.name(...)]: the call is recorded and the method
    answers according to the calls made before. *)
Definition call_method (name : string) (c : call) : M jsval :=
  f <- member name ;;
  match f with
  | JFun body =>
      fun pg => (body (calls pg), set_calls (calls pg ++ [c]) pg)
  | _ => fun pg => (Throw ("window.ytplayer." ++ name ++ " is not a function"), pg)
  end.

(** [a && b] on conditions whose evaluation may throw. *)
Definition and_then (a b : M bool) : M bool :=
  x <- a ;; if x then b else ret false.

Definition is_typeof (name ty : string) : M bool :=
  t <- typeof_member name ;; ret (String.eqb t ty).

Definition isYouTubePlayerAPIReady : M bool :=
  isReady <-
    and_then (fun pg => (Ret (String.eqb (typeof (ytplayer pg)) "object"), pg))
   (and_then (is_typeof "seekTo" "function")
   (and_then (is_typeof "playVideo" "function")
   (and_then (is_typeof "getPlayerState" "function")
             (l <- member "loaded" ;; ret (is_true l))))) ;;
  if negb isReady then
    (* the reasons are only logged, but collecting them reads the player *)
    typeof_member "seekTo" ;;;
    typeof_member "playVideo" ;;;
    typeof_member "getPlayerState" ;;;
    (fun pg => if truthy (ytplayer pg)
               then (l <- member "loaded" ;; ret (negb (is_true l))) pg
               else (Ret false, pg)) ;;;
    ret isReady
  else
    playerState <- call_method "getPlayerState" CGetPlayerState ;;
    if is_num playerState (-1) || is_num playerState 5 then ret false
    else ret isReady.

Definition processSeekCommand (seconds : Z) : M bool :=
  ready <- isYouTubePlayerAPIReady ;;
  if ready then
    try_catch
      (call_method "seekTo" (CSeekTo seconds true) ;;;
       call_method "playVideo" CPlayVideo ;;;
       ret true)
      (fun _ =>
         typeof_member "seekTo" ;;;
         typeof_member "playVideo" ;;;
         ret false)
  else ret false.

(** [while (commandQueue.length > 0) { processSeekCommand(commandQueue.shift()) }];
    the loop is given as many rounds as the queue is long. *)
Fixpoint drain (rounds : nat) : M unit :=
  fun pg =>
    match rounds, commandQueue pg with
    | S k, seconds :: rest =>
        (processSeekCommand seconds ;;; drain k) (set_commandQueue rest pg)
    | _, _ => (Ret tt, pg)
    end.

(** [setTimeout(ensurePlayerAndProcessQueue, delay)] *)
Definition setTimeout (delay : Z) : M unit :=
  fun pg => (Ret tt, set_timers (timers pg ++ [delay]) pg).

Definition ensurePlayerAndProcessQueue : M unit :=
  (fun pg =>
     if negb (playerReady pg) then
       (ready <- isYouTubePlayerAPIReady ;;
        if ready then
          (fun pg1 =>
             let pg2 := set_playerReady true pg1 in
             drain (List.length (commandQueue pg2)) pg2)
        else ret tt) pg
     else (Ret tt, pg)) ;;;
  setTimeout 200.

(** The listener of [qtube_seek_video]. *)
Definition on_seek (seconds : Z) : M unit :=
  fun pg =>
    if playerReady pg then (processSeekCommand seconds ;;; ret tt) pg
    else (Ret tt, set_commandQueue (commandQueue pg ++ [seconds]) pg).

(** The body of the injected script: the first poll, then the listener. *)
Definition script : M unit :=
  ensurePlayerAndProcessQueue ;;;
  (fun pg => (Ret tt, set_listening true pg)).

(** A task of the event loop: an error that escapes it is reported and
    the page goes on. *)
Definition run_task (m : M unit) (pg : page) : page :=
  match m pg with
  | (Ret _, pg') => pg'
  | (Throw e, pg') => set_uncaught (uncaught pg' ++ [e]) pg'
  end.

(** The page before the script is injected. *)
Definition fresh (player : jsval) : page :=
  {| ytplayer := player; calls := []; playerReady := false;
     commandQueue := []; timers := []; listening := false; uncaught := [] |}.

Definition inject (player : jsval) : page := run_task script (fresh player).

(** What happens on the page afterwards. *)
Inductive event : Type :=
| Timeout                      (* the oldest pending timer fires *)
| SeekEvent (seconds : Z)      (* qtube_seek_video is dispatched *)
| PlayerChange (player : jsval). (* the page replaces window.ytplayer *)

Definition step (e : event) (pg : page) : page :=
  match e with
  | Timeout =>
      match timers pg with
      | [] => pg
      | _ :: rest => run_task ensurePlayerAndProcessQueue (set_timers rest pg)
      end
  | SeekEvent seconds =>
      if listening pg then run_task (on_seek seconds) pg else pg
  | PlayerChange player => set_ytplayer player pg
  end.

Definition run (evs : list event) (pg : page) : page :=
  fold_left (fun p e => step e p) evs pg.

(** [n] polls in a row. *)
Fixpoint polls (n : nat) : list event :=
  match n with
  | O => []
  | S k => Timeout :: polls k
  end.

(** The calls that command the player. *)
Definition is_command (c : call) : bool :=
  match c with
  | CGetPlayerState => false
  | _ => true
  end.

Definition commands (cs : list call) : list call := List.filter is_command cs.


(** Native methods that always answer the same. *)
Definition returns (v : jsval) : jsval := JFun (fun _ => Ret v).
Definition throws (message : string) : jsval := JFun (fun _ => Throw message).

(** A player whose state is [state] and whose methods succeed. *)
Definition player_in_state (state : Z) : jsval :=
  JObj [ ("seekTo", returns JUndefined);
         ("playVideo", returns JUndefined);
         ("getPlayerState", returns (JNum state));
         ("loaded", JBool true) ].

(** A ready player whose [seekTo] throws. *)
Definition player_failing_seek : jsval :=
  JObj [ ("seekTo", throws "seekTo failed");
         ("playVideo", returns JUndefined);
         ("getPlayerState", returns (JNum 1));
         ("loaded", JBool true) ].


(** *** Relations between pages used in the proofs *)

(** [pg'] is [pg] after some more calls to the player, all of them
    satisfying [Q]. *)
Definition extends (Q : call -> Prop) (pg pg' : page) : Prop :=
  exists cs, Forall Q cs /\ pg' = set_calls (calls pg ++ cs)%list pg.

(** Code that does nothing to the page but call the player. *)
Definition frames (Q : call -> Prop) {A} (m : M A) : Prop :=
  forall pg, extends Q pg (snd (m pg)).

Definition quiet (c : call) : Prop := is_command c = false.
Definition any (c : call) : Prop := True.


(** What the tasks of the bridge never touch. *)
Definition keeps (pg pg' : page) : Prop :=
  ytplayer pg' = ytplayer pg /\ playerReady pg' = playerReady pg
  /\ timers pg' = timers pg /\ listening pg' = listening pg
  /\ uncaught pg' = uncaught pg.




End Bridge.

(** ** Delivery with retry ([sendMessageWithRetry], QTube_popup.js) *)

Module Delivery.
Import JsString Js.

(** How one call of [chrome.tabs.sendMessage] ends. *)
Inductive attempt : Type :=
| Delivered (response : jsval)
    (* the promise resolves and chrome.runtime.lastError is not set *)
| LastError (message : string)
    (* the promise resolves but chrome.runtime.lastError is set;
       [message] is empty when the error carries none *)
| Rejected (message : string).
    (* the call throws, or its promise rejects, with this message *)

(** What the function does to the outside. *)
Inductive io : Type :=
| Send (tabId : Z) (message : jsval)
| Wait (delay : Z).

(** How one round of the [for] loop ends. *)
Inductive control : Type :=
| Continue                       (* wait [delay], then [continue] *)
| Return (response : jsval)
| Raise (message : string).

Definition failed_after (retries : Z) (detail : string) : string :=
  "Failed to send message after " ++ of_number (retries + 1)
  ++ " attempts: " ++ detail.

(** [message.action || message.type] written into a text, which the
    templates of the two warnings (lines 75 and 84) do before they
    print: reading a property of [undefined] or [null] throws, and so
    does a value that cannot be written. *)
Definition label (message : jsval) : outcome jsval :=
  match get_prop message "action" with
  | Throw e => Throw e
  | Ret action =>
      match (if truthy action then Ret action else get_prop message "type") with
      | Throw e => Throw e
      | Ret v =>
          if printable v then Ret v
          else Throw "Cannot convert object to primitive value"
      end
  end.

(** A message that the warnings can name: every object whose [action]
    and [type] are texts, numbers or absent, as the messages of the
    extension are. *)
Definition describable (message : jsval) : Prop :=
  exists v, label message = Ret v.

(** The [catch (e)] clause: the warning, then the test.  An error of the
    warning leaves the clause and the function. *)
Definition catch_clause (retries i : Z) (message : jsval) (e : string)
    : control :=
  match label message with
  | Throw t => Raise t
  | Ret _ =>
      if (i <? retries) && includes e "Could not establish connection"
      then Continue
      else Raise (failed_after retries e)
  end.

(** One round of the loop.  The warning and the [throw] of the
    last-error path sit inside the [try], so the [catch] clause receives
    what they throw. *)
Definition round (retries i : Z) (message : jsval) (a : attempt) : control :=
  match a with
  | Delivered response => Return response
  | LastError lastError =>
      let errorMsg :=
        if String.eqb lastError "" then "Unknown connection error"
        else lastError in
      match label message with
      | Throw t => catch_clause retries i message t
      | Ret _ =>
          if i <? retries then Continue
          else catch_clause retries i message (failed_after retries errorMsg)
      end
  | Rejected e => catch_clause retries i message e
  end.

(** [for (let i = 0; i <= retries; i++)], from round [i] on; [rounds]
    is the number of rounds the loop condition still allows. *)
Fixpoint loop (rounds : nat) (env : Z -> attempt) (tabId : Z) (message : jsval)
    (retries delay i : Z) : outcome jsval * list io :=
  match rounds with
  | O =>
      (Throw "sendMessageWithRetry failed without explicit error after all retries.",
       [])
  | S k =>
      match round retries i message (env i) with
      | Return response => (Ret response, [Send tabId message])
      | Raise e => (Throw e, [Send tabId message])
      | Continue =>
          let (result, trace) := loop k env tabId message retries delay (i + 1) in
          (result, Send tabId message :: Wait delay :: trace)
      end
  end.

(** [env i] is the fate of the attempt made in round [i]. *)
Definition sendMessageWithRetry (env : Z -> attempt) (tabId : Z)
    (message : jsval) (retries delay : Z) : outcome jsval * list io :=
  loop (Z.to_nat (retries + 1)) env tabId message retries delay 0.

(** A failure of the connection class: no receiving end in the tab. *)
Definition connection_failure (a : attempt) : bool :=
  match a with
  | Delivered _ => false
  | LastError message => includes message "Could not establish connection"
  | Rejected message => includes message "Could not establish connection"
  end.

(** [n] failed attempts, each followed by the delay. *)
Fixpoint retried (n : nat) (tabId : Z) (message : jsval) (delay : Z) : list io :=
  match n with
  | O => []
  | S k => Send tabId message :: Wait delay :: retried k tabId message delay
  end.

(** Two messages that Chrome gives: the first is of the connection
    class, the second is not. *)
Definition no_receiver : string :=
  "Could not establish connection. Receiving end does not exist.".

Definition port_closed : string :=
  "The message port closed before a response was received.".

(** The message of the handshake (line 124). *)
Definition ping : jsval := JObj [("type", JStr "ping")].

End Delivery.

(** ** The readiness handshake ([ensureContentScriptLoaded], QTube_popup.js) *)

Module Handshake.
Import JsString.

(** The state of a promise. *)
Inductive settlement : Type :=
| Pending
| Fulfilled
| Rejected (reason : string).

(** Where the asynchronous executor of a promise stands. *)
Inductive phase : Type :=
| AwaitPing                    (* await chrome.tabs.sendMessage(tabId, ping) *)
| AwaitInject                  (* await chrome.scripting.executeScript(...) *)
| Armed (due : Z)              (* the 15 s timer is set and fires at [due] *)
| Expired.                     (* the timer has fired *)

(** A promise created by [ensureContentScriptLoaded], with what its
    executor holds. *)
Record session : Type := {
  s_tab : Z;                   (* tabId *)
  s_state : settlement;
  s_phase : phase;
  s_listening : bool           (* readyListener is registered *)
}.

(** Calls of the Chrome API. *)
Inductive effect : Type :=
| Ping (tabId : Z)
| Inject (tabId : Z).

(** The popup: the clock in milliseconds, the map of the source, the
    promises created so far (a promise is named by its position) and
    the calls made. *)
Record popup : Type := {
  now : Z;
  contentScriptReadyPromises : gmap Z nat;
  promises : list session;
  effects : list effect
}.

Definition init : popup :=
  {| now := 0; contentScriptReadyPromises := ∅; promises := []; effects := [] |}.

Definition timeout_ms : Z := 15000.

(** [resolve()] and [reject(...)]: a settled promise stays as it is. *)
Definition resolve (s : session) : session :=
  match s_state s with
  | Pending => {| s_tab := s_tab s; s_state := Fulfilled;
                  s_phase := s_phase s; s_listening := s_listening s |}
  | _ => s
  end.

Definition reject (reason : string) (s : session) : session :=
  match s_state s with
  | Pending => {| s_tab := s_tab s; s_state := Rejected reason;
                  s_phase := s_phase s; s_listening := s_listening s |}
  | _ => s
  end.

(** [chrome.runtime.onMessage.removeListener(readyListener)] *)
Definition removeListener (s : session) : session :=
  {| s_tab := s_tab s; s_state := s_state s;
     s_phase := s_phase s; s_listening := false |}.

Definition set_phase (ph : phase) (s : session) : session :=
  {| s_tab := s_tab s; s_state := s_state s;
     s_phase := ph; s_listening := s_listening s |}.

Definition set_promises (ps : list session) (st : popup) : popup :=
  {| now := now st; contentScriptReadyPromises := contentScriptReadyPromises st;
     promises := ps; effects := effects st |}.

Definition update (p : nat) (f : session -> session) (st : popup) : popup :=
  set_promises (alter f p (promises st)) st.

(** A new promise: pending, its listener registered, its ping sent. *)
Definition fresh_session (tabId : Z) : session :=
  {| s_tab := tabId; s_state := Pending; s_phase := AwaitPing;
     s_listening := true |}.

(** [ensureContentScriptLoaded(tabId)] up to its [return]: with an entry
    in the map the stored promise is returned; otherwise a promise is
    created, its executor registers the listener and sends the ping,
    and the promise is stored. *)
Definition ensureContentScriptLoaded (tabId : Z) (st : popup) : nat * popup :=
  match contentScriptReadyPromises st !! tabId with
  | Some p => (p, st)
  | None =>
      let p := List.length (promises st) in
      (p,
       {| now := now st;
          contentScriptReadyPromises := <[tabId := p]> (contentScriptReadyPromises st);
          promises := promises st ++ [fresh_session tabId];
          effects := effects st ++ [Ping tabId] |})
  end.

(** [setTimeout(..., 15000)], reached when the [try] statement is left. *)
Definition arm (t : Z) (s : session) : session :=
  set_phase (Armed (t + timeout_ms)) s.

Definition inject_failed (message : string) : string :=
  "Failed to inject QTube_content.js: " ++ message.

Definition timed_out (tabId : Z) : string :=
  "Content script in tab " ++ of_number tabId
  ++ " did not send 'contentScriptReady' signal after injection timeout.".

(** [readyListener(msg, sender)]; [senderTab] is [sender.tab.id] when
    the sender has a tab. *)
Definition readyListener (senderTab : option Z) (type : string)
    (s : session) : session :=
  if s_listening s then
    match senderTab with
    | Some id =>
        if (id =? s_tab s) && String.eqb type "contentScriptReady"
        then resolve (removeListener s)
        else s
    | None => s
    end
  else s.

(** The callback of the timer of promise [p]. *)
Definition on_timeout (p : nat) (st : popup) : popup :=
  match promises st !! p with
  | Some s =>
      if decide (contentScriptReadyPromises st !! s_tab s = Some p) then
        {| now := now st;
           contentScriptReadyPromises := delete (s_tab s) (contentScriptReadyPromises st);
           promises := alter (fun s => set_phase Expired
                                         (reject (timed_out (s_tab s)) (removeListener s)))
                         p (promises st);
           effects := effects st |}
      else update p (set_phase Expired) st
  | None => st
  end.

Definition due_at (t : Z) (s : session) : bool :=
  match s_phase s with
  | Armed due => due <=? t
  | _ => false
  end.

(** The timer of promise [p] fires if it is due. *)
Definition fire_one (p : nat) (st : popup) : popup :=
  match promises st !! p with
  | Some s => if due_at (now st) s then on_timeout p st else st
  | None => st
  end.

Definition fires (ps : list nat) (st : popup) : popup :=
  fold_left (fun st p => fire_one p st) ps st.

(** The timers that are due fire. *)
Definition fire_due (st : popup) : popup :=
  fires (seq 0 (List.length (promises st))) st.

Definition set_now (t : Z) (st : popup) : popup :=
  {| now := t; contentScriptReadyPromises := contentScriptReadyPromises st;
     promises := promises st; effects := effects st |}.

(** What can happen to the popup. *)
Inductive event : Type :=
| Call (tabId : Z)                         (* ensureContentScriptLoaded(tabId) *)
| PingAnswered (p : nat)                   (* the ping of promise p is answered *)
| PingFailed (p : nat)                     (* the ping of promise p fails *)
| InjectionDone (p : nat)                  (* executeScript resolves *)
| InjectionFailed (p : nat) (message : string) (* executeScript rejects *)
| Message (senderTab : option Z) (type : string) (* chrome.runtime.onMessage *)
| Elapse (dt : Z).                         (* [dt] milliseconds pass *)

Definition in_phase (ph : phase) (p : nat) (st : popup) : option session :=
  match promises st !! p with
  | Some s =>
      match s_phase s, ph with
      | AwaitPing, AwaitPing => Some s
      | AwaitInject, AwaitInject => Some s
      | _, _ => None
      end
  | None => None
  end.

Definition step (e : event) (st : popup) : popup :=
  match e with
  | Call tabId => snd (ensureContentScriptLoaded tabId st)
  | PingAnswered p =>
      match in_phase AwaitPing p st with
      | Some _ => update p (fun s => arm (now st) (resolve (removeListener s))) st
      | None => st
      end
  | PingFailed p =>
      match in_phase AwaitPing p st with
      | Some s =>
          {| now := now st;
             contentScriptReadyPromises := contentScriptReadyPromises st;
             promises := alter (set_phase AwaitInject) p (promises st);
             effects := effects st ++ [Inject (s_tab s)] |}
      | None => st
      end
  | InjectionDone p =>
      match in_phase AwaitInject p st with
      | Some _ => update p (arm (now st)) st
      | None => st
      end
  | InjectionFailed p message =>
      match in_phase AwaitInject p st with
      | Some _ =>
          update p (fun s => arm (now st)
                               (reject (inject_failed message) (removeListener s))) st
      | None => st
      end
  | Message senderTab type =>
      set_promises (List.map (readyListener senderTab type) (promises st)) st
  | Elapse dt =>
      if dt <? 0 then st else fire_due (set_now (now st + dt) st)
  end.

Definition run (evs : list event) (st : popup) : popup :=
  fold_left (fun s e => step e s) evs st.

(** The state of promise [p]. *)
Definition state_of (p : nat) (st : popup) : option settlement :=
  s_state <$> promises st !! p.

Definition injections (tabId : Z) (st : popup) : nat :=
  List.length (List.filter (fun e => match e with
                                     | Inject t => t =? tabId
                                     | _ => false
                                     end) (effects st)).

(** *** Relations used in the proofs *)

(** A promise keeps its tab, keeps its state once it is settled, and
    never waits for its ping again. *)
Definition evolves (s s' : session) : Prop :=
  s_tab s' = s_tab s
  /\ (s_state s <> Pending -> s_state s' = s_state s)
  /\ (s_phase s <> AwaitPing -> s_phase s' <> AwaitPing).

(** A promise whose timer has fired is settled. *)
Definition expired_settled (st : popup) : Prop :=
  forall p s, promises st !! p = Some s -> s_phase s = Expired ->
    s_state s <> Pending.

(** Every promise whose timer has not fired is the one stored for its
    tab. *)
Definition consistent (st : popup) : Prop :=
  forall p s, promises st !! p = Some s -> s_phase s <> Expired ->
    contentScriptReadyPromises st !! s_tab s = Some p.

End Handshake.

(** ** Submitting a question ([askQuestion], QTube_popup.js) *)

Module Popup.
Import JsString Js.

Definition defaultText : string :=
  "Ask a question about this video (under 200 characters)...".

(** What leaves the popup. *)
Inductive action : Type :=
| TabsQuery                       (* chrome.tabs.query({active, currentWindow}) *)
| EnsureLoaded (tabId : Z)        (* ensureContentScriptLoaded(currentTab.id) *)
| Io (x : Delivery.io)            (* what sendMessageWithRetry does *)
| WindowClose.                    (* window.close() *)

(** The elements of the popup the function touches, the timers that
    will hide the message, and the actions taken so far. *)
Record dom : Type := {
  questionInput_value : string;
  askButton_disabled : bool;
  askButton_textContent : string;
  popupMessage_textContent : string;
  popupMessage_className : string;
  popupMessage_display : string;
  hide_timers : list Z;
  actions : list action
}.

(** What the function meets outside: the tabs returned by the query
    (identifier and URL), how the handshake with a tab settles, what
    happens to each attempt of delivery, and [document.hidden]. *)
Record world : Type := {
  active_tabs : list (Z * string);
  handshake : Z -> outcome unit;
  delivery : Z -> Delivery.attempt;
  document_hidden : bool
}.

Definition displayMessage (message type : string) (d : dom) : dom :=
  {| questionInput_value := questionInput_value d;
     askButton_disabled := askButton_disabled d;
     askButton_textContent := askButton_textContent d;
     popupMessage_textContent := message;
     popupMessage_className := "popup-message " ++ type;
     popupMessage_display := "block";
     hide_timers := hide_timers d ++ [5000];
     actions := actions d |}.

Definition set_button (disabled : bool) (textContent : string) (d : dom) : dom :=
  {| questionInput_value := questionInput_value d;
     askButton_disabled := disabled;
     askButton_textContent := textContent;
     popupMessage_textContent := popupMessage_textContent d;
     popupMessage_className := popupMessage_className d;
     popupMessage_display := popupMessage_display d;
     hide_timers := hide_timers d;
     actions := actions d |}.

Definition act (xs : list action) (d : dom) : dom :=
  {| questionInput_value := questionInput_value d;
     askButton_disabled := askButton_disabled d;
     askButton_textContent := askButton_textContent d;
     popupMessage_textContent := popupMessage_textContent d;
     popupMessage_className := popupMessage_className d;
     popupMessage_display := popupMessage_display d;
     hide_timers := hide_timers d;
     actions := actions d ++ xs |}.

Definition hide_later (d : dom) : dom :=
  {| questionInput_value := questionInput_value d;
     askButton_disabled := askButton_disabled d;
     askButton_textContent := askButton_textContent d;
     popupMessage_textContent := popupMessage_textContent d;
     popupMessage_className := popupMessage_className d;
     popupMessage_display := popupMessage_display d;
     hide_timers := hide_timers d ++ [5000];
     actions := actions d |}.

Definition showOverlay_message (question : string) : jsval :=
  JObj [("type", JStr "showOverlay"); ("question", JStr question)].

(** The [try] block. *)
Definition attempt_overlay (w : world) (question : string) (d : dom)
    : outcome unit * dom :=
  let d := act [TabsQuery] d in
  match active_tabs w with
  | [] => (Throw "Cannot read properties of undefined (reading 'url')", d)
  | (id, url) :: _ =>
      if negb (includes url "youtube.com/watch") then
        (Ret tt,
         displayMessage "Please navigate to a YouTube video page first." "error" d)
      else
        let d := act [EnsureLoaded id] d in
        match handshake w id with
        | Throw e => (Throw e, d)
        | Ret _ =>
            let d := displayMessage "AI chat ready. Displaying overlay..." "info" d in
            let (result, trace) :=
              Delivery.sendMessageWithRetry (delivery w) id
                (showOverlay_message question) 5 750 in
            let d := act (List.map Io trace) d in
            match result with
            | Throw e => (Throw e, d)
            | Ret _ => (Ret tt, act [WindowClose] d)
            end
        end
  end.

(** From the first statement after the validation to the end of
    [finally]. *)
Definition submit (w : world) (question : string) (d : dom) : dom :=
  let d := set_button true "Opening AI Chat..." d in
  let d := displayMessage "Ensuring AI chat is ready..." "info" d in
  let d :=
    match attempt_overlay w question d with
    | (Ret _, d) => d
    | (Throw message, d) =>
        displayMessage
          ("Error: "
           ++ (if String.eqb message "" then "Failed to open AI chat overlay."
               else message)
           ++ " Please ensure the YouTube page is fully loaded and try again.")
          "error" d
    end in
  let d := set_button false "Ask AI" d in
  if negb (document_hidden w) then hide_later d else d.

Definition askQuestion (w : world) (d : dom) : dom :=
  let question := trim (questionInput_value d) in
  if String.eqb question "" || String.eqb question defaultText then
    displayMessage "Please enter a question first!" "error" d
  else if (200 <? String.length question)%nat then
    displayMessage "Please keep your question under 200 characters." "error" d
  else submit w question d.

(** A popup in which a question has been typed, and a browser that
    reports no active tab. *)
Definition typed : dom :=
  {| questionInput_value := "  What is the main point?  ";
     askButton_disabled := false; askButton_textContent := "Ask AI";
     popupMessage_textContent := ""; popupMessage_className := "";
     popupMessage_display := "none"; hide_timers := []; actions := [] |}.

Definition no_tab : world :=
  {| active_tabs := [];
     handshake := fun _ => Ret tt;
     delivery := fun _ => Delivery.Rejected Delivery.no_receiver;
     document_hidden := false |}.

End Popup.

(** ** The proxy invoker (the [processManualTranscript] listener,
    QTube_popup.js) *)

Module Proxy.
Import JsString Js.

Record video_data : Type := {
  videoTitle : string;
  videoDescription : string;
  videoTranscript : string
}.

(** A message received by [chrome.runtime.onMessage]; [videoData] is
    absent when the message has no such field. *)
Record message : Type := {
  type : string;
  question : string;
  videoData : option video_data
}.

Inductive action : Type :=
| QueryActiveTab                  (* chrome.tabs.query({active, currentWindow}) *)
| AskGateway (prompt : string)    (* callGeminiApi(prompt) *)
| SendResponse (payload : jsval). (* sendResponse(payload) *)

Definition prompt_of (v : video_data) (question : string) : string :=
  "You are an AI assistant designed to answer questions about YouTube videos."
  ++ LF ++ "Video Title: " ++ DQ ++ videoTitle v ++ DQ
  ++ LF ++ "Video Description: " ++ DQ ++ videoDescription v ++ DQ
  ++ LF ++ "Video Transcript:" ++ LF ++ LF ++ videoTranscript v ++ LF ++ LF
  ++ LF ++ "Based *only* on the provided video transcript and description, answer the following question. If the information is not present in the transcript or description, state that you cannot answer based on the provided text."
  ++ LF ++ "User Question: " ++ DQ ++ question ++ DQ
  ++ LF ++ "AI Answer:".

Definition failure (error : string) : jsval :=
  JObj [("success", JBool false); ("error", JStr error)].

Definition success (aiAnswer : jsval) : jsval :=
  JObj [("success", JBool true); ("answer", aiAnswer)].

(** What the runtime receives when a listener returns: the value
    returned by an ordinary function, or the promise that an [async]
    function returns, with the value it is fulfilled with later. *)
Inductive returned : Type :=
| Value (v : jsval)
| Promise (fulfilled_with : jsval).

(** The contract of [chrome.runtime.onMessage] that line 273 relies on
    ("Keep message channel open for async response"): [sendResponse]
    can still be used after the listener has returned only if the
    listener returned [true]. *)
Definition keeps_channel_open (r : returned) : bool :=
  match r with
  | Value (JBool true) => true
  | _ => false
  end.

(** A run of the listener: what it does before it returns to the
    runtime, what it returns, and what it does afterwards. *)
Record run : Type := {
  before_return : list action;
  handed : returned;
  after_return : list action
}.

Section Listener.
(** The function [callGeminiApi] in the scope of the listener.
    QTube_popup.js defines none ([None]): the call is then a
    ReferenceError.  The listener is modelled for any function of that
    name as well. *)
Variable callGeminiApi : option (string -> outcome jsval).

(** The body of the [try] statement: what is done, and the payload
    sent back. *)
Definition process (m : message) : list action :=
  match videoData m with
  | None =>
      [SendResponse
         (failure "Cannot read properties of undefined (reading 'videoTitle')")]
  | Some v =>
      let prompt := prompt_of v (question m) in
      match callGeminiApi with
      | None => [SendResponse (failure "callGeminiApi is not defined")]
      | Some gateway =>
          match gateway prompt with
          | Ret aiAnswer => [AskGateway prompt; SendResponse (success aiAnswer)]
          | Throw e =>
              [AskGateway prompt;
               SendResponse (failure (if String.eqb e "" then "Failed to get AI response."
                                      else e))]
          end
      end
  end.

(** The listener is an [async] function.  It runs up to its first
    [await], that of the query for the active tab, and returns a
    promise; the rest of its body runs later, and its [return]
    statements settle the promise.  [currentTab] is the identifier of
    [tabs[0]] of the query, if any; [senderTab] is [sender.tab.id], if
    the sender has a tab. *)
Definition listener (currentTab senderTab : option Z) (m : message) : run :=
  if String.eqb (type m) "processManualTranscript" then
    match currentTab, senderTab with
    | Some current, Some from =>
        if negb (from =? current) then
          {| before_return := [QueryActiveTab];
             handed := Promise JUndefined;
             after_return :=
               [SendResponse (failure "Invalid tab context for AI processing.")] |}
        else
          {| before_return := [QueryActiveTab];
             handed := Promise (JBool true);
             after_return := process m |}
    | _, _ =>
        {| before_return := [QueryActiveTab];
           handed := Promise JUndefined;
           after_return :=
             [SendResponse (failure "Invalid tab context for AI processing.")] |}
    end
  else {| before_return := []; handed := Promise JUndefined; after_return := [] |}.

End Listener.

(** The value of [{ answer, timestamps }] returned by the
    [callGeminiApi] of QTube_content.js. *)
Definition js_of_citation (c : Gateway.citation) : jsval :=
  JObj [("time", JNum (Gateway.time c));
        ("timestamp", JStr (Gateway.timestamp c));
        ("text", JStr (Gateway.text c))].

Definition js_of_parsed (r : Gateway.parsed) : jsval :=
  JObj [("answer", JStr (Gateway.answer r));
        ("timestamps", JArr (List.map js_of_citation (Gateway.timestamps r)))].

(** A gateway whose model always answers [fullAiAnswer]. *)
Definition gateway_answering (fullAiAnswer : string) (prompt : string)
    : outcome jsval :=
  match Gateway.callGeminiApi (Gateway.envelope fullAiAnswer) with
  | Ret r => Ret (js_of_parsed r)
  | Throw e => Throw e
  end.

(** A request as the content script would send it. *)
Definition request : message :=
  {| type := "processManualTranscript";
     question := "What is shown?";
     videoData := Some {| videoTitle := "Demo";
                          videoDescription := "A demonstration";
                          videoTranscript := "0:00 hello" |} |}.

(** The keys of an object. *)
Definition keys (v : jsval) : list string :=
  match v with
  | JObj props => List.map fst props
  | _ => []
  end.

(** The payloads sent back by a run of the listener. *)
Definition responses (acts : list action) : list jsval :=
  flat_map (fun a => match a with SendResponse p => [p] | _ => [] end) acts.

End Proxy.

(** ** Players the polling loop survives (the injected script,
    QTube_content.js) *)

Module Polling.
Import Js Bridge.




End Polling.

(** ** The cleaned answer of [callGeminiApi] (QTube_content.js) *)

Module Cleaning.
Import JsString Gateway.

(** The text does not begin with a line feed. *)
Definition no_lf_start (s : string) : bool :=
  match s with
  | String c _ => negb (is_lf c)
  | EmptyString => true
  end.

(** Three line feeds in a row, which the cleaning replaces by two. *)
Definition LF3 : string := LF ++ LF ++ LF.

End Cleaning.

(** ** The map of pending handshakes ([contentScriptReadyPromises],
    QTube_popup.js) *)

Module HandshakeMap.
Import Handshake.

(** Every entry of the map names a promise of that tab whose timer has
    not fired. *)
Definition stored_live (st : popup) : Prop :=
  forall t p, contentScriptReadyPromises st !! t = Some p ->
    exists s, promises st !! p = Some s /\ s_tab s = t /\ s_phase s <> Expired.

End HandshakeMap.

(** ** Browsers met by [askQuestion] (QTube_popup.js) *)

Module Submission.
Import JsString Js Popup.

(** A browser whose active tab is a watch page, where the handshake
    succeeds and the second attempt of delivery is answered. *)
Definition watching : world :=
  {| active_tabs := [(7, "https://www.youtube.com/watch?v=dQw4w9WgXcQ")];
     handshake := fun _ => Ret tt;
     delivery := fun i => if i <? 1 then Delivery.Rejected Delivery.no_receiver
                          else Delivery.Delivered JUndefined;
     document_hidden := false |}.

(** A browser whose active tab is not a watch page. *)
Definition elsewhere : world :=
  {| active_tabs := [(7, "https://www.youtube.com/feed/subscriptions")];
     handshake := fun _ => Ret tt;
     delivery := fun _ => Delivery.Delivered JUndefined;
     document_hidden := false |}.

(** A browser whose active tab is a watch page into which the content
    script cannot be injected. *)
Definition closed_page : world :=
  {| active_tabs := [(7, "https://www.youtube.com/watch?v=dQw4w9WgXcQ")];
     handshake := fun _ =>
       Throw "Failed to inject QTube_content.js: Cannot access contents of the page";
     delivery := fun _ => Delivery.Delivered JUndefined;
     document_hidden := false |}.

(** The text shown when the [try] block has thrown. *)
Definition userErrorMessage (message : string) : string :=
  "Error: "
  ++ (if String.eqb message "" then "Failed to open AI chat overlay." else message)
  ++ " Please ensure the YouTube page is fully loaded and try again.".

End Submission.

(** ** Escaping text for the overlay ([escapeHtml], QTube_content.js) *)

Module Markup.
Import JsString.

(** How [innerHTML] writes one character of a text node: the ampersand,
    the two angle brackets and the no-break space become character
    references, every other character is written as it is. *)
Definition escape_char (c : ascii) : string :=
  if Ascii.eqb c "&" then "&amp;"
  else if Ascii.eqb c "<" then "&lt;"
  else if Ascii.eqb c ">" then "&gt;"
  else if (code c =? 160)%nat then "&nbsp;"
  else String c EmptyString.

(** [escapeHtml(text)]: the text is made the only child of a new [div]
    ([div.textContent = text]) and the markup of the [div] is read back
    ([div.innerHTML]). *)
Fixpoint escapeHtml (text : string) : string :=
  match text with
  | EmptyString => EmptyString
  | String c r => escape_char c ++ escapeHtml r
  end.

(** The four character references that [escapeHtml] writes. *)
Definition is_reference (s : string) : bool :=
  starts_with "&amp;" s || starts_with "&lt;" s
  || starts_with "&gt;" s || starts_with "&nbsp;" s.

End Markup.

(** ** The video identifier of a URL ([getVideoId], QTube_content.js) *)

Module VideoId.
Import JsString.

(** [[a-zA-Z0-9_-]] *)
Definition is_id_char (c : ascii) : bool :=
  ((97 <=? code c)%nat && (code c <=? 122)%nat)
  || ((65 <=? code c)%nat && (code c <=? 90)%nat)
  || is_digit c
  || (code c =? 95)%nat || (code c =? 45)%nat.

(** [([a-zA-Z0-9_-]{n})] at the start of [s]. *)
Fixpoint id_chars (n : nat) (s : string) : option string :=
  match n with
  | O => Some EmptyString
  | S k =>
      match s with
      | String c r =>
          if is_id_char c then
            match id_chars k r with
            | Some id => Some (String c id)
            | None => None
            end
          else None
      | EmptyString => None
      end
  end.

(** [youtu.be\/]: the dot is not escaped in the source and stands for
    any character but a line terminator. *)
Definition short_host (s : string) : option string :=
  if starts_with "youtu" s then
    match drop 5 s with
    | String c r =>
        if negb (is_line_terminator c) && starts_with "be/" r
        then Some (drop 3 r)
        else None
    | EmptyString => None
    end
  else None.

(** [(?:\?v=|\/embed\/|\/v\/|youtu.be\/)]: what follows each alternative
    that matches at the start of [s], in the order in which the
    alternatives are tried. *)
Definition after_marker (s : string) : list string :=
  (if starts_with "?v=" s then [drop 3 s] else [])
  ++ (if starts_with "/embed/" s then [drop 7 s] else [])
  ++ (if starts_with "/v/" s then [drop 3 s] else [])
  ++ match short_host s with
     | Some r => [r]
     | None => []
     end.

(** The first alternative after which eleven characters of an
    identifier follow. *)
Fixpoint first_id (rests : list string) : option string :=
  match rests with
  | [] => None
  | r :: rests' =>
      match id_chars 11 r with
      | Some id => Some id
      | None => first_id rests'
      end
  end.

(** The regular expression tried at the start of [s]: group 1. *)
Definition match_at (s : string) : option string := first_id (after_marker s).

(** [url.match(...)] without the [g] flag: the leftmost match. *)
Fixpoint first_match (s : string) : option string :=
  match match_at s with
  | Some id => Some id
  | None =>
      match s with
      | EmptyString => None
      | String _ r => first_match r
      end
  end.

(** [getVideoId()], with [window.location.href] as its argument; [None]
    is [null]. *)
Definition getVideoId (href : string) : option string := first_match href.

(** The texts the first group of the expression stands for. *)
Definition marker (m : string) : Prop :=
  m = "?v=" \/ m = "/embed/" \/ m = "/v/"
  \/ exists c, is_line_terminator c = false
               /\ m = "youtu" ++ String c "be/".

(** Eleven characters of an identifier. *)
Definition well_formed (id : string) : Prop :=
  String.length id = 11%nat /\ CitationGrammar.all_chars is_id_char id = true.

End VideoId.

(** ** The overlay of the content script (QTube_content.js) *)

Module Content.
Import JsString Js Markup.

(** A link of the list of timestamps, as the template of [updateOverlay]
    writes it: the attribute [data-time], the text of the link (the
    label is inserted as it is) and what follows the link. *)
Record link : Type := {
  data_time : string;
  label : string;
  note : string
}.

(** What the [div] of class [qtube-response] holds. *)
Inductive area : Type :=
| Blank                                          (* as created *)
| Loading (message : string)                     (* spinner and message *)
| Answer (answer : string) (links : list link)   (* answer and timestamps *)
| Failure (error : string).                      (* error and Close button *)

(** An overlay element: the markup of the question, the text area, the
    Analyze button, whether the section of the two is hidden, and the
    response. *)
Record overlay : Type := {
  question_html : string;
  transcript : string;
  analyze_disabled : bool;
  analyze_text : string;
  input_hidden : bool;
  shown : area
}.

(** The argument of [updateOverlay]; a field that is absent is given as
    the empty text, the empty list or [false], which the function does
    not tell apart from absent. *)
Record response : Type := {
  u_type : string;
  u_message : string;
  u_success : bool;
  u_answer : string;
  u_timestamps : list Gateway.citation;
  u_error : string
}.

(** A message of [chrome.runtime.onMessage]. *)
Record incoming : Type := {
  m_type : string;
  m_question : string;
  m_response : response
}.

(** The content script and the page around it: the overlay elements
    created so far (an element is named by its position), the two
    variables of the script, the [og:title] meta tag (absent, without
    [content], or with it), how often the player control script was
    started, the main world of the page, the clicks on Analyze that
    await their answer, and the prompts sent and the alerts shown. *)
Record content : Type := {
  elements : list overlay;
  overlayElement : option nat;
  currentQuestion : option string;
  og_title : option (option string);
  script_runs : nat;
  main : Bridge.page;
  waiting : list nat;
  fetches : list string;
  alerts : list string
}.

Definition set_elements (es : list overlay) (st : content) : content :=
  {| elements := es; overlayElement := overlayElement st;
     currentQuestion := currentQuestion st; og_title := og_title st;
     script_runs := script_runs st; main := main st; waiting := waiting st;
     fetches := fetches st; alerts := alerts st |}.

Definition set_variables (e : option nat) (q : option string) (st : content)
    : content :=
  {| elements := elements st; overlayElement := e;
     currentQuestion := q; og_title := og_title st;
     script_runs := script_runs st; main := main st; waiting := waiting st;
     fetches := fetches st; alerts := alerts st |}.

Definition set_main (n : nat) (pg : Bridge.page) (st : content) : content :=
  {| elements := elements st; overlayElement := overlayElement st;
     currentQuestion := currentQuestion st; og_title := og_title st;
     script_runs := n; main := pg; waiting := waiting st;
     fetches := fetches st; alerts := alerts st |}.

Definition set_waiting (ws : list nat) (st : content) : content :=
  {| elements := elements st; overlayElement := overlayElement st;
     currentQuestion := currentQuestion st; og_title := og_title st;
     script_runs := script_runs st; main := main st; waiting := ws;
     fetches := fetches st; alerts := alerts st |}.

Definition fetch (prompt : string) (st : content) : content :=
  {| elements := elements st; overlayElement := overlayElement st;
     currentQuestion := currentQuestion st; og_title := og_title st;
     script_runs := script_runs st; main := main st; waiting := waiting st;
     fetches := fetches st ++ [prompt]; alerts := alerts st |}.

Definition alert (text : string) (st : content) : content :=
  {| elements := elements st; overlayElement := overlayElement st;
     currentQuestion := currentQuestion st; og_title := og_title st;
     script_runs := script_runs st; main := main st; waiting := waiting st;
     fetches := fetches st; alerts := alerts st ++ [text] |}.

(** The page before the content script has done anything. *)
Definition start (title : option (option string)) (player : jsval) : content :=
  {| elements := []; overlayElement := None; currentQuestion := None;
     og_title := title; script_runs := 0; main := Bridge.fresh player;
     waiting := []; fetches := []; alerts := [] |}.

(** The overlay that is in the document. *)
Definition attached (st : content) : option overlay :=
  match overlayElement st with
  | Some e => elements st !! e
  | None => None
  end.

(** [getVideoTitle()] *)
Definition getVideoTitle (st : content) : outcome string :=
  match og_title st with
  | None => Ret "Unknown Video"
  | Some None => Throw "Cannot read properties of null (reading 'trim')"
  | Some (Some title) => Ret (trim title)
  end.

(** [injectYouTubePlayerControlScript()]: the script element is added,
    and the script runs, unless the document holds the element. *)
Definition injectYouTubePlayerControlScript (st : content) : content :=
  if (0 <? script_runs st)%nat then st
  else set_main (S (script_runs st)) (Bridge.run_task Bridge.script (main st)) st.

(** [hideOverlay()] *)
Definition hideOverlay (st : content) : content :=
  match overlayElement st with
  | Some _ => set_variables None None st
  | None => st
  end.

(** The element that the template of [showOverlay] creates. *)
Definition created (question : string) : overlay :=
  {| question_html := escapeHtml question; transcript := "";
     analyze_disabled := false; analyze_text := "Analyze Transcript with AI";
     input_hidden := false; shown := Blank |}.

(** [showOverlay(question)] *)
Definition showOverlay (question : string) (st : content) : content :=
  let st := match overlayElement st with
            | Some _ => hideOverlay st
            | None => st
            end in
  let e := List.length (elements st) in
  let st := set_variables (Some e) (Some question)
              (set_elements (elements st ++ [created question]) st) in
  injectYouTubePlayerControlScript st.

(** [a || b] on texts. *)
Definition or_else (a b : string) : string :=
  if String.eqb a "" then b else a.

(** An item of the list of timestamps. *)
Definition link_of (ts : Gateway.citation) : link :=
  {| data_time := of_number (Gateway.time ts);
     label := Gateway.timestamp ts;
     note := if String.eqb (Gateway.text ts) "" then ""
             else "- " ++ escapeHtml (Gateway.text ts) |}.

(** What [updateOverlay(response)] writes into the response. *)
Definition rendered (r : response) : area :=
  if String.eqb (u_type r) "loading" then
    Loading (escapeHtml (or_else (u_message r) "Analyzing transcript with AI..."))
  else if u_success r then
    Answer (escapeHtml (u_answer r)) (List.map link_of (u_timestamps r))
  else
    Failure (escapeHtml (or_else (u_error r) "Failed to get response from AI")).

Definition show (a : area) (o : overlay) : overlay :=
  {| question_html := question_html o; transcript := transcript o;
     analyze_disabled := analyze_disabled o; analyze_text := analyze_text o;
     input_hidden := true; shown := a |}.

(** [updateOverlay(response)] *)
Definition updateOverlay (r : response) (st : content) : content :=
  match overlayElement st with
  | Some e => set_elements (alter (show (rendered r)) e (elements st)) st
  | None => st
  end.

Definition set_analyzeButton (disabled : bool) (text : string) (o : overlay) : overlay :=
  {| question_html := question_html o; transcript := transcript o;
     analyze_disabled := disabled; analyze_text := text;
     input_hidden := input_hidden o; shown := shown o |}.

Definition set_transcript (text : string) (o : overlay) : overlay :=
  {| question_html := question_html o; transcript := text;
     analyze_disabled := analyze_disabled o; analyze_text := analyze_text o;
     input_hidden := input_hidden o; shown := shown o |}.

Definition loading : response :=
  {| u_type := "loading"; u_message := "Analyzing transcript with AI...";
     u_success := false; u_answer := ""; u_timestamps := []; u_error := "" |}.

Definition succeeded (data : Gateway.parsed) : response :=
  {| u_type := ""; u_message := ""; u_success := true;
     u_answer := Gateway.answer data; u_timestamps := Gateway.timestamps data;
     u_error := "" |}.

Definition failed (error : string) : response :=
  {| u_type := ""; u_message := ""; u_success := false; u_answer := "";
     u_timestamps := []; u_error := error |}.

(** The prompt of [processManualTranscript]. *)
Definition manual_prompt (videoTitle manualTranscript : string)
    (currentQuestion : option string) : string :=
  "You are an AI assistant designed to answer questions about YouTube videos."
  ++ LF ++ "Video Title: " ++ DQ ++ videoTitle ++ DQ
  ++ LF ++ "Video Description: " ++ DQ
  ++ "Manually provided transcript, no auto-description." ++ DQ
  ++ LF ++ "Video Transcript:" ++ LF ++ LF ++ manualTranscript ++ LF ++ LF
  ++ LF ++ "Based *only* on the provided video transcript and description, answer the following question."
  ++ LF ++ "Summarize all findings concisely first. Then, for any specific points in your summary or answer that are directly linked to a particular moment in the video, please list the relevant timestamps."
  ++ LF ++ "Format these timestamps as: [MM:SS] - brief description of the point."
  ++ LF ++ "Ensure each timestamp is on a new line."
  ++ LF
  ++ LF ++ "If the information to answer the question is not present in the transcript or description, state that you cannot answer based on the provided text."
  ++ LF
  ++ LF ++ "User Question: " ++ DQ
  ++ match currentQuestion with Some q => q | None => "null" end ++ DQ
  ++ LF ++ "AI Answer:".

(** The [finally] clause: the button the click was on is enabled again
    if it is disabled. *)
Definition reenable (o : overlay) : overlay :=
  if analyze_disabled o then set_analyzeButton false "Analyze Transcript with AI" o
  else o.

Definition release (e : nat) (st : content) : content :=
  set_elements (alter reenable e (elements st)) st.

(** [processManualTranscript()] up to its [await]: the click on the
    Analyze button of the overlay in the document. *)
Definition processManualTranscript (st : content) : content :=
  match overlayElement st, attached st with
  | Some e, Some o =>
      let manualTranscript := trim (transcript o) in
      if String.eqb manualTranscript "" then
        alert "Please paste the transcript into the text area first." st
      else
        let st := set_elements
                    (alter (set_analyzeButton true "Analyzing...") e (elements st)) st in
        let st := updateOverlay loading st in
        match getVideoTitle st with
        | Ret videoTitle =>
            set_waiting (waiting st ++ [e])
              (fetch (manual_prompt videoTitle manualTranscript (currentQuestion st)) st)
        | Throw e' =>
            release e (updateOverlay (failed (or_else e' "Failed to analyze transcript.")) st)
        end
  | _, _ => alert "Please paste the transcript into the text area first." st
  end.

Fixpoint remove_first (e : nat) (ws : list nat) : list nat :=
  match ws with
  | [] => []
  | w :: ws' => if (w =? e)%nat then ws' else w :: remove_first e ws'
  end.

(** [processManualTranscript()] from its [await] on: [callGeminiApi]
    has returned or thrown for the click on the button of element [e]. *)
Definition resume (e : nat) (result : outcome Gateway.parsed) (st : content)
    : content :=
  let st := set_waiting (remove_first e (waiting st)) st in
  let st := match result with
            | Ret data => updateOverlay (succeeded data) st
            | Throw error =>
                updateOverlay (failed (or_else error "Failed to analyze transcript.")) st
            end in
  release e st.

(** [parseFloat(s)] for the decimal writing of an integer, which is what
    [data-time] holds. *)
Definition parseFloat (s : string) : Z :=
  match s with
  | String c r => if Ascii.eqb c "-" then - parseInt r else parseInt s
  | EmptyString => parseInt s
  end.

(** The listener of a timestamp link: the event [qtube_seek_video] is
    dispatched on [document.body], where the main world may listen. *)
Definition on_link (l : link) (st : content) : content :=
  set_main (script_runs st)
    (Bridge.step (Bridge.SeekEvent (parseFloat (data_time l))) (main st)) st.

(** The listener of [chrome.runtime.onMessage]: the new state, the
    payloads handed to [sendResponse] and the value returned. *)
Definition onMessage (m : incoming) (st : content) : content * list jsval * jsval :=
  if String.eqb (m_type m) "showOverlay" then
    (showOverlay (m_question m) st, [], JUndefined)
  else if String.eqb (m_type m) "hideOverlay" then
    (hideOverlay st, [JObj [("success", JBool true)]], JUndefined)
  else if String.eqb (m_type m) "updateOverlay" then
    (updateOverlay (m_response m) st, [JObj [("success", JBool true)]], JUndefined)
  else if String.eqb (m_type m) "ping" then
    (st, [JObj [("status", JStr "pong")]], JBool true)
  else (st, [], JUndefined).

(** What can happen on the page. *)
Inductive event : Type :=
| Received (m : incoming)          (* a message from the popup *)
| CloseClicked                    (* the button of the header *)
| BackgroundClicked               (* the overlay itself, outside its content *)
| ErrorCloseClicked               (* the Close button of an error *)
| Typed (text : string)           (* the user edits the text area *)
| AnalyzeClicked                  (* the Analyze button *)
| Answered (e : nat) (result : outcome Gateway.parsed)
                                  (* callGeminiApi settles for a click *)
| LinkClicked (i : nat)           (* the i-th timestamp link *)
| Page (e : Bridge.event).        (* a timer or a change in the main world *)

(** One event.  The user reaches only the overlay that is in the
    document, and there only what is displayed and enabled: the text
    area and the Analyze button while their section is shown and the
    button is not disabled, the Close button of an error while the error
    is shown, a timestamp link while the answer is shown.  An answer
    arrives only for a click that awaits one.  A click on a link does
    not reach the overlay itself ([stopPropagation]). *)
Definition step (ev : event) (st : content) : content :=
  match ev with
  | Received m => fst (fst (onMessage m st))
  | CloseClicked | BackgroundClicked =>
      match attached st with
      | Some _ => hideOverlay st
      | None => st
      end
  | ErrorCloseClicked =>
      match attached st with
      | Some o => match shown o with
                  | Failure _ => hideOverlay st
                  | _ => st
                  end
      | None => st
      end
  | Typed text =>
      match overlayElement st, attached st with
      | Some e, Some o =>
          if input_hidden o then st
          else set_elements (alter (set_transcript text) e (elements st)) st
      | _, _ => st
      end
  | AnalyzeClicked =>
      match attached st with
      | Some o =>
          if input_hidden o || analyze_disabled o then st
          else processManualTranscript st
      | None => st
      end
  | Answered e result =>
      if existsb (Nat.eqb e) (waiting st) then resume e result st else st
  | LinkClicked i =>
      match attached st with
      | Some o =>
          match shown o with
          | Answer _ links =>
              match links !! i with
              | Some l => on_link l st
              | None => st
              end
          | _ => st
          end
      | None => st
      end
  | Page e => set_main (script_runs st) (Bridge.step e (main st)) st
  end.

Definition run (evs : list event) (st : content) : content :=
  fold_left (fun s e => step e s) evs st.

(** The message the popup sends to open the overlay. *)
Definition show_request (question : string) : incoming :=
  {| m_type := "showOverlay"; m_question := question; m_response := loading |}.

(** What the response shows once [callGeminiApi] has settled. *)
Definition outcome_area (result : outcome Gateway.parsed) : area :=
  match result with
  | Ret data =>
      Answer (escapeHtml (Gateway.answer data))
             (List.map link_of (Gateway.timestamps data))
  | Throw error =>
      Failure (escapeHtml (or_else error "Failed to analyze transcript."))
  end.

(** The overlay [o] during and after an analysis. *)
Definition analyzing (o : overlay) : overlay :=
  {| question_html := question_html o; transcript := transcript o;
     analyze_disabled := true; analyze_text := "Analyzing...";
     input_hidden := true;
     shown := Loading (escapeHtml "Analyzing transcript with AI...") |}.

Definition analyzed (a : area) (o : overlay) : overlay :=
  {| question_html := question_html o; transcript := transcript o;
     analyze_disabled := false; analyze_text := "Analyze Transcript with AI";
     input_hidden := true; shown := a |}.

(** A page with an overlay in which a transcript has been typed. *)
Definition ready_to_analyze : content :=
  run [Received (show_request "What is shown?");
       Typed "0:00 hello and welcome"]
    (start (Some (Some " Demo ")) (Bridge.player_in_state 1)).



(** The same page when the [og:title] tag has no [content]. *)
Definition untitled : content :=
  run [Received (show_request "What is shown?");
       Typed "0:00 hello and welcome"]
    (start (Some None) (Bridge.player_in_state 1)).

(** A message that asks for the overlay. *)
Definition shows (ev : event) : bool :=
  match ev with
  | Received m => String.eqb (m_type m) "showOverlay"
  | _ => false
  end.

(** The overlays whose input section has been hidden. *)
Definition hidden_count (es : list overlay) : nat :=
  List.length (List.filter input_hidden es).

(** What the content script keeps in order: the two variables are set
    and cleared together, the overlay in the document has been created,
    no button awaits two answers, a button that awaits its answer is
    disabled and hidden, and every prompt sent has hidden an input
    section. *)
Definition tidy (st : content) : Prop :=
  (overlayElement st = None <-> currentQuestion st = None)
  /\ (forall e, overlayElement st = Some e -> (e < List.length (elements st))%nat)
  /\ List.NoDup (waiting st)
  /\ (forall e, In e (waiting st) ->
        exists o, elements st !! e = Some o
                  /\ analyze_disabled o = true /\ input_hidden o = true)
  /\ (List.length (fetches st) <= hidden_count (elements st))%nat.

End Content.

(** ** The placeholder of the question field (QTube_popup.js) *)

Module Placeholder.
Import JsString Js Popup.

(** The question field: its value and the colour of its text. *)
Record field : Type := {
  value : string;
  color : string
}.

(** The statements run when the popup is loaded, and the listener of
    [blur], which has the same body. *)
Definition on_blur (f : field) : field :=
  if String.eqb (trim (value f)) "" then
    {| value := defaultText; color := "#999" |}
  else f.

Definition on_load (f : field) : field := on_blur f.

(** The listener of [focus]. *)
Definition on_focus (f : field) : field :=
  if String.eqb (value f) defaultText then {| value := ""; color := "#333" |}
  else f.

(** The popup with the value of the field. *)
Definition with_value (v : string) (d : dom) : dom :=
  {| questionInput_value := v;
     askButton_disabled := askButton_disabled d;
     askButton_textContent := askButton_textContent d;
     popupMessage_textContent := popupMessage_textContent d;
     popupMessage_className := popupMessage_className d;
     popupMessage_display := popupMessage_display d;
     hide_timers := hide_timers d;
     actions := actions d |}.

(** The listener of [keypress]. *)
Definition on_keypress (key : string) (shiftKey : bool) (w : world) (d : dom) : dom :=
  if String.eqb key "Enter" && negb shiftKey then askQuestion w d else d.

End Placeholder.

(* ==================================================================== *)
(** * Properties *)
(* ==================================================================== *)

(** ** Strings *)

Module JsStringFacts.
Import JsString.

Lemma length_app (a b : string) :
  String.length (a ++ b) = (String.length a + String.length b)%nat.
Proof. induction a as [|c a IH]; simpl; [reflexivity | now rewrite IH]. Qed.

Lemma app_nil_r (a : string) : a ++ "" = a.
Proof. induction a as [|c a IH]; simpl; [reflexivity | now rewrite IH]. Qed.

Lemma app_assoc (a b c : string) : (a ++ b) ++ c = a ++ (b ++ c).
Proof. induction a as [|x a IH]; simpl; [reflexivity | now rewrite IH]. Qed.

Lemma drop_nil (n : nat) : drop n "" = "".
Proof. destruct n; reflexivity. Qed.

Lemma drop_app (a b : string) : drop (String.length a) (a ++ b) = b.
Proof. induction a as [|c a IH]; simpl; [reflexivity | exact IH]. Qed.

Lemma drop_drop (n k : nat) (s : string) : drop n (drop k s) = drop (k + n) s.
Proof.
  revert s; induction k as [|k IH]; intros s; simpl; [reflexivity|].
  destruct s as [|c s]; [apply drop_nil | apply IH].
Qed.

Lemma length_drop (n : nat) (s : string) :
  String.length (drop n s) = (String.length s - n)%nat.
Proof.
  revert s; induction n as [|n IH]; intros s; simpl.
  - now rewrite Nat.sub_0_r.
  - destruct s as [|c s]; simpl; [reflexivity | apply IH].
Qed.

Lemma drop_S (n : nat) (s : string) (c : ascii) (r : string) :
  drop n s = String c r -> drop (S n) s = r.
Proof.
  revert s; induction n as [|n IH]; intros s H; simpl in *.
  - now subst s.
  - destruct s as [|x s]; [discriminate | now apply IH].
Qed.

Lemma starts_with_app (p s : string) : starts_with p (p ++ s) = true.
Proof.
  induction p as [|c p IH]; simpl; [reflexivity|].
  now rewrite Ascii.eqb_refl, IH.
Qed.

Lemma starts_with_inv (p s : string) :
  starts_with p s = true -> exists r, s = p ++ r.
Proof.
  revert s; induction p as [|c p IH]; intros s H; simpl in *.
  - now exists s.
  - destruct s as [|x s]; [discriminate|].
    apply andb_prop in H as [Hc Hp].
    apply Ascii.eqb_eq in Hc; subst x.
    destruct (IH _ Hp) as [r ->]. now exists r.
Qed.

(** The ten digits. *)
Lemma is_digit_cases (c : ascii) :
  is_digit c = true ->
  In c ["0"; "1"; "2"; "3"; "4"; "5"; "6"; "7"; "8"; "9"]%char.
Proof.
  destruct c as [[] [] [] [] [] [] [] []]; intros H;
    try discriminate H; simpl; tauto.
Qed.

Lemma is_lf_eq (c : ascii) : is_lf c = true -> c = "010"%char.
Proof.
  destruct c as [[] [] [] [] [] [] [] []]; intros H;
    try discriminate H; reflexivity.
Qed.

Lemma is_lf_line_terminator (c : ascii) :
  is_lf c = true -> is_line_terminator c = true.
Proof. unfold is_lf, is_line_terminator. now intros ->. Qed.

End JsStringFacts.

(** ** The regular expression against the grammar *)

Module GatewayFacts.
Import JsString JsStringFacts Gateway CitationGrammar.

Ltac break_match :=
  match goal with
  | H : context [match ?x with _ => _ end] |- _ =>
      let E := fresh "E" in destruct x eqn:E
  | H : context [if ?b then _ else _] |- _ =>
      let E := fresh "E" in destruct b eqn:E
  end.

Ltac invert H := inversion H; subst; clear H.

Ltac norm_app := repeat (progress (rewrite ?app_assoc; simpl)).

Lemma lazy_desc_sound (s d t : string) :
  lazy_desc s = Some (d, t) ->
  exists rest, s = d ++ t ++ rest
    /\ all_chars (fun c => negb (is_line_terminator c)) d = true
    /\ line_end t rest.
Proof.
  revert d t; induction s as [|c s IH]; intros d t H; simpl in H.
  - invert H. exists "". repeat split. right. now split.
  - destruct (is_lf c) eqn:Elf.
    + invert H. apply is_lf_eq in Elf; subst c.
      exists s. repeat split. now left.
    + destruct (is_line_terminator c) eqn:Elt; [discriminate|].
      destruct (lazy_desc s) as [[d' t']|] eqn:E; [|discriminate].
      invert H. destruct (IH _ _ eq_refl) as (rest & -> & Hd & Ht).
      exists rest. simpl. rewrite Elt, Hd. now repeat split.
Qed.

Lemma lazy_desc_complete (d t rest : string) :
  all_chars (fun c => negb (is_line_terminator c)) d = true ->
  line_end t rest ->
  lazy_desc (d ++ t ++ rest) = Some (d, t).
Proof.
  intros Hd Ht. induction d as [|c d IH]; simpl in *.
  - destruct Ht as [-> | [-> ->]]; reflexivity.
  - apply andb_prop in Hd as [Hc Hd]. apply negb_true_iff in Hc.
    destruct (is_lf c) eqn:Elf.
    + apply is_lf_line_terminator in Elf. congruence.
    + now rewrite Hc, (IH Hd).
Qed.

Lemma terminator_sound (s t : string) :
  terminator s = Some t -> exists rest, s = t ++ rest /\ line_end t rest.
Proof.
  destruct s as [|c s]; simpl; intros H.
  - invert H. exists "". split; [reflexivity | right; now split].
  - destruct (is_lf c) eqn:Elf; [|discriminate]. invert H.
    apply is_lf_eq in Elf; subst c. exists s. split; [reflexivity | now left].
Qed.

Lemma tail_sound (s : string) (d : option string) (t : string) :
  tail s = Some (d, t) ->
  exists rest, s = opt_desc d ++ t ++ rest /\ on_one_line d /\ line_end t rest.
Proof.
  unfold tail. intros H.
  assert (Hskip : match terminator s with
                  | Some t0 => Some (None, t0)
                  | None => None
                  end = Some (d, t) ->
                  exists rest, s = opt_desc d ++ t ++ rest
                               /\ on_one_line d /\ line_end t rest).
  { intros H'. destruct (terminator s) as [t0|] eqn:E; [|discriminate].
    invert H'. destruct (terminator_sound _ _ E) as (rest & -> & Ht).
    exists rest. now repeat split. }
  destruct (starts_with " - " s) eqn:Esw; [|now apply Hskip].
  destruct (lazy_desc (drop 3 s)) as [[d' t']|] eqn:E; [|now apply Hskip].
  invert H. apply starts_with_inv in Esw as [r ->]. simpl in E.
  destruct (lazy_desc_sound _ _ _ E) as (rest & -> & Hd & Ht).
  exists rest. now repeat split.
Qed.

Lemma tail_complete (d : option string) (t rest : string) :
  on_one_line d -> line_end t rest ->
  tail (opt_desc d ++ t ++ rest) = Some (d, t).
Proof.
  intros Hd Ht. unfold tail. destruct d as [x|]; simpl in *.
  - now rewrite (lazy_desc_complete _ _ _ Hd Ht).
  - destruct Ht as [-> | [-> ->]]; reflexivity.
Qed.

Lemma minutes_part_sound (s mm r : string) :
  minutes_part s = Some (mm, r) ->
  s = mm ++ ":" ++ r /\ all_chars is_digit mm = true /\ one_or_two mm.
Proof.
  unfold minutes_part, one_or_two. intros H.
  repeat break_match; try discriminate; invert H; simpl;
    repeat match goal with
           | E : is_digit _ = true |- _ => rewrite E; clear E
           end; auto.
Qed.

Lemma minutes_part_complete (mm r : string) :
  all_chars is_digit mm = true -> one_or_two mm ->
  minutes_part (mm ++ String ":" r) = Some (mm, r).
Proof.
  intros Hd [Hl | Hl].
  - destruct mm as [|a [|b mm]]; try discriminate Hl. simpl in *.
    rewrite andb_true_r in Hd. rewrite Hd.
    destruct r as [|x r]; [reflexivity|].
    destruct x as [[] [] [] [] [] [] [] []]; reflexivity.
  - destruct mm as [|a [|b [|c mm]]]; try discriminate Hl. simpl in *.
    apply andb_prop in Hd as [Ha Hb]. rewrite andb_true_r in Hb.
    now rewrite Ha, Hb.
Qed.

Lemma seconds_part_sound (s ss r : string) :
  seconds_part s = Some (ss, r) ->
  s = ss ++ "]" ++ r /\ all_chars is_digit ss = true /\ String.length ss = 2%nat.
Proof.
  unfold seconds_part. intros H.
  repeat break_match; try discriminate; invert H; simpl.
  match goal with
  | E : is_digit _ && is_digit _ = true |- _ =>
      apply andb_prop in E as [-> ->]
  end. auto.
Qed.

Lemma seconds_part_complete (ss r : string) :
  all_chars is_digit ss = true -> String.length ss = 2%nat ->
  seconds_part (ss ++ String "]" r) = Some (ss, r).
Proof.
  intros Hd Hl.
  destruct ss as [|a [|b [|c ss]]]; try discriminate Hl. simpl in *.
  apply andb_prop in Hd as [Ha Hb]. rewrite andb_true_r in Hb.
  now rewrite Ha, Hb.
Qed.

Lemma match_here_bracket (s : string) (m : rmatch) :
  match_here s = Some m -> exists r0, s = String "[" r0.
Proof.
  destruct s as [|c r0]; [discriminate|].
  destruct c as [[] [] [] [] [] [] [] []];
    try (intros H; simpl in H; discriminate H).
  intros _. now exists r0.
Qed.

Lemma match_here_sound (s : string) (m : rmatch) :
  match_here s = Some m ->
  exists rest,
    s = m_full m ++ rest
    /\ m_full m = "[" ++ m_minutes m ++ ":" ++ m_seconds m ++ "]"
                 ++ opt_desc (m_desc m) ++ m_term m
    /\ all_chars is_digit (m_minutes m) = true /\ one_or_two (m_minutes m)
    /\ all_chars is_digit (m_seconds m) = true
    /\ String.length (m_seconds m) = 2%nat
    /\ on_one_line (m_desc m) /\ line_end (m_term m) rest.
Proof.
  intros H. destruct (match_here_bracket _ _ H) as [r0 ->].
  simpl in H.
  destruct (minutes_part r0) as [[mm r1]|] eqn:Em; [|discriminate].
  destruct (seconds_part r1) as [[ss r2]|] eqn:Es; [|discriminate].
  destruct (tail r2) as [[d t]|] eqn:Et; [|discriminate].
  invert H. simpl.
  apply minutes_part_sound in Em as (-> & Hm1 & Hm2).
  apply seconds_part_sound in Es as (-> & Hs1 & Hs2).
  apply tail_sound in Et as (rest & -> & Hd & Ht).
  exists rest. repeat split; auto.
  now norm_app.
Qed.

Lemma match_here_complete (o : occurrence) (rest : string) :
  all_chars is_digit (o_minutes o) = true -> one_or_two (o_minutes o) ->
  all_chars is_digit (o_seconds o) = true ->
  String.length (o_seconds o) = 2%nat ->
  on_one_line (o_desc o) -> line_end (o_term o) rest ->
  match_here (o_text o ++ rest) = Some (match_of o).
Proof.
  intros Hm1 Hm2 Hs1 Hs2 Hd Ht. unfold o_text, match_of.
  norm_app.
  rewrite (minutes_part_complete _ _ Hm1 Hm2).
  simpl. rewrite (seconds_part_complete _ _ Hs1 Hs2).
  now rewrite (tail_complete _ _ _ Hd Ht).
Qed.

Lemma match_here_occurs (text : string) (i : nat) (m : rmatch) :
  (i <= String.length text)%nat ->
  match_here (drop i text) = Some m ->
  occurs_in text (of_match i m) /\ o_text (of_match i m) = m_full m.
Proof.
  intros Hi H.
  destruct (match_here_sound _ _ H) as (rest & E & Ef & Hm1 & Hm2 & Hs1 & Hs2 & Hd & Ht).
  assert (Et : o_text (of_match i m) = m_full m) by exact (eq_sym Ef).
  split; [|exact Et].
  exists rest. rewrite Et. repeat split; auto.
Qed.

Lemma occurs_match_here (text : string) (o : occurrence) :
  occurs_in text o ->
  match_here (drop (o_index o) text) = Some (match_of o).
Proof.
  intros (rest & _ & E & Hm1 & Hm2 & Hs1 & Hs2 & Hd & Ht).
  rewrite E. now apply match_here_complete.
Qed.

(** [parseInt], [String] and [padStart] on the digit groups. *)
Lemma digits_roundtrip (s : string) :
  all_chars is_digit s = true -> one_or_two s ->
  parseInt s = digits_value s
  /\ padStart (of_number (parseInt s)) 2 "0" = zero_padded s.
Proof.
  intros Hd [Hl | Hl].
  - destruct s as [|a [|b s]]; try discriminate Hl. simpl in Hd.
    rewrite andb_true_r in Hd. apply is_digit_cases in Hd.
    simpl in Hd. intuition (subst; split; reflexivity).
  - destruct s as [|a [|b [|c s]]]; try discriminate Hl. simpl in Hd.
    apply andb_prop in Hd as [Ha Hb]. rewrite andb_true_r in Hb.
    apply is_digit_cases in Ha, Hb. simpl in Ha, Hb.
    intuition (subst; split; vm_compute; reflexivity).
Qed.

Lemma zero_padded_two (s : string) :
  String.length s = 2%nat -> zero_padded s = s.
Proof. destruct s as [|a [|b [|c s]]]; try discriminate; reflexivity. Qed.

Lemma citation_of_spec (s : string) (i : nat) (m : rmatch) :
  match_here s = Some m -> citation_of m = citation_spec (of_match i m).
Proof.
  intros H.
  destruct (match_here_sound _ _ H) as (rest & _ & _ & Hm1 & Hm2 & Hs1 & Hs2 & _).
  destruct (digits_roundtrip _ Hm1 Hm2) as [Em Pm].
  destruct (digits_roundtrip _ Hs1 (or_intror Hs2)) as [Es Ps].
  unfold citation_of, citation_spec, of_match; simpl.
  rewrite Pm, Ps, Em, Es. f_equal.
  destruct (m_desc m) as [[|c d]|]; reflexivity.
Qed.

(** *** The search of [exec] *)

Lemma match_here_nil : match_here "" = None.
Proof. reflexivity. Qed.

Lemma search_some (s : string) (i j : nat) (m : rmatch) :
  search s i = Some (j, m) ->
  exists k, j = (i + k)%nat /\ (k <= String.length s)%nat
    /\ match_here (drop k s) = Some m
    /\ forall k', (k' < k)%nat -> match_here (drop k' s) = None.
Proof.
  revert i; induction s as [|c s IH]; intros i H.
  - simpl in H. discriminate.
  - cbn [search] in H.
    destruct (match_here (String c s)) as [m'|] eqn:E.
    + invert H. exists 0%nat. repeat split; auto; lia.
    + destruct (IH _ H) as (k & -> & Hk & Hm & Hnone).
      exists (S k). repeat split; [lia | simpl; lia | exact Hm |].
      intros [|k'] Hlt; [exact E | apply Hnone; lia].
Qed.

Lemma search_none (s : string) (i k : nat) :
  search s i = None -> match_here (drop k s) = None.
Proof.
  revert i k; induction s as [|c s IH]; intros i k H.
  - now rewrite drop_nil.
  - cbn [search] in H.
    destruct (match_here (String c s)) as [m'|] eqn:E; [discriminate|].
    destruct k as [|k]; [exact E | exact (IH _ _ H)].
Qed.

Lemma exec_some (text : string) (L j : nat) (m : rmatch) :
  exec text L = Some (j, m) ->
  (L <= j <= String.length text)%nat
  /\ match_here (drop j text) = Some m
  /\ forall j', (L <= j' < j)%nat -> match_here (drop j' text) = None.
Proof.
  unfold exec. destruct (Nat.ltb_spec (String.length text) L); [discriminate|].
  intros H'. destruct (search_some _ _ _ _ H') as (k & -> & Hk & Hm & Hnone).
  rewrite length_drop in Hk. rewrite drop_drop in Hm.
  repeat split; [lia | lia | exact Hm |].
  intros j' Hj'. replace j' with (L + (j' - L))%nat by lia.
  rewrite <- drop_drop. apply Hnone. lia.
Qed.

Lemma exec_none (text : string) (L j : nat) :
  (L <= String.length text)%nat -> exec text L = None ->
  (L <= j)%nat -> match_here (drop j text) = None.
Proof.
  unfold exec. intros HL H Hj.
  destruct (Nat.ltb_spec (String.length text) L); [lia|].
  replace j with (L + (j - L))%nat by lia.
  rewrite <- drop_drop. exact (search_none _ _ _ H).
Qed.

(** A match is never empty and lies inside the text. *)
Lemma match_inside (text : string) (j : nat) (m : rmatch) :
  (j <= String.length text)%nat ->
  match_here (drop j text) = Some m ->
  (0 < String.length (m_full m))%nat
  /\ (j + String.length (m_full m) <= String.length text)%nat.
Proof.
  intros Hj H.
  destruct (match_here_sound _ _ H) as (rest & E & Ef & _).
  assert (Hlen := f_equal String.length E).
  rewrite length_drop, length_app in Hlen.
  rewrite Ef. rewrite Ef in Hlen. simpl in *. lia.
Qed.

(** *** The loop of [callGeminiApi] reads the citation lines in order *)

Lemma parse_loop_reading (fuel : nat) (fullAiAnswer : string) :
  forall (L : nat) (ts : list citation) (clean : string),
    (L <= String.length fullAiAnswer)%nat ->
    (String.length fullAiAnswer - L < fuel)%nat ->
    exists occs clean',
      parse_loop fuel fullAiAnswer L ts clean
      = Some ((ts ++ map citation_spec occs)%list, clean')
      /\ reading fullAiAnswer L occs.
Proof.
  induction fuel as [|fuel IH]; intros L ts clean HL Hfuel; [lia|].
  cbn [parse_loop].
  destruct (exec fullAiAnswer L) as [[j m]|] eqn:E.
  - destruct (exec_some _ _ _ _ E) as ([HLj Hj] & Hm & Hnone).
    destruct (match_inside _ _ _ Hj Hm) as [Hpos Hend].
    destruct (match_here_occurs _ _ _ Hj Hm) as [Hocc Htext].
    cbv zeta.
    destruct (IH (j + String.length (m_full m))%nat
                 (ts ++ [citation_of m])%list
                 (trim (replace clean (m_full m) "")))
      as (occs & clean' & Hloop & Hread); [lia | lia |].
    exists (of_match j m :: occs), clean'. split.
    + rewrite Hloop. rewrite <- List.app_assoc. simpl.
      now rewrite (citation_of_spec _ j _ Hm).
    + apply reading_next; auto.
      * intros o' Ho' Hfrom.
        destruct (Nat.le_gt_cases j (o_index o')) as [|Hlt]; [assumption|].
        pose proof (occurs_match_here _ _ Ho') as Hsome.
        rewrite (Hnone (o_index o')) in Hsome by lia. discriminate.
      * unfold o_end. rewrite Htext. exact Hread.
  - exists [], clean. split.
    + now rewrite List.app_nil_r.
    + apply reading_done. intros o Ho.
      destruct (Nat.le_gt_cases L (o_index o)) as [Hle|]; [|assumption].
      pose proof (occurs_match_here _ _ Ho) as Hsome.
      rewrite (exec_none _ _ _ HL E Hle) in Hsome. discriminate.
Qed.

End GatewayFacts.

(** ** The citations of an answer *)

Module GatewayTheorems.
Import JsString JsStringFacts Gateway CitationGrammar GatewayFacts.

Lemma replace_self (s : string) : replace s s "" = "".
Proof.
  destruct s as [|c s]; [reflexivity|].
  cbn [replace]. rewrite <- (app_nil_r (String c s)) at 2.
  rewrite starts_with_app.
  rewrite <- (app_nil_r (String c s)) at 2. now rewrite drop_app.
Qed.

(** A text that is one bare citation, whatever its digits. *)
Lemma parse_single (mm ss : string) :
  all_chars is_digit mm = true -> one_or_two mm ->
  all_chars is_digit ss = true -> String.length ss = 2%nat ->
  parse ("[" ++ mm ++ ":" ++ ss ++ "]")
  = Some {| answer := "";
            timestamps :=
              [ {| time := digits_value mm * 60 + digits_value ss;
                   timestamp := zero_padded mm ++ ":" ++ ss;
                   text := "" |} ] |}.
Proof.
  intros Hm1 Hm2 Hs1 Hs2.
  set (o := {| o_index := 0; o_minutes := mm; o_seconds := ss;
               o_desc := None; o_term := "" |}).
  assert (Hmatch : match_here (o_text o ++ "") = Some (match_of o)).
  { apply match_here_complete; simpl; auto. right; now split. }
  assert (Htext : o_text o = "[" ++ mm ++ ":" ++ ss ++ "]").
  { reflexivity. }
  rewrite app_nil_r, Htext in Hmatch.
  set (t := "[" ++ mm ++ ":" ++ ss ++ "]") in *.
  assert (Hexec0 : exec t 0 = Some (0%nat, match_of o)).
  { unfold exec. simpl drop.
    destruct t as [|c t']; [discriminate Hmatch|].
    cbn [String.length Nat.ltb Nat.leb search]. now rewrite Hmatch. }
  assert (Hexec1 : exec t (String.length t) = None).
  { unfold exec. rewrite Nat.ltb_irrefl.
    rewrite <- (app_nil_r t) at 2. now rewrite drop_app. }
  assert (Hfull : m_full (match_of o) = t) by exact Htext.
  clearbody t.
  unfold parse. cbn [parse_loop]. rewrite Hexec0. cbv zeta.
  rewrite Hfull, replace_self. cbn [Nat.add].
  destruct (String.length t) as [|n] eqn:En.
  { destruct t; [discriminate Hmatch | discriminate En]. }
  cbn [parse_loop]. rewrite Hexec1. cbn [app].
  rewrite (citation_of_spec _ 0 _ Hmatch).
  unfold citation_spec, of_match, match_of; simpl.
  now rewrite (zero_padded_two _ Hs2).
Qed.

Lemma callGeminiApi_envelope (fullAiAnswer : string) :
  callGeminiApi (envelope fullAiAnswer)
  = match parse fullAiAnswer with
    | Some r => Ret r
    | None => Throw "the scan of the answer did not end"
    end.
Proof. reflexivity. Qed.

(** C9. For every raw answer text the loop of [callGeminiApi] stops and
    its citations are those of the citation lines of the text, taken in
    the order in which they appear: each is the first line of the form
    [[M:SS]] or [[MM:SS]] (optionally followed by [" - "] and a
    description, up to a line feed or the end of the text) at or after
    the end of the previous one.  The time of a citation is minutes
    times sixty plus seconds, its label the digits with the minutes
    padded to two places, its description the trimmed text after the
    dash or the empty string.  No range is imposed on the digits: a
    text made of one citation with any digits, seconds above 59
    included, yields that citation. *)
Theorem callGeminiApi_citations_in_order (fullAiAnswer : string) :
  (exists occs clean,
      callGeminiApi (envelope fullAiAnswer)
      = Ret {| answer := clean; timestamps := map citation_spec occs |}
      /\ reading fullAiAnswer 0 occs)
  /\ (forall mm ss,
        all_chars is_digit mm = true ->
        String.length mm = 1%nat \/ String.length mm = 2%nat ->
        all_chars is_digit ss = true -> String.length ss = 2%nat ->
        callGeminiApi (envelope ("[" ++ mm ++ ":" ++ ss ++ "]"))
        = Ret {| answer := "";
                 timestamps :=
                   [ {| time := digits_value mm * 60 + digits_value ss;
                        timestamp := zero_padded mm ++ ":" ++ ss;
                        text := "" |} ] |}).
Proof.
  split.
  - destruct (parse_loop_reading (S (String.length fullAiAnswer)) fullAiAnswer
                0 [] fullAiAnswer) as (occs & clean & Hloop & Hread); [lia | lia |].
    exists occs, (trim (collapse_blank 0 clean)). split; [|exact Hread].
    rewrite callGeminiApi_envelope. unfold parse. now rewrite Hloop.
  - intros mm ss Hm1 Hm2 Hs1 Hs2.
    rewrite callGeminiApi_envelope. now rewrite parse_single.
Qed.

(** Seconds above 59 go through: [[07:99]] is read as 519 seconds. *)
Lemma callGeminiApi_citations_in_order_witness :
  callGeminiApi (envelope ("[" ++ "07" ++ ":" ++ "99" ++ "]"))
  = Ret {| answer := "";
           timestamps := [ {| time := 519; timestamp := "07:99"; text := "" |} ] |}.
Proof.
  exact (proj2 (callGeminiApi_citations_in_order "") "07" "99"
           eq_refl (or_intror eq_refl) eq_refl eq_refl).
Defined.

(** C3. On the example of the specification the citations are the two
    expected ones, in order, and the cleaned answer contains
    ["Some text"]; but it still contains the marker ["[00:05]"]: the
    [trim] inside the loop removed the line feed that ended the text, so
    the second match, ["[00:05]\n"], is no longer a substring of
    [cleanAnswer] and [replace] leaves it in place. *)
Theorem callGeminiApi_example_keeps_marker :
  callGeminiApi (envelope example_answer)
  = Ret {| answer := "Some text" ++ LF ++ "[00:05]";
           timestamps :=
             [ {| time := 83; timestamp := "01:23"; text := "Intro" |};
               {| time := 5; timestamp := "00:05"; text := "" |} ] |}
  /\ includes ("Some text" ++ LF ++ "[00:05]") "Some text" = true
  /\ includes ("Some text" ++ LF ++ "[00:05]") "[" = true.
Proof. repeat split; vm_compute; reflexivity. Qed.

End GatewayTheorems.

(** ** Delivery with retry *)

Module DeliveryTheorems.
Import JsString Js Delivery.
Local Open Scope list_scope.

Lemma includes_nil (p : string) : p <> "" -> includes "" p = false.
Proof. destruct p; [intros H; now elim H | reflexivity]. Qed.

(** A failure of the connection class carries a message. *)
Lemma connection_failure_message (e : string) :
  includes e "Could not establish connection" = true -> String.eqb e "" = false.
Proof.
  intros H. apply String.eqb_neq. intros ->.
  rewrite includes_nil in H; discriminate.
Qed.

(** The messages of the extension can be named. *)
Lemma describable_typed (props : list (string * jsval)) (t : string) :
  lookup_prop props "action" = JUndefined ->
  lookup_prop props "type" = JStr t ->
  describable (JObj props).
Proof.
  intros Ha Ht. exists (JStr t). unfold label. cbn [get_prop].
  rewrite Ha. cbn [truthy]. now rewrite Ht.
Qed.

Lemma describable_ping : describable ping.
Proof. now apply (describable_typed _ "ping"). Qed.

Lemma catch_clause_describable (retries i : Z) (message : jsval) (e : string) :
  describable message ->
  catch_clause retries i message e
  = if (i <? retries) && includes e "Could not establish connection"
    then Continue else Raise (failed_after retries e).
Proof. intros [v Hv]. unfold catch_clause. now rewrite Hv. Qed.

Lemma round_describable (retries i : Z) (message : jsval) (a : attempt) :
  describable message ->
  round retries i message a
  = match a with
    | Delivered response => Return response
    | LastError lastError =>
        if i <? retries then Continue
        else Raise (failed_after retries
                      (failed_after retries
                         (if String.eqb lastError "" then "Unknown connection error"
                          else lastError)))
    | Rejected e =>
        if (i <? retries) && includes e "Could not establish connection"
        then Continue else Raise (failed_after retries e)
    end.
Proof.
  intros Hd. destruct a as [r | m | m]; cbn [round].
  - reflexivity.
  - destruct Hd as [v Hv]. rewrite Hv.
    destruct (i <? retries) eqn:Hi; [reflexivity|].
    unfold catch_clause. rewrite Hv, Hi. reflexivity.
  - now apply catch_clause_describable.
Qed.

(** A message that cannot be named: the first failure ends the
    delivery with the error of the warning. *)
Lemma round_indescribable (retries i : Z) (message : jsval) (a : attempt)
    (t : string) :
  label message = Throw t ->
  round retries i message a
  = match a with
    | Delivered response => Return response
    | _ => Raise t
    end.
Proof.
  intros Ht. destruct a as [r | m | m]; cbn [round]; [reflexivity | |];
    unfold catch_clause; now rewrite ?Ht.
Qed.

Lemma round_connection_failure (retries i : Z) (message : jsval) (a : attempt) :
  describable message ->
  i < retries -> connection_failure a = true ->
  round retries i message a = Continue.
Proof.
  intros Hd Hi Ha. rewrite round_describable by exact Hd.
  apply Z.ltb_lt in Hi.
  destruct a as [r | m | m]; simpl in *; [discriminate | |]; now rewrite Hi, ?Ha.
Qed.

Section Loop.
Variables (env : Z -> attempt) (tabId : Z) (message : jsval).
Variables (retries delay : Z).

Lemma loop_continue (k : nat) (i : Z) :
  round retries i message (env i) = Continue ->
  loop (S k) env tabId message retries delay i
  = (fst (loop k env tabId message retries delay (i + 1)),
     Send tabId message :: Wait delay
       :: snd (loop k env tabId message retries delay (i + 1))).
Proof.
  intros H. cbn [loop]. rewrite H.
  now destruct (loop k env tabId message retries delay (i + 1)).
Qed.


(** [n] rounds that end with [continue]. *)
Lemma loop_prefix (n k : nat) :
  forall i,
    (forall j, i <= j < i + Z.of_nat n ->
       round retries j message (env j) = Continue) ->
    loop (n + k) env tabId message retries delay i
    = (fst (loop k env tabId message retries delay (i + Z.of_nat n)),
       retried n tabId message delay
         ++ snd (loop k env tabId message retries delay (i + Z.of_nat n))).
Proof.
  induction n as [|n IH]; intros i H.
  - rewrite Z.add_0_r. simpl. now destruct (loop k _ _ _ _ _ _).
  - change (S n + k)%nat with (S (n + k)).
    rewrite loop_continue by (apply H; lia).
    rewrite (IH (i + 1)) by (intros j Hj; apply H; lia).
    replace (i + 1 + Z.of_nat n) with (i + Z.of_nat (S n)) by lia.
    reflexivity.
Qed.

Hypothesis Hd : describable message.

Lemma loop_success (n k : nat) (r : jsval) :
  forall i,
    i + Z.of_nat n <= retries ->
    (forall j, i <= j < i + Z.of_nat n -> connection_failure (env j) = true) ->
    env (i + Z.of_nat n) = Delivered r ->
    loop (S (n + k)) env tabId message retries delay i
    = (Ret r, retried n tabId message delay ++ [Send tabId message]).
Proof.
  intros i Hle Hfail Hok.
  replace (S (n + k)) with (n + S k)%nat by lia.
  rewrite loop_prefix.
  - cbn [loop]. rewrite Hok. reflexivity.
  - intros j Hj. apply round_connection_failure; [exact Hd | lia | now apply Hfail].
Qed.

Lemma loop_exhausted (n : nat) :
  forall i,
    i + Z.of_nat n = retries ->
    (forall j, i <= j <= retries -> connection_failure (env j) = true) ->
    loop (S n) env tabId message retries delay i
    = (Throw ("Failed to send message after " ++ of_number (retries + 1)
              ++ " attempts: "
              ++ match env retries with
                 | Rejected e => e
                 | LastError e =>
                     "Failed to send message after " ++ of_number (retries + 1)
                     ++ " attempts: " ++ e
                 | Delivered _ => ""
                 end),
       retried n tabId message delay ++ [Send tabId message]).
Proof.
  intros i Hi Hfail.
  replace (S n) with (n + 1)%nat by lia.
  rewrite loop_prefix.
  - rewrite Hi. cbn [loop]. rewrite round_describable by exact Hd.
    rewrite Z.ltb_irrefl.
    pose proof (Hfail retries ltac:(lia)) as Hc.
    destruct (env retries) as [r | e | e]; simpl in Hc; [discriminate | |].
    + rewrite (connection_failure_message e Hc). reflexivity.
    + reflexivity.
  - intros j Hj. apply round_connection_failure; [exact Hd | lia | apply Hfail; lia].
Qed.

End Loop.

(** C4. For a message that the warnings can name (every message object
    of the extension).  With [N] connection failures followed by a
    success, [N] not above [retries], the function makes exactly [N+1]
    attempts, waits [delay] after each failed one, and returns the
    response of the successful attempt.  When all [retries+1] attempts
    are connection failures it makes them all, [delay] apart, and throws
    the error [Failed to send message after retries+1 attempts: ...]
    that ends with the message of the last failure. *)
Theorem sendMessageWithRetry_attempts
    (env : Z -> attempt) (tabId : Z) (message : jsval) (retries delay : Z) :
  describable message ->
  (forall N r,
      0 <= N <= retries ->
      (forall i, 0 <= i < N -> connection_failure (env i) = true) ->
      env N = Delivered r ->
      sendMessageWithRetry env tabId message retries delay
      = (Ret r, retried (Z.to_nat N) tabId message delay ++ [Send tabId message]))
  /\ (0 <= retries ->
      (forall i, 0 <= i <= retries -> connection_failure (env i) = true) ->
      sendMessageWithRetry env tabId message retries delay
      = (Throw ("Failed to send message after " ++ of_number (retries + 1)
                ++ " attempts: "
                ++ match env retries with
                   | Rejected e => e
                   | LastError e =>
                       "Failed to send message after " ++ of_number (retries + 1)
                       ++ " attempts: " ++ e
                   | Delivered _ => ""
                   end),
         retried (Z.to_nat retries) tabId message delay ++ [Send tabId message])).
Proof.
  intros Hd. split.
  - intros N r HN Hfail Hok. unfold sendMessageWithRetry.
    replace (Z.to_nat (retries + 1))
      with (S (Z.to_nat N + Z.to_nat (retries - N))) by lia.
    apply loop_success.
    + exact Hd.
    + lia.
    + intros j Hj. apply Hfail. lia.
    + rewrite <- Hok. f_equal. lia.
  - intros Hr Hfail. unfold sendMessageWithRetry.
    replace (Z.to_nat (retries + 1)) with (S (Z.to_nat retries)) by lia.
    apply loop_exhausted; [exact Hd | lia | exact Hfail].
Qed.

(** Two refused connections, then an answer: three attempts; and three
    refused connections when two retries are allowed. *)
Lemma sendMessageWithRetry_attempts_witness :
  sendMessageWithRetry
    (fun i => if i <? 2 then Rejected no_receiver else Delivered (JStr "pong"))
    7 ping 5 750
  = (Ret (JStr "pong"),
     [Send 7 ping; Wait 750; Send 7 ping; Wait 750; Send 7 ping])
  /\ sendMessageWithRetry (fun _ => Rejected no_receiver) 7 ping 2 750
     = (Throw ("Failed to send message after 3 attempts: "
               ++ "Could not establish connection. Receiving end does not exist."),
        [Send 7 ping; Wait 750; Send 7 ping; Wait 750; Send 7 ping]).
Proof.
  split.
  - apply (proj1 (sendMessageWithRetry_attempts
                    (fun i => if i <? 2 then Rejected no_receiver
                              else Delivered (JStr "pong"))
                    7 ping 5 750 describable_ping) 2 (JStr "pong")).
    + lia.
    + intros i Hi. destruct (Z.ltb_spec i 2); [reflexivity | lia].
    + reflexivity.
  - apply (proj2 (sendMessageWithRetry_attempts
                    (fun _ => Rejected no_receiver) 7 ping 2 750 describable_ping)).
    + lia.
    + intros i Hi. reflexivity.
Defined.




End DeliveryTheorems.

(** ** The Player Bridge *)

Module BridgeFacts.
Import JsString Js Bridge.
Local Open Scope list_scope.

Lemma extends_refl Q pg : extends Q pg pg.
Proof.
  exists []. split; [constructor|].
  destruct pg; unfold set_calls; simpl. now rewrite app_nil_r.
Qed.

Lemma extends_trans Q pg1 pg2 pg3 :
  extends Q pg1 pg2 -> extends Q pg2 pg3 -> extends Q pg1 pg3.
Proof.
  intros (cs1 & H1 & ->) (cs2 & H2 & ->).
  exists (cs1 ++ cs2). split; [now apply Forall_app|].
  unfold set_calls; simpl. now rewrite app_assoc.
Qed.

Lemma extends_weaken (Q Q' : call -> Prop) pg pg' :
  (forall c, Q c -> Q' c) -> extends Q pg pg' -> extends Q' pg pg'.
Proof.
  intros HQ (cs & H & ->). exists cs. split; [|reflexivity].
  eapply Forall_impl; eauto.
Qed.

Lemma frames_ret Q {A} (a : A) : frames Q (ret a).
Proof. intros pg. apply extends_refl. Qed.

Lemma frames_pure Q {A} (f : page -> outcome A) : frames Q (fun pg => (f pg, pg)).
Proof. intros pg. apply extends_refl. Qed.

Lemma frames_bind Q {A B} (m : M A) (k : A -> M B) :
  frames Q m -> (forall a, frames Q (k a)) -> frames Q (bind m k).
Proof.
  intros Hm Hk pg. unfold bind. specialize (Hm pg).
  destruct (m pg) as [[a | e] pg1]; simpl in *; [|exact Hm].
  eapply extends_trans; [exact Hm | apply Hk].
Qed.

Lemma frames_try_catch Q {A} (m : M A) (h : string -> M A) :
  frames Q m -> (forall e, frames Q (h e)) -> frames Q (try_catch m h).
Proof.
  intros Hm Hh pg. unfold try_catch. specialize (Hm pg).
  destruct (m pg) as [[a | e] pg1]; simpl in *; [exact Hm|].
  eapply extends_trans; [exact Hm | apply Hh].
Qed.

Lemma frames_member Q name : frames Q (member name).
Proof. apply frames_pure. Qed.

Lemma frames_typeof_member Q name : frames Q (typeof_member name).
Proof.
  apply frames_bind; [apply frames_member | intros; apply frames_ret].
Qed.

Lemma frames_call_method (Q : call -> Prop) name c :
  Q c -> frames Q (call_method name c).
Proof.
  intros Hc. apply frames_bind; [apply frames_member|].
  intros f pg. destruct f; try apply extends_refl.
  simpl. exists [c]. split; [now repeat constructor | reflexivity].
Qed.

Lemma frames_and_then Q (a b : M bool) :
  frames Q a -> frames Q b -> frames Q (and_then a b).
Proof.
  intros Ha Hb. apply frames_bind; [exact Ha|].
  intros [|]; [exact Hb | apply frames_ret].
Qed.

Lemma frames_is_typeof Q name ty : frames Q (is_typeof name ty).
Proof.
  apply frames_bind; [apply frames_typeof_member | intros; apply frames_ret].
Qed.

Create HintDb frames.
#[local] Hint Resolve frames_ret frames_pure frames_member frames_typeof_member
  frames_is_typeof : frames.

(** The readiness check only ever asks the player for its state. *)
Lemma isYouTubePlayerAPIReady_frames : frames quiet isYouTubePlayerAPIReady.
Proof.
  unfold isYouTubePlayerAPIReady.
  apply frames_bind.
  - repeat (apply frames_and_then; auto with frames).
    apply frames_bind; auto with frames.
  - intros isReady. destruct (negb isReady).
    + do 3 (apply frames_bind; [apply frames_typeof_member | intros _]).
      apply frames_bind; [|intros _; apply frames_ret].
      intros pg. destruct (truthy (ytplayer pg)); [|apply extends_refl].
      apply (frames_bind quiet (member "loaded")); auto with frames.
    + apply frames_bind; [now apply frames_call_method|].
      intros st. destruct (_ || _); auto with frames.
Qed.

Lemma processSeekCommand_frames seconds : frames any (processSeekCommand seconds).
Proof.
  unfold processSeekCommand. apply frames_bind.
  - intros pg. eapply extends_weaken; [|apply isYouTubePlayerAPIReady_frames].
    now intros.
  - intros [|]; [|apply frames_ret].
    apply frames_try_catch.
    + repeat (apply frames_bind;
              [now apply frames_call_method | intros _]).
      apply frames_ret.
    + intros e.
      do 2 (apply frames_bind; [apply frames_typeof_member | intros _]).
      apply frames_ret.
Qed.

(** What a sequence of calls leaves untouched. *)
Lemma extends_fields Q pg pg' :
  extends Q pg pg' ->
  ytplayer pg' = ytplayer pg /\ playerReady pg' = playerReady pg
  /\ commandQueue pg' = commandQueue pg /\ timers pg' = timers pg
  /\ listening pg' = listening pg /\ uncaught pg' = uncaught pg.
Proof. intros (cs & _ & ->). now repeat split. Qed.

Lemma commands_app (a b : list call) : commands (a ++ b) = commands a ++ commands b.
Proof. apply List.filter_app. Qed.

Lemma extends_quiet_commands pg pg' :
  extends quiet pg pg' -> commands (calls pg') = commands (calls pg).
Proof.
  intros (cs & Hcs & ->). simpl. rewrite commands_app.
  assert (commands cs = []) as ->; [|apply app_nil_r].
  induction Hcs as [|c cs Hc _ IH]; [reflexivity|].
  unfold commands in *. simpl. unfold quiet in Hc. now rewrite Hc.
Qed.

(** *** A player that stays ready *)

Lemma bind_run {A B} (m : M A) (k : A -> M B) pg a pg' :
  m pg = (Ret a, pg') -> bind m k pg = k a pg'.
Proof. intros H. unfold bind. now rewrite H. Qed.


Section Steady.
Variables (props : list (string * jsval)).
Variables (fseek fplay fstate : list call -> outcome jsval).
Hypothesis Hseek : lookup_prop props "seekTo" = JFun fseek.
Hypothesis Hplay : lookup_prop props "playVideo" = JFun fplay.
Hypothesis Hstate : lookup_prop props "getPlayerState" = JFun fstate.
Hypothesis Hloaded : lookup_prop props "loaded" = JBool true.
Hypothesis Hst : forall h, exists v,
    fstate h = Ret v /\ is_num v (-1) = false /\ is_num v 5 = false.
Hypothesis Hsk : forall h, exists v, fseek h = Ret v.
Hypothesis Hpl : forall h, exists v, fplay h = Ret v.






End Steady.





(** *** What the tasks keep *)

Lemma drain_keeps (n : nat) : forall pg, keeps pg (snd (drain n pg)).
Proof.
  induction n as [|n IH]; intros pg; [now repeat split|].
  cbn [drain]. destruct (commandQueue pg) as [|t q]; [now repeat split|].
  unfold bind.
  pose proof (processSeekCommand_frames t (set_commandQueue q pg)) as Hf.
  destruct (processSeekCommand t (set_commandQueue q pg)) as [[b | e] pg1];
    simpl in Hf; apply extends_fields in Hf as (H1 & H2 & _ & H3 & H4 & H5).
  - destruct (IH pg1) as (K1 & K2 & K3 & K4 & K5).
    simpl in *. repeat split; congruence.
  - simpl in *. repeat split; assumption.
Qed.


Lemma ensure_listening pg :
  listening (snd (ensurePlayerAndProcessQueue pg)) = listening pg.
Proof.
  unfold ensurePlayerAndProcessQueue, bind at 1.
  destruct (playerReady pg) eqn:Hr; simpl; [reflexivity|].
  unfold bind.
  pose proof (isYouTubePlayerAPIReady_frames pg) as Hf.
  destruct (isYouTubePlayerAPIReady pg) as [[[|] | e] pg1]; simpl in Hf;
    apply extends_fields in Hf as (_ & _ & _ & _ & H4 & _); simpl; auto.
  pose proof (drain_keeps (List.length (commandQueue (set_playerReady true pg1)))
                (set_playerReady true pg1)) as (_ & _ & _ & K4 & _).
  destruct (drain _ _) as [[[] | e] pg2]; simpl in *; congruence.
Qed.


Lemma run_task_fields (m : M unit) pg :
  let pg' := snd (m pg) in
  ytplayer (run_task m pg) = ytplayer pg'
  /\ calls (run_task m pg) = calls pg'
  /\ playerReady (run_task m pg) = playerReady pg'
  /\ commandQueue (run_task m pg) = commandQueue pg'
  /\ timers (run_task m pg) = timers pg'
  /\ listening (run_task m pg) = listening pg'.
Proof. unfold run_task. destruct (m pg) as [[[] | e] pg1]; now repeat split. Qed.

Lemma on_seek_ready (seconds : Z) pg :
  playerReady pg = true ->
  let pg' := snd (on_seek seconds pg) in
  playerReady pg' = true /\ commandQueue pg' = commandQueue pg
  /\ listening pg' = listening pg /\ timers pg' = timers pg.
Proof.
  intros H. unfold on_seek. rewrite H. unfold bind.
  pose proof (processSeekCommand_frames seconds pg) as Hf.
  destruct (processSeekCommand seconds pg) as [[b | e] pg1]; simpl in *;
    apply extends_fields in Hf as (_ & H2 & H3 & H4 & H5 & _);
    repeat split; congruence.
Qed.

Lemma on_seek_not_ready (seconds : Z) pg :
  playerReady pg = false ->
  on_seek seconds pg
  = (Ret tt, set_commandQueue (commandQueue pg ++ [seconds]) pg).
Proof. intros H. unfold on_seek. now rewrite H. Qed.

(** *** Steps and runs *)







(** *** Every command is served at most once, in the order of dispatch *)



















End BridgeFacts.

Module BridgeTheorems.
Import JsString Js Bridge BridgeFacts.
Local Open Scope list_scope.






Lemma no_timer_polls (n : nat) pg : timers pg = [] -> run (polls n) pg = pg.
Proof.
  intros H. induction n as [|n IH]; [reflexivity|].
  change (run (polls (S n)) pg) with (run (polls n) (step Timeout pg)).
  simpl step. now rewrite H.
Qed.

Lemma dead_step (e : event) pg :
  timers pg = [] -> listening pg = false ->
  step e pg = match e with PlayerChange v => set_ytplayer v pg | _ => pg end.
Proof. intros Ht Hl. destruct e; simpl; now rewrite ?Ht, ?Hl. Qed.

Lemma dead_run (evs : list event) :
  forall pg, timers pg = [] -> listening pg = false ->
    timers (run evs pg) = [] /\ listening (run evs pg) = false
    /\ playerReady (run evs pg) = playerReady pg
    /\ commandQueue (run evs pg) = commandQueue pg
    /\ calls (run evs pg) = calls pg /\ uncaught (run evs pg) = uncaught pg.
Proof.
  induction evs as [|e evs IH]; intros pg Ht Hl; [now repeat split|].
  change (run (e :: evs) pg) with (run evs (step e pg)).
  rewrite dead_step by assumption.
  destruct e; try now apply IH.
  destruct (IH (set_ytplayer player pg) Ht Hl) as (H1 & H2 & H3 & H4 & H5 & H6).
  now repeat split.
Qed.

(** C2, on the code.  (1) Injected into a page where [window.ytplayer]
    is undefined, the first poll throws while collecting the reasons
    ([typeof window.ytplayer.seekTo]): no timer is set, the listener is
    never attached, and whatever happens on the page afterwards the
    bridge neither polls nor queues nor seeks.  (2) When the player
    object goes away while a command is queued, the next poll throws the
    same error before it re-arms the timer; the player may come back and
    be ready, no poll follows and the command stays in the queue.
    (3) Once the gate is open a poll does not evaluate the readiness
    check any more: with a ready player the state is asked for once, at
    injection, and not by the two polls that follow.  (4) What does hold:
    an error thrown by [seekTo] itself is caught, the drain goes on with
    the next command and the timer is set again (the command whose seek
    threw is not tried again). *)
Theorem polling_dies_without_ytplayer :
  (uncaught (inject JUndefined)
     = ["Cannot read properties of undefined (reading 'seekTo')"]
   /\ forall evs,
       timers (run evs (inject JUndefined)) = []
       /\ listening (run evs (inject JUndefined)) = false
       /\ playerReady (run evs (inject JUndefined)) = false
       /\ commandQueue (run evs (inject JUndefined)) = []
       /\ calls (run evs (inject JUndefined)) = [])
  /\ (let pg := run [SeekEvent 42; PlayerChange JUndefined; Timeout]
                  (inject (JObj [])) in
      uncaught pg = ["Cannot read properties of undefined (reading 'seekTo')"]
      /\ forall n,
          let pg' := run (PlayerChange (player_in_state 1) :: polls n) pg in
          timers pg' = [] /\ playerReady pg' = false
          /\ commandQueue pg' = [42] /\ calls pg' = [])
  /\ (calls (inject (player_in_state 1)) = [CGetPlayerState]
      /\ calls (run [Timeout; Timeout] (inject (player_in_state 1)))
         = [CGetPlayerState]
      /\ timers (run [Timeout; Timeout] (inject (player_in_state 1))) = [200])
  /\ (let pg := run [SeekEvent 1; SeekEvent 2;
                     PlayerChange player_failing_seek; Timeout]
                  (inject (JObj [])) in
      commands (calls pg) = [CSeekTo 1 true; CSeekTo 2 true]
      /\ commandQueue pg = [] /\ playerReady pg = true
      /\ timers pg = [200] /\ uncaught pg = []).
Proof.
  split; [|split; [|split]].
  - split; [reflexivity|]. intros evs.
    destruct (dead_run evs (inject JUndefined) eq_refl eq_refl)
      as (H1 & H2 & H3 & H4 & H5 & _).
    rewrite H1, H2, H3, H4, H5. now repeat split.
  - split; [reflexivity|]. intros n pg'. subst pg'.
    match goal with
    | |- context [run (PlayerChange ?v :: polls n) ?p] =>
        change (run (PlayerChange v :: polls n) p)
          with (run (polls n) (step (PlayerChange v) p))
    end.
    rewrite no_timer_polls by reflexivity. now repeat split.
  - now repeat split.
  - now repeat split.
Qed.

End BridgeTheorems.

(** ** The readiness handshake *)

Module HandshakeFacts.
Import JsString Handshake.
Local Open Scope list_scope.

(** *** A promise settles once *)

Lemma evolves_refl s : evolves s s.
Proof. repeat split; auto. Qed.

Lemma evolves_trans s1 s2 s3 : evolves s1 s2 -> evolves s2 s3 -> evolves s1 s3.
Proof.
  intros (T1 & S1 & P1) (T2 & S2 & P2). split; [congruence|]. split.
  - intros H. rewrite S2; [now apply S1 | rewrite S1; assumption].
  - auto.
Qed.

Lemma evolves_resolve s : evolves s (resolve s).
Proof. unfold resolve. destruct s as [t [] ph l]; repeat split; auto; now simpl. Qed.

Lemma evolves_reject r s : evolves s (reject r s).
Proof. unfold reject. destruct s as [t [] ph l]; repeat split; auto; now simpl. Qed.

Lemma evolves_removeListener s : evolves s (removeListener s).
Proof. repeat split; auto. Qed.

Lemma evolves_set_phase ph s : ph <> AwaitPing -> evolves s (set_phase ph s).
Proof. repeat split; auto. Qed.

Lemma evolves_readyListener sender type s : evolves s (readyListener sender type s).
Proof.
  unfold readyListener. destruct (s_listening s); [|apply evolves_refl].
  destruct sender as [id|]; [|apply evolves_refl].
  destruct (_ && _); [|apply evolves_refl].
  eapply evolves_trans; [apply evolves_removeListener | apply evolves_resolve].
Qed.

Create HintDb evolve.
#[local] Hint Resolve evolves_refl evolves_resolve evolves_reject
  evolves_removeListener evolves_readyListener : evolve.

(** Altering the promise at one position. *)
Lemma alter_evolves (f : session -> session) (q p : nat) (l : list session) s :
  (forall x, evolves x (f x)) ->
  l !! p = Some s ->
  exists s', alter f q l !! p = Some s' /\ evolves s s'.
Proof.
  intros Hf Hp. destruct (decide (q = p)) as [-> | Hne].
  - rewrite list_lookup_alter_eq, Hp. simpl. eauto.
  - rewrite list_lookup_alter_ne by exact Hne. eauto with evolve.
Qed.

(** *** The timer of one promise *)

Lemma on_timeout_fields (p : nat) st :
  now (on_timeout p st) = now st /\ effects (on_timeout p st) = effects st.
Proof.
  unfold on_timeout. destruct (promises st !! p) as [s|]; [|auto].
  destruct (decide _); auto.
Qed.

Lemma on_timeout_other (p q : nat) st :
  p <> q -> promises (on_timeout p st) !! q = promises st !! q.
Proof.
  intros Hne. unfold on_timeout. destruct (promises st !! p) as [s|]; [|auto].
  destruct (decide _); simpl; now rewrite list_lookup_alter_ne.
Qed.

Lemma on_timeout_evolves (p q : nat) st s :
  promises st !! q = Some s ->
  exists s', promises (on_timeout p st) !! q = Some s' /\ evolves s s'.
Proof.
  intros Hq. unfold on_timeout. destruct (promises st !! p) as [sp|] eqn:Hp.
  - destruct (decide _); simpl; apply alter_evolves; auto.
    + intros x. eapply evolves_trans; [|now apply evolves_set_phase].
      eapply evolves_trans; [apply evolves_removeListener | apply evolves_reject].
    + intros x. now apply evolves_set_phase.
  - eauto with evolve.
Qed.

Lemma on_timeout_map_sub (p : nat) st (t : Z) (q : nat) :
  contentScriptReadyPromises (on_timeout p st) !! t = Some q ->
  contentScriptReadyPromises st !! t = Some q.
Proof.
  unfold on_timeout. destruct (promises st !! p) as [s|]; [|auto].
  destruct (decide _); simpl; [|auto].
  intros H. apply lookup_delete_Some in H. tauto.
Qed.

Lemma on_timeout_map_keep (p : nat) st (t : Z) (q : nat) :
  contentScriptReadyPromises st !! t = Some q -> q <> p ->
  contentScriptReadyPromises (on_timeout p st) !! t = Some q.
Proof.
  intros Ht Hne. unfold on_timeout. destruct (promises st !! p) as [s|]; [|auto].
  destruct (decide _) as [Hd|]; simpl; [|auto].
  rewrite lookup_delete_ne; [exact Ht|]. intros E. rewrite E in Hd. congruence.
Qed.

Lemma on_timeout_self (p : nat) st s :
  promises st !! p = Some s ->
  contentScriptReadyPromises st !! s_tab s = Some p ->
  contentScriptReadyPromises (on_timeout p st) !! s_tab s = None
  /\ promises (on_timeout p st) !! p
     = Some (set_phase Expired (reject (timed_out (s_tab s)) (removeListener s))).
Proof.
  intros Hp Hm. unfold on_timeout. rewrite Hp.
  destruct (decide _) as [|Hn]; [|contradiction]. simpl. split.
  - apply lookup_delete_eq.
  - now rewrite list_lookup_alter_eq, Hp.
Qed.

(** *** The timers that are due *)

Lemma fire_one_fields (p : nat) st :
  now (fire_one p st) = now st /\ effects (fire_one p st) = effects st.
Proof.
  unfold fire_one. destruct (promises st !! p) as [s|]; [|auto].
  destruct (due_at _ _); [apply on_timeout_fields | auto].
Qed.

Lemma fire_one_other (p q : nat) st :
  p <> q -> promises (fire_one p st) !! q = promises st !! q.
Proof.
  intros Hne. unfold fire_one. destruct (promises st !! p) as [s|]; [|auto].
  destruct (due_at _ _); [now apply on_timeout_other | auto].
Qed.

Lemma fire_one_evolves (p q : nat) st s :
  promises st !! q = Some s ->
  exists s', promises (fire_one p st) !! q = Some s' /\ evolves s s'.
Proof.
  intros Hq. unfold fire_one. destruct (promises st !! p) as [sp|];
    [|eauto with evolve].
  destruct (due_at _ _); [now apply on_timeout_evolves | eauto with evolve].
Qed.

Lemma fire_one_map_sub (p : nat) st (t : Z) (q : nat) :
  contentScriptReadyPromises (fire_one p st) !! t = Some q ->
  contentScriptReadyPromises st !! t = Some q.
Proof.
  unfold fire_one. destruct (promises st !! p) as [s|]; [|auto].
  destruct (due_at _ _); [apply on_timeout_map_sub | auto].
Qed.

Lemma fire_one_map_keep (p : nat) st (t : Z) (q : nat) :
  contentScriptReadyPromises st !! t = Some q -> q <> p ->
  contentScriptReadyPromises (fire_one p st) !! t = Some q.
Proof.
  intros Ht Hne. unfold fire_one. destruct (promises st !! p) as [s|]; [|auto].
  destruct (due_at _ _); [now apply on_timeout_map_keep | auto].
Qed.

Lemma fires_fields (ps : list nat) :
  forall st, now (fires ps st) = now st /\ effects (fires ps st) = effects st.
Proof.
  induction ps as [|p ps IH]; intros st; [auto|].
  change (fires (p :: ps) st) with (fires ps (fire_one p st)).
  destruct (IH (fire_one p st)) as [-> ->]. apply fire_one_fields.
Qed.

Lemma fires_other (ps : list nat) (q : nat) :
  forall st, ~ In q ps -> promises (fires ps st) !! q = promises st !! q.
Proof.
  induction ps as [|p ps IH]; intros st Hq; [reflexivity|].
  change (fires (p :: ps) st) with (fires ps (fire_one p st)).
  rewrite IH by (intros H; apply Hq; now right).
  apply fire_one_other. intros ->. apply Hq. now left.
Qed.

Lemma fires_evolves (ps : list nat) (q : nat) :
  forall st s, promises st !! q = Some s ->
    exists s', promises (fires ps st) !! q = Some s' /\ evolves s s'.
Proof.
  induction ps as [|p ps IH]; intros st s Hq; [eauto with evolve|].
  change (fires (p :: ps) st) with (fires ps (fire_one p st)).
  destruct (fire_one_evolves p q st s Hq) as (s1 & H1 & E1).
  destruct (IH _ _ H1) as (s2 & H2 & E2).
  exists s2. split; [exact H2 | eapply evolves_trans; eauto].
Qed.

Lemma fires_map_sub (ps : list nat) (t : Z) (q : nat) :
  forall st, contentScriptReadyPromises (fires ps st) !! t = Some q ->
    contentScriptReadyPromises st !! t = Some q.
Proof.
  induction ps as [|p ps IH]; intros st H; [exact H|].
  change (fires (p :: ps) st) with (fires ps (fire_one p st)) in H.
  eapply fire_one_map_sub, IH, H.
Qed.

Lemma fires_map_keep (ps : list nat) (t : Z) (q : nat) :
  forall st, contentScriptReadyPromises st !! t = Some q -> ~ In q ps ->
    contentScriptReadyPromises (fires ps st) !! t = Some q.
Proof.
  induction ps as [|p ps IH]; intros st Ht Hq; [exact Ht|].
  change (fires (p :: ps) st) with (fires ps (fire_one p st)).
  apply IH; [|intros H; apply Hq; now right].
  apply fire_one_map_keep; [exact Ht|]. intros ->. apply Hq. now left.
Qed.

Lemma fires_app (ps qs : list nat) st :
  fires (ps ++ qs) st = fires qs (fires ps st).
Proof. unfold fires. apply fold_left_app. Qed.

Lemma fire_due_split (p : nat) st :
  (p < List.length (promises st))%nat ->
  fire_due st
  = fires (seq (S p) (List.length (promises st) - S p))
      (fire_one p (fires (seq 0 p) st)).
Proof.
  intros Hp. unfold fire_due.
  replace (List.length (promises st))
    with (p + S (List.length (promises st) - S p))%nat at 1 by lia.
  rewrite seq_app, fires_app. reflexivity.
Qed.

Lemma not_in_seq_below (p : nat) : ~ In p (seq 0 p).
Proof. rewrite in_seq. lia. Qed.

Lemma not_in_seq_above (p n : nat) : ~ In p (seq (S p) n).
Proof. rewrite in_seq. lia. Qed.

(** A timer that is due discards the entry of its promise, if the
    promise is the stored one, and rejects the promise if it is still
    pending. *)
Lemma fire_due_expires st (p : nat) s (due : Z) :
  promises st !! p = Some s -> s_phase s = Armed due -> due <= now st ->
  contentScriptReadyPromises st !! s_tab s = Some p ->
  contentScriptReadyPromises (fire_due st) !! s_tab s = None
  /\ promises (fire_due st) !! p
     = Some (set_phase Expired (reject (timed_out (s_tab s)) (removeListener s))).
Proof.
  intros Hp Hph Hdue Hm.
  rewrite (fire_due_split p) by (eapply lookup_lt_Some; eauto).
  set (st1 := fires (seq 0 p) st).
  assert (Hp1 : promises st1 !! p = Some s).
  { unfold st1. rewrite fires_other; [exact Hp | apply not_in_seq_below]. }
  assert (Hm1 : contentScriptReadyPromises st1 !! s_tab s = Some p).
  { unfold st1. apply fires_map_keep; [exact Hm | apply not_in_seq_below]. }
  assert (Hn1 : now st1 = now st) by apply fires_fields.
  assert (Hf : fire_one p st1 = on_timeout p st1).
  { unfold fire_one. rewrite Hp1. unfold due_at. rewrite Hph, Hn1.
    now apply Z.leb_le in Hdue as ->. }
  rewrite Hf. destruct (on_timeout_self p st1 s Hp1 Hm1) as [Hm2 Hp2].
  split.
  - destruct (contentScriptReadyPromises (fires _ (on_timeout p st1)) !! s_tab s)
      as [q|] eqn:E; [|reflexivity].
    apply fires_map_sub in E. congruence.
  - rewrite fires_other; [exact Hp2 | apply not_in_seq_above].
Qed.

(** A timer that is not due changes nothing for its promise. *)
Lemma fire_due_kept st (p : nat) s :
  promises st !! p = Some s -> due_at (now st) s = false ->
  promises (fire_due st) !! p = Some s
  /\ (contentScriptReadyPromises st !! s_tab s = Some p ->
      contentScriptReadyPromises (fire_due st) !! s_tab s = Some p).
Proof.
  intros Hp Hdue.
  rewrite (fire_due_split p) by (eapply lookup_lt_Some; eauto).
  set (st1 := fires (seq 0 p) st).
  assert (Hp1 : promises st1 !! p = Some s).
  { unfold st1. rewrite fires_other; [exact Hp | apply not_in_seq_below]. }
  assert (Hn1 : now st1 = now st) by apply fires_fields.
  assert (Hf : fire_one p st1 = st1).
  { unfold fire_one. now rewrite Hp1, Hn1, Hdue. }
  rewrite Hf. split.
  - rewrite fires_other; [exact Hp1 | apply not_in_seq_above].
  - intros Hm. apply fires_map_keep; [|apply not_in_seq_above].
    unfold st1. apply fires_map_keep; [exact Hm | apply not_in_seq_below].
Qed.

(** *** Steps *)

Lemma in_phase_Some ph (p : nat) st s :
  in_phase ph p st = Some s -> promises st !! p = Some s.
Proof.
  unfold in_phase. destruct (promises st !! p) as [x|]; [|discriminate].
  destruct (s_phase x), ph; congruence.
Qed.

Lemma step_evolves (e : event) st (p : nat) s :
  promises st !! p = Some s ->
  exists s', promises (step e st) !! p = Some s' /\ evolves s s'.
Proof.
  intros Hp. destruct e as [t | q | q | q | q m | sender type | dt]; simpl.
  - unfold ensureContentScriptLoaded.
    destruct (contentScriptReadyPromises st !! t); simpl; [eauto with evolve|].
    exists s. split; [|apply evolves_refl].
    rewrite lookup_app_l; [exact Hp | eapply lookup_lt_Some; eauto].
  - destruct (in_phase AwaitPing q st); [|eauto with evolve].
    apply alter_evolves; [|exact Hp]. intros x.
    eapply evolves_trans; [|now apply evolves_set_phase].
    eapply evolves_trans; [apply evolves_removeListener | apply evolves_resolve].
  - destruct (in_phase AwaitPing q st); [|eauto with evolve].
    simpl. apply alter_evolves; [|exact Hp]. intros x. now apply evolves_set_phase.
  - destruct (in_phase AwaitInject q st); [|eauto with evolve].
    apply alter_evolves; [|exact Hp]. intros x. now apply evolves_set_phase.
  - destruct (in_phase AwaitInject q st); [|eauto with evolve].
    apply alter_evolves; [|exact Hp]. intros x.
    eapply evolves_trans; [|now apply evolves_set_phase].
    eapply evolves_trans; [apply evolves_removeListener | apply evolves_reject].
  - exists (readyListener sender type s). split; [|apply evolves_readyListener].
    change (List.map (readyListener sender type) (promises st))
      with (readyListener sender type <$> promises st).
    now rewrite list_lookup_fmap, Hp.
  - destruct (dt <? 0); [eauto with evolve|].
    apply fires_evolves. exact Hp.
Qed.

Lemma run_evolves (evs : list event) :
  forall st (p : nat) s, promises st !! p = Some s ->
    exists s', promises (run evs st) !! p = Some s' /\ evolves s s'.
Proof.
  induction evs as [|e evs IH]; intros st p s Hp; [eauto with evolve|].
  change (run (e :: evs) st) with (run evs (step e st)).
  destruct (step_evolves e st p s Hp) as (s1 & H1 & E1).
  destruct (IH _ _ _ H1) as (s2 & H2 & E2).
  exists s2. split; [exact H2 | eapply evolves_trans; eauto].
Qed.

(** A settled promise stays as it is, whatever happens. *)
Lemma settled_stable (evs : list event) st (p : nat) (r : settlement) :
  state_of p st = Some r -> r <> Pending -> state_of p (run evs st) = Some r.
Proof.
  unfold state_of. intros H Hr.
  destruct (promises st !! p) as [s|] eqn:Hp; [|discriminate].
  simpl in H. injection H as <-.
  destruct (run_evolves evs st p s Hp) as (s' & -> & _ & Hs & _).
  simpl. now rewrite Hs.
Qed.

(** No event but the passing of time removes an entry of the map. *)
Lemma step_map_kept (e : event) st (t : Z) (p : nat) :
  (forall dt, e <> Elapse dt) ->
  contentScriptReadyPromises st !! t = Some p ->
  contentScriptReadyPromises (step e st) !! t = Some p.
Proof.
  intros He Ht. destruct e as [t' | q | q | q | q m | sender type | dt]; simpl.
  - unfold ensureContentScriptLoaded.
    destruct (contentScriptReadyPromises st !! t') eqn:E; simpl; [exact Ht|].
    rewrite lookup_insert_ne; [exact Ht | congruence].
  - destruct (in_phase AwaitPing q st); exact Ht.
  - destruct (in_phase AwaitPing q st); exact Ht.
  - destruct (in_phase AwaitInject q st); exact Ht.
  - destruct (in_phase AwaitInject q st); exact Ht.
  - exact Ht.
  - now elim (He dt).
Qed.

(** *** The steps of one handshake *)

Lemma fire_due_fields st :
  now (fire_due st) = now st /\ effects (fire_due st) = effects st.
Proof. apply fires_fields. Qed.

Lemma step_call st (tabId : Z) :
  contentScriptReadyPromises st !! tabId = None ->
  let p := List.length (promises st) in
  let st' := step (Call tabId) st in
  promises st' !! p = Some (fresh_session tabId)
  /\ contentScriptReadyPromises st' !! tabId = Some p
  /\ effects st' = effects st ++ [Ping tabId]
  /\ now st' = now st.
Proof.
  intros H p st'. subst p st'. simpl. unfold ensureContentScriptLoaded.
  rewrite H. simpl. repeat split.
  - apply list_lookup_middle. reflexivity.
  - apply lookup_insert_eq.
Qed.

Lemma in_phase_ping (p : nat) st s :
  promises st !! p = Some s -> s_phase s = AwaitPing ->
  in_phase AwaitPing p st = Some s.
Proof. intros Hp Hph. unfold in_phase. now rewrite Hp, Hph. Qed.

Lemma in_phase_inject (p : nat) st s :
  promises st !! p = Some s -> s_phase s = AwaitInject ->
  in_phase AwaitInject p st = Some s.
Proof. intros Hp Hph. unfold in_phase. now rewrite Hp, Hph. Qed.

Lemma step_ping_failed st (p : nat) s :
  promises st !! p = Some s -> s_phase s = AwaitPing ->
  let st' := step (PingFailed p) st in
  promises st' !! p = Some (set_phase AwaitInject s)
  /\ contentScriptReadyPromises st' = contentScriptReadyPromises st
  /\ effects st' = effects st ++ [Inject (s_tab s)]
  /\ now st' = now st.
Proof.
  intros Hp Hph st'. subst st'. simpl.
  rewrite (in_phase_ping p st s Hp Hph). simpl. repeat split.
  now rewrite list_lookup_alter_eq, Hp.
Qed.

Lemma step_ping_answered st (p : nat) s :
  promises st !! p = Some s -> s_phase s = AwaitPing ->
  let st' := step (PingAnswered p) st in
  promises st' !! p = Some (arm (now st) (resolve (removeListener s)))
  /\ contentScriptReadyPromises st' = contentScriptReadyPromises st
  /\ effects st' = effects st
  /\ now st' = now st.
Proof.
  intros Hp Hph st'. subst st'. simpl.
  rewrite (in_phase_ping p st s Hp Hph). simpl. repeat split.
  now rewrite list_lookup_alter_eq, Hp.
Qed.

Lemma step_injection_done st (p : nat) s :
  promises st !! p = Some s -> s_phase s = AwaitInject ->
  let st' := step (InjectionDone p) st in
  promises st' !! p = Some (arm (now st) s)
  /\ contentScriptReadyPromises st' = contentScriptReadyPromises st
  /\ effects st' = effects st
  /\ now st' = now st.
Proof.
  intros Hp Hph st'. subst st'. simpl.
  rewrite (in_phase_inject p st s Hp Hph). simpl. repeat split.
  now rewrite list_lookup_alter_eq, Hp.
Qed.

Lemma step_injection_failed st (p : nat) s (message : string) :
  promises st !! p = Some s -> s_phase s = AwaitInject ->
  let st' := step (InjectionFailed p message) st in
  promises st' !! p
  = Some (arm (now st) (reject (inject_failed message) (removeListener s)))
  /\ contentScriptReadyPromises st' = contentScriptReadyPromises st
  /\ effects st' = effects st
  /\ now st' = now st.
Proof.
  intros Hp Hph st'. subst st'. simpl.
  rewrite (in_phase_inject p st s Hp Hph). simpl. repeat split.
  now rewrite list_lookup_alter_eq, Hp.
Qed.

Lemma step_message st (p : nat) s sender type :
  promises st !! p = Some s ->
  promises (step (Message sender type) st) !! p
  = Some (readyListener sender type s).
Proof.
  intros Hp. simpl.
  change (List.map (readyListener sender type) (promises st))
    with (readyListener sender type <$> promises st).
  now rewrite list_lookup_fmap, Hp.
Qed.

Lemma step_elapse_kept st (p : nat) s (dt : Z) :
  promises st !! p = Some s -> 0 <= dt -> due_at (now st + dt) s = false ->
  let st' := step (Elapse dt) st in
  promises st' !! p = Some s
  /\ (contentScriptReadyPromises st !! s_tab s = Some p ->
      contentScriptReadyPromises st' !! s_tab s = Some p)
  /\ effects st' = effects st
  /\ now st' = now st + dt.
Proof.
  intros Hp Hdt Hdue st'. subst st'. simpl.
  destruct (Z.ltb_spec dt 0) as [|_]; [lia|].
  destruct (fire_due_kept (set_now (now st + dt) st) p s Hp Hdue) as [H1 H2].
  destruct (fire_due_fields (set_now (now st + dt) st)) as [H3 H4].
  repeat split; auto.
Qed.

Lemma step_elapse_expires st (p : nat) s (due dt : Z) :
  promises st !! p = Some s -> s_phase s = Armed due ->
  0 <= dt -> due <= now st + dt ->
  contentScriptReadyPromises st !! s_tab s = Some p ->
  let st' := step (Elapse dt) st in
  contentScriptReadyPromises st' !! s_tab s = None
  /\ promises st' !! p
     = Some (set_phase Expired (reject (timed_out (s_tab s)) (removeListener s))).
Proof.
  intros Hp Hph Hdt Hdue Hm st'. subst st'. simpl.
  destruct (Z.ltb_spec dt 0) as [|_]; [lia|].
  exact (fire_due_expires (set_now (now st + dt) st) p s due Hp Hph Hdue Hm).
Qed.

(** Only two things reach the Chrome API: the ping of a new promise and
    the injection made when the ping of a promise fails. *)
Lemma step_effects (e : event) st :
  effects (step e st) = effects st
  \/ (exists t, e = Call t /\ contentScriptReadyPromises st !! t = None
                /\ effects (step e st) = effects st ++ [Ping t])
  \/ (exists p s, e = PingFailed p /\ promises st !! p = Some s
                  /\ s_phase s = AwaitPing
                  /\ effects (step e st) = effects st ++ [Inject (s_tab s)]
                  /\ promises (step e st) !! p = Some (set_phase AwaitInject s)).
Proof.
  destruct e as [t | q | q | q | q m | sender type | dt]; simpl.
  - unfold ensureContentScriptLoaded.
    destruct (contentScriptReadyPromises st !! t) eqn:E; simpl; [now left|].
    right; left. exists t. auto.
  - destruct (in_phase AwaitPing q st); now left.
  - destruct (in_phase AwaitPing q st) as [s|] eqn:E; [|now left].
    right; right. exists q, s. pose proof (in_phase_Some _ _ _ _ E) as Hq.
    assert (Hph : s_phase s = AwaitPing).
    { unfold in_phase in E. rewrite Hq in E. destruct (s_phase s); congruence. }
    simpl. repeat split; auto. now rewrite list_lookup_alter_eq, Hq.
  - destruct (in_phase AwaitInject q st); now left.
  - destruct (in_phase AwaitInject q st); now left.
  - now left.
  - left. destruct (dt <? 0); [reflexivity|].
    apply (fire_due_fields (set_now (now st + dt) st)).
Qed.

(** *** One promise in flight per tab *)

Lemma consistent_init : consistent init.
Proof. intros p s H. simpl in H. destruct p; discriminate H. Qed.

Lemma in_phase_live ph (p : nat) st s :
  in_phase ph p st = Some s -> s_phase s <> Expired.
Proof.
  unfold in_phase. destruct (promises st !! p) as [x|]; [|discriminate].
  destruct (s_phase x) eqn:E, ph; intros H; inversion H; subst; congruence.
Qed.

(** Changing the promise at one position without touching its tab. *)
Lemma consistent_alter (f : session -> session) (q : nat) st ps sq :
  consistent st ->
  promises st !! q = Some sq -> s_phase sq <> Expired ->
  ps = alter f q (promises st) ->
  (forall x, s_tab (f x) = s_tab x) ->
  forall p s, ps !! p = Some s -> s_phase s <> Expired ->
    contentScriptReadyPromises st !! s_tab s = Some p.
Proof.
  intros Hc Hq Hlive -> Hf p s Hp Hs.
  destruct (decide (q = p)) as [-> | Hne].
  - rewrite list_lookup_alter_eq, Hq in Hp. simpl in Hp. injection Hp as <-.
    rewrite Hf. now apply Hc.
  - rewrite list_lookup_alter_ne in Hp by exact Hne. now apply Hc.
Qed.

Lemma on_timeout_consistent (q : nat) st :
  consistent st -> consistent (on_timeout q st).
Proof.
  intros Hc p s. unfold on_timeout.
  destruct (promises st !! q) as [sq|] eqn:Hq; [|apply Hc].
  destruct (decide _) as [Hd|Hd]; simpl; intros Hp Hs.
  - destruct (decide (q = p)) as [-> | Hne].
    + rewrite list_lookup_alter_eq, Hq in Hp. simpl in Hp. injection Hp as <-.
      now elim Hs.
    + rewrite list_lookup_alter_ne in Hp by exact Hne.
      pose proof (Hc p s Hp Hs) as Hm.
      rewrite lookup_delete_ne; [exact Hm|]. intros E. rewrite E in Hd. congruence.
  - destruct (decide (q = p)) as [-> | Hne].
    + rewrite list_lookup_alter_eq, Hq in Hp. simpl in Hp. injection Hp as <-.
      now elim Hs.
    + rewrite list_lookup_alter_ne in Hp by exact Hne. now apply Hc.
Qed.

Lemma fires_consistent (ps : list nat) :
  forall st, consistent st -> consistent (fires ps st).
Proof.
  induction ps as [|q ps IH]; intros st Hc; [exact Hc|].
  change (fires (q :: ps) st) with (fires ps (fire_one q st)).
  apply IH. unfold fire_one. destruct (promises st !! q) as [s|]; [|exact Hc].
  destruct (due_at _ _); [now apply on_timeout_consistent | exact Hc].
Qed.

Lemma step_consistent (e : event) st : consistent st -> consistent (step e st).
Proof.
  intros Hc. destruct e as [t | q | q | q | q m | sender type | dt]; simpl.
  - unfold ensureContentScriptLoaded.
    destruct (contentScriptReadyPromises st !! t) eqn:Ht; simpl; [exact Hc|].
    intros p s Hp Hs. simpl in *.
    destruct (decide (p < List.length (promises st))%nat) as [Hlt | Hge].
    + rewrite lookup_app_l in Hp by exact Hlt.
      pose proof (Hc p s Hp Hs) as Hm.
      rewrite lookup_insert_ne; [exact Hm | congruence].
    + assert (Hlen := lookup_lt_Some _ _ _ Hp). rewrite length_app in Hlen.
      simpl in Hlen. assert (p = List.length (promises st)) as -> by lia.
      rewrite list_lookup_middle in Hp by reflexivity. injection Hp as <-.
      simpl. apply lookup_insert_eq.
  - destruct (in_phase AwaitPing q st) as [sq|] eqn:E; [|exact Hc].
    intros p s. simpl.
    eapply consistent_alter;
      [exact Hc | exact (in_phase_Some _ _ _ _ E) | exact (in_phase_live _ _ _ _ E)
       | reflexivity |].
    intros x. unfold arm, resolve. simpl. destruct (s_state x); reflexivity.
  - destruct (in_phase AwaitPing q st) as [sq|] eqn:E; [|exact Hc].
    intros p s. simpl.
    eapply consistent_alter;
      [exact Hc | exact (in_phase_Some _ _ _ _ E) | exact (in_phase_live _ _ _ _ E)
       | reflexivity |].
    reflexivity.
  - destruct (in_phase AwaitInject q st) as [sq|] eqn:E; [|exact Hc].
    intros p s. simpl.
    eapply consistent_alter;
      [exact Hc | exact (in_phase_Some _ _ _ _ E) | exact (in_phase_live _ _ _ _ E)
       | reflexivity |].
    reflexivity.
  - destruct (in_phase AwaitInject q st) as [sq|] eqn:E; [|exact Hc].
    intros p s. simpl.
    eapply consistent_alter;
      [exact Hc | exact (in_phase_Some _ _ _ _ E) | exact (in_phase_live _ _ _ _ E)
       | reflexivity |].
    intros x. unfold arm, reject. simpl. destruct (s_state x); reflexivity.
  - intros p s. simpl.
    change (List.map (readyListener sender type) (promises st))
      with (readyListener sender type <$> promises st).
    rewrite list_lookup_fmap.
    destruct (promises st !! p) as [s0|] eqn:Hp; [|discriminate].
    simpl. intros H Hs. injection H as <-.
    assert (Ht : s_tab (readyListener sender type s0) = s_tab s0)
      by apply evolves_readyListener.
    assert (Hph : s_phase (readyListener sender type s0) = s_phase s0).
    { unfold readyListener. destruct (s_listening s0); [|reflexivity].
      destruct sender; [|reflexivity]. destruct (_ && _); [|reflexivity].
      unfold resolve. simpl. destruct (s_state s0); reflexivity. }
    rewrite Ht. apply Hc; [exact Hp | congruence].
  - destruct (dt <? 0); [exact Hc|]. apply fires_consistent. exact Hc.
Qed.

Lemma run_consistent (evs : list event) :
  forall st, consistent st -> consistent (run evs st).
Proof.
  induction evs as [|e evs IH]; intros st Hc; [exact Hc|].
  change (run (e :: evs) st) with (run evs (step e st)).
  now apply IH, step_consistent.
Qed.

Lemma reject_settled (r : string) (s : session) : s_state (reject r s) <> Pending.
Proof. unfold reject. destruct (s_state s) eqn:E; simpl; congruence. Qed.

Lemma expired_settled_alter (f : session -> session) (q : nat) st ps :
  expired_settled st ->
  ps = alter f q (promises st) ->
  (forall x, s_phase (f x) = Expired -> s_state (f x) <> Pending) ->
  forall p s, ps !! p = Some s -> s_phase s = Expired -> s_state s <> Pending.
Proof.
  intros He -> Hf p s Hp Hs.
  destruct (decide (q = p)) as [-> | Hne].
  - rewrite list_lookup_alter_eq in Hp.
    destruct (promises st !! p) as [x|]; [|discriminate].
    simpl in Hp. injection Hp as <-. now apply Hf.
  - rewrite list_lookup_alter_ne in Hp by exact Hne. now apply (He p).
Qed.

Lemma fire_one_expired_settled (q : nat) st :
  consistent st -> expired_settled st -> expired_settled (fire_one q st).
Proof.
  intros Hc He. unfold fire_one.
  destruct (promises st !! q) as [sq|] eqn:Hq; [|exact He].
  destruct (due_at (now st) sq) eqn:Hdue; [|exact He].
  assert (Hlive : s_phase sq <> Expired).
  { unfold due_at in Hdue. destruct (s_phase sq); congruence. }
  unfold on_timeout. rewrite Hq.
  destruct (decide _) as [Hd | Hd]; [|now elim Hd; apply Hc].
  intros p s. simpl.
  eapply expired_settled_alter; [exact He | reflexivity |].
  intros x _. simpl. apply reject_settled.
Qed.

Lemma fires_invariants (ps : list nat) :
  forall st, consistent st -> expired_settled st ->
    consistent (fires ps st) /\ expired_settled (fires ps st).
Proof.
  induction ps as [|q ps IH]; intros st Hc He; [now split|].
  change (fires (q :: ps) st) with (fires ps (fire_one q st)).
  apply IH.
  - apply (fires_consistent [q]). exact Hc.
  - now apply fire_one_expired_settled.
Qed.

Lemma step_expired_settled (e : event) st :
  consistent st -> expired_settled st -> expired_settled (step e st).
Proof.
  intros Hc He. destruct e as [t | q | q | q | q m | sender type | dt]; simpl.
  - unfold ensureContentScriptLoaded.
    destruct (contentScriptReadyPromises st !! t); simpl; [exact He|].
    intros p s Hp Hs. simpl in *.
    destruct (decide (p < List.length (promises st))%nat) as [Hlt | Hge].
    + rewrite lookup_app_l in Hp by exact Hlt. now apply (He p).
    + assert (Hlen := lookup_lt_Some _ _ _ Hp). rewrite length_app in Hlen.
      simpl in Hlen. assert (p = List.length (promises st)) as -> by lia.
      rewrite list_lookup_middle in Hp by reflexivity. injection Hp as <-.
      discriminate Hs.
  - destruct (in_phase AwaitPing q st) as [sq|]; [|exact He]. intros p s. simpl.
    eapply expired_settled_alter; [exact He | reflexivity |]. intros x H. discriminate H.
  - destruct (in_phase AwaitPing q st) as [sq|]; [|exact He]. intros p s. simpl.
    eapply expired_settled_alter; [exact He | reflexivity |]. intros x H. discriminate H.
  - destruct (in_phase AwaitInject q st) as [sq|]; [|exact He]. intros p s. simpl.
    eapply expired_settled_alter; [exact He | reflexivity |]. intros x H. discriminate H.
  - destruct (in_phase AwaitInject q st) as [sq|]; [|exact He]. intros p s. simpl.
    eapply expired_settled_alter; [exact He | reflexivity |]. intros x H. discriminate H.
  - intros p s. simpl.
    change (List.map (readyListener sender type) (promises st))
      with (readyListener sender type <$> promises st).
    rewrite list_lookup_fmap.
    destruct (promises st !! p) as [s0|] eqn:Hp; [|discriminate].
    simpl. intros H Hs. injection H as <-.
    assert (Hph : s_phase (readyListener sender type s0) = s_phase s0).
    { unfold readyListener. destruct (s_listening s0); [|reflexivity].
      destruct sender; [|reflexivity]. destruct (_ && _); [|reflexivity].
      unfold resolve. simpl. destruct (s_state s0); reflexivity. }
    rewrite Hph in Hs. pose proof (He p s0 Hp Hs) as Hset.
    destruct (evolves_readyListener sender type s0) as (_ & Hst & _).
    now rewrite (Hst Hset).
  - destruct (dt <? 0); [exact He|].
    now apply (fires_invariants _ (set_now (now st + dt) st)).
Qed.

Lemma run_invariants (evs : list event) :
  forall st, consistent st -> expired_settled st ->
    consistent (run evs st) /\ expired_settled (run evs st).
Proof.
  induction evs as [|e evs IH]; intros st Hc He; [now split|].
  change (run (e :: evs) st) with (run evs (step e st)).
  apply IH; [now apply step_consistent | now apply step_expired_settled].
Qed.

(** In every state the popup can reach, two pending promises belong to
    different tabs. *)
Lemma one_pending_per_tab (evs : list event) (p q : nat) (s s' : session) :
  promises (run evs init) !! p = Some s ->
  promises (run evs init) !! q = Some s' ->
  s_state s = Pending -> s_state s' = Pending -> s_tab s = s_tab s' ->
  p = q.
Proof.
  intros Hp Hq Hs Hs' Ht.
  destruct (run_invariants evs init consistent_init) as [Hc He].
  { intros x y H. destruct x; discriminate H. }
  assert (Lp : s_phase s <> Expired) by (intros E; now apply (He p s Hp E)).
  assert (Lq : s_phase s' <> Expired) by (intros E; now apply (He q s' Hq E)).
  pose proof (Hc p s Hp Lp) as Mp. pose proof (Hc q s' Hq Lq) as Mq.
  rewrite Ht in Mp. congruence.
Qed.

(** *** One injection per stored promise *)

(** An entry of the map for an existing promise was there before the
    step: a call stores a promise that did not exist yet. *)
Lemma step_map_sub (e : event) st (t : Z) (p : nat) :
  (p < List.length (promises st))%nat ->
  contentScriptReadyPromises (step e st) !! t = Some p ->
  contentScriptReadyPromises st !! t = Some p.
Proof.
  intros Hlt. destruct e as [t' | q | q | q | q m | sender type | dt]; simpl.
  - unfold ensureContentScriptLoaded.
    destruct (contentScriptReadyPromises st !! t') eqn:E; simpl; [auto|].
    intros H. apply lookup_insert_Some in H as [[_ H] | [_ H]]; [lia | exact H].
  - destruct (in_phase AwaitPing q st); auto.
  - destruct (in_phase AwaitPing q st); auto.
  - destruct (in_phase AwaitInject q st); auto.
  - destruct (in_phase AwaitInject q st); auto.
  - auto.
  - destruct (dt <? 0); [auto|]. intros H.
    exact (fires_map_sub _ _ _ (set_now (now st + dt) st) H).
Qed.

Lemma run_map_sub (evs : list event) (t : Z) (p : nat) :
  forall st, (p < List.length (promises st))%nat ->
    contentScriptReadyPromises (run evs st) !! t = Some p ->
    contentScriptReadyPromises st !! t = Some p.
Proof.
  induction evs as [|e evs IH]; intros st Hlt H; [exact H|].
  change (run (e :: evs) st) with (run evs (step e st)) in H.
  destruct (lookup_lt_is_Some_2 _ _ Hlt) as [s Hp].
  destruct (step_evolves e st p s Hp) as (s1 & H1 & _).
  apply (step_map_sub e); [exact Hlt|].
  apply IH; [eapply lookup_lt_Some; eauto | exact H].
Qed.

(** While the promise stored for a tab is past its ping, no event
    requests an injection into that tab. *)
Lemma step_no_injection (e : event) st (t : Z) (p : nat) s :
  consistent st ->
  contentScriptReadyPromises st !! t = Some p ->
  promises st !! p = Some s -> s_phase s <> AwaitPing ->
  injections t (step e st) = injections t st.
Proof.
  intros Hc Hm Hp Hph. unfold injections.
  destruct (step_effects e st)
    as [-> | [(t' & _ & _ & ->) | (q & sq & _ & Hq & Hphq & -> & _)]].
  - reflexivity.
  - rewrite List.filter_app. simpl. now rewrite app_nil_r.
  - rewrite List.filter_app. simpl.
    destruct (Z.eqb_spec (s_tab sq) t) as [Ht | _]; [|now rewrite app_nil_r].
    exfalso. assert (Hl : s_phase sq <> Expired) by (rewrite Hphq; discriminate).
    pose proof (Hc q sq Hq Hl) as Hm'. rewrite Ht, Hm in Hm'.
    injection Hm' as ->. rewrite Hp in Hq. injection Hq as ->. contradiction.
Qed.

Lemma run_no_injection (evs : list event) (t : Z) (p : nat) :
  forall st s, consistent st ->
    contentScriptReadyPromises st !! t = Some p ->
    promises st !! p = Some s -> s_phase s <> AwaitPing ->
    contentScriptReadyPromises (run evs st) !! t = Some p ->
    injections t (run evs st) = injections t st.
Proof.
  induction evs as [|e evs IH]; intros st s Hc Hm Hp Hph Hend; [reflexivity|].
  change (run (e :: evs) st) with (run evs (step e st)) in *.
  destruct (step_evolves e st p s Hp) as (s1 & H1 & _ & _ & Hph1).
  rewrite (IH (step e st) s1).
  - now apply (step_no_injection e st t p s).
  - now apply step_consistent.
  - apply (run_map_sub evs); [eapply lookup_lt_Some; eauto | exact Hend].
  - exact H1.
  - auto.
  - exact Hend.
Qed.

End HandshakeFacts.

Module HandshakeTheorems.
Import JsString Handshake HandshakeFacts.
Local Open Scope list_scope.

Lemma run_cons (e : event) (evs : list event) st :
  run (e :: evs) st = run evs (step e st).
Proof. reflexivity. Qed.

Lemma run_nil st : run [] st = st.
Proof. reflexivity. Qed.

(** The start of a handshake with a tab that has no listener: the
    call, the ping that fails after [d1] ms, and [d2] ms during which
    the injection runs. *)
Lemma handshake_injecting st (tabId d1 d2 : Z) :
  contentScriptReadyPromises st !! tabId = None -> 0 <= d1 -> 0 <= d2 ->
  let p := List.length (promises st) in
  let st3 := run [Call tabId; Elapse d1; PingFailed p; Elapse d2] st in
  promises st3 !! p = Some (set_phase AwaitInject (fresh_session tabId))
  /\ contentScriptReadyPromises st3 !! tabId = Some p
  /\ effects st3 = effects st ++ [Ping tabId; Inject tabId].
Proof.
  intros Hm Hd1 Hd2 p st3. subst st3. rewrite !run_cons, !run_nil.
  destruct (step_call st tabId Hm) as (P0 & M0 & E0 & _). fold p in P0, M0.
  set (st0 := step (Call tabId) st) in *.
  destruct (step_elapse_kept st0 p _ d1 P0 Hd1 eq_refl) as (P1 & M1 & E1 & _).
  specialize (M1 M0). set (st1 := step (Elapse d1) st0) in *.
  destruct (step_ping_failed st1 p _ P1 eq_refl) as (P2 & M2 & E2 & _).
  set (st2 := step (PingFailed p) st1) in *.
  destruct (step_elapse_kept st2 p _ d2 P2 Hd2 eq_refl) as (P3 & M3 & E3 & _).
  repeat split.
  - exact P3.
  - apply M3. simpl. rewrite M2. exact M1.
  - rewrite E3, E2, E1, E0. simpl. now rewrite <- app_assoc.
Qed.

Lemma ready_resolves (tabId : Z) (s : session) :
  s_tab s = tabId -> s_listening s = true -> s_state s = Pending ->
  s_state (readyListener (Some tabId) "contentScriptReady" s) = Fulfilled.
Proof.
  intros Ht Hl Hs. unfold readyListener. rewrite Hl, Ht, Z.eqb_refl. simpl.
  unfold resolve. simpl. now rewrite Hs.
Qed.

(** C6, amended.  (0) In every state the popup can reach, two pending
    promises belong to different tabs.  (1) A call for a tab that has an
    entry returns the stored promise and does nothing else: no ping, no
    injection.  (2) For a tab without an entry whose ping fails, one ping and one
    injection are requested and the promise is pending; if the
    injection succeeds, the promise stays pending until a ready
    announcement from the tab fulfils it or, 15 s after the injection
    returned, the timer rejects it; if the injection itself fails the
    promise is rejected at once with the injection error.  (3) A
    settled promise never changes, so it cannot be both fulfilled and
    rejected.  (4) The only injection a promise ever requests is the one
    made when its ping fails.  (5) Once the promise stored for a tab is
    past its ping, nothing that happens while it remains the stored one
    requests an injection into that tab. *)
Theorem ensureContentScriptLoaded_settles_once :
  (forall evs p q s s',
      promises (run evs init) !! p = Some s ->
      promises (run evs init) !! q = Some s' ->
      s_state s = Pending -> s_state s' = Pending -> s_tab s = s_tab s' ->
      p = q)
  /\ (forall st tabId p,
        contentScriptReadyPromises st !! tabId = Some p ->
        ensureContentScriptLoaded tabId st = (p, st))
  /\ (forall st tabId d1 d2,
        contentScriptReadyPromises st !! tabId = None -> 0 <= d1 -> 0 <= d2 ->
        let p := List.length (promises st) in
        let st3 := run [Call tabId; Elapse d1; PingFailed p; Elapse d2] st in
        effects st3 = effects st ++ [Ping tabId; Inject tabId]
        /\ state_of p st3 = Some Pending
        /\ state_of p (step (Message (Some tabId) "contentScriptReady") st3)
           = Some Fulfilled
        /\ (forall dt, 0 <= dt < timeout_ms ->
              state_of p (run [InjectionDone p; Elapse dt] st3) = Some Pending
              /\ state_of p (run [InjectionDone p; Elapse dt;
                                  Message (Some tabId) "contentScriptReady"] st3)
                 = Some Fulfilled)
        /\ (forall dt, timeout_ms <= dt ->
              state_of p (run [InjectionDone p; Elapse dt] st3)
              = Some (Rejected (timed_out tabId)))
        /\ (forall message,
              state_of p (step (InjectionFailed p message) st3)
              = Some (Rejected (inject_failed message))))
  /\ (forall evs st p r,
        state_of p st = Some r -> r <> Pending ->
        state_of p (run evs st) = Some r)
  /\ (forall e st tabId,
        injections tabId (step e st) = injections tabId st
        \/ exists p s,
            e = PingFailed p /\ promises st !! p = Some s
            /\ s_tab s = tabId /\ s_phase s = AwaitPing
            /\ promises (step e st) !! p = Some (set_phase AwaitInject s)
            /\ injections tabId (step e st) = S (injections tabId st))
  /\ (forall evs evs' tabId p s,
        let st := run evs init in
        contentScriptReadyPromises st !! tabId = Some p ->
        promises st !! p = Some s -> s_phase s <> AwaitPing ->
        contentScriptReadyPromises (run evs' st) !! tabId = Some p ->
        injections tabId (run evs' st) = injections tabId st).
Proof.
  split; [|split; [|split; [|split; [|split]]]].
  - exact one_pending_per_tab.
  - intros st tabId p H. unfold ensureContentScriptLoaded. now rewrite H.
  - intros st tabId d1 d2 Hm Hd1 Hd2 p st3.
    destruct (handshake_injecting st tabId d1 d2 Hm Hd1 Hd2) as (P3 & M3 & E3).
    fold p in P3, M3. fold st3 in P3, M3, E3.
    split; [exact E3|]. split; [unfold state_of; now rewrite P3|].
    split.
    { unfold state_of. rewrite (step_message st3 p _ _ _ P3). simpl.
      f_equal. now apply ready_resolves. }
    destruct (step_injection_done st3 p _ P3 eq_refl) as (P4 & M4 & _ & N4).
    set (st4 := step (InjectionDone p) st3) in *.
    assert (M4' : contentScriptReadyPromises st4 !! tabId = Some p)
      by (rewrite M4; exact M3).
    split; [|split].
    + intros dt Hdt. rewrite !run_cons, !run_nil. fold st4.
      assert (Hdue : due_at (now st4 + dt)
                       (arm (now st3) (set_phase AwaitInject (fresh_session tabId)))
                     = false).
      { simpl. apply Z.leb_gt. rewrite N4. unfold timeout_ms in *. lia. }
      destruct (step_elapse_kept st4 p _ dt P4 (proj1 Hdt) Hdue) as (P5 & _).
      split; [unfold state_of; now rewrite P5|].
      unfold state_of. rewrite (step_message _ p _ _ _ P5). simpl.
      f_equal. now apply ready_resolves.
    + intros dt Hdt. rewrite !run_cons, !run_nil. fold st4.
      destruct (step_elapse_expires st4 p _ (now st3 + timeout_ms) dt P4 eq_refl)
        as (_ & P5); [unfold timeout_ms in *; lia | rewrite N4; lia | exact M4' |].
      unfold state_of. now rewrite P5.
    + intros message.
      destruct (step_injection_failed st3 p _ message P3 eq_refl) as (P4' & _).
      unfold state_of. now rewrite P4'.
  - intros evs st p r. apply settled_stable.
  - intros e st tabId. unfold injections.
    destruct (step_effects e st) as [-> | [(t & -> & _ & ->) | (p & s & -> & Hp & Hph & -> & Hp')]].
    + now left.
    + left. rewrite List.filter_app. simpl. now rewrite app_nil_r.
    + rewrite List.filter_app, length_app. simpl.
      destruct (Z.eqb_spec (s_tab s) tabId) as [Ht | Hne].
      * right. exists p, s. repeat split; auto. simpl. lia.
      * left. simpl. lia.
  - intros evs evs' tabId p s st Hm Hp Hph Hend.
    apply (run_no_injection evs' tabId p st s); auto.
    apply run_consistent, consistent_init.
Qed.

Lemma ensureContentScriptLoaded_settles_once_witness :
  state_of 0 (run [InjectionDone 0%nat; Elapse 15000]
                (run [Call 7; Elapse 20; PingFailed 0%nat; Elapse 300] init))
  = Some (Rejected (timed_out 7)).
Proof.
  apply (proj1 (proj2 (proj2 (proj2 (proj2
           (proj1 (proj2 (proj2 ensureContentScriptLoaded_settles_once))
              init 7 20 300 eq_refl ltac:(lia) ltac:(lia)))))) 15000).
  unfold timeout_ms. lia.
Defined.

(** C6, as stated, fails: when [executeScript] rejects, the promise is
    rejected at once, with no ready announcement and before any time
    has passed, with an error that is not the one of the timeout. *)
Lemma injection_failure_rejects_at_once :
  let st := run [Call 7; PingFailed 0%nat;
                 InjectionFailed 0%nat "Cannot access contents of the page"] init in
  now st = 0
  /\ effects st = [Ping 7; Inject 7]
  /\ state_of 0 st
     = Some (Rejected (inject_failed "Cannot access contents of the page"))
  /\ state_of 0 st <> Some Fulfilled
  /\ state_of 0 st <> Some (Rejected (timed_out 7)).
Proof. vm_compute. repeat split; discriminate. Qed.

(** C10, amended.  (1) When the timer of a promise fires and the
    promise is the one stored for its tab, the entry is deleted,
    whether the promise is pending, fulfilled or rejected; until then
    the passing of time leaves the entry in place.  (2) No other event
    removes an entry: neither the answer to the ping nor the ready
    announcement.  (3) The timer is set when the ping has been
    answered, or when the injection has returned or failed, and fires
    15 s after that moment (not 15 s after the entry was created). *)
Theorem session_entry_lifetime :
  (forall st p s due dt,
      promises st !! p = Some s -> s_phase s = Armed due ->
      contentScriptReadyPromises st !! s_tab s = Some p -> 0 <= dt ->
      (now st + dt < due ->
       contentScriptReadyPromises (step (Elapse dt) st) !! s_tab s = Some p)
      /\ (due <= now st + dt ->
          contentScriptReadyPromises (step (Elapse dt) st) !! s_tab s = None))
  /\ (forall e st t p,
        (forall dt, e <> Elapse dt) ->
        contentScriptReadyPromises st !! t = Some p ->
        contentScriptReadyPromises (step e st) !! t = Some p)
  /\ (forall st p s,
        promises st !! p = Some s ->
        (s_phase s = AwaitPing ->
         s_phase <$> promises (step (PingAnswered p) st) !! p
         = Some (Armed (now st + timeout_ms)))
        /\ (s_phase s = AwaitInject ->
            s_phase <$> promises (step (InjectionDone p) st) !! p
            = Some (Armed (now st + timeout_ms))
            /\ forall message,
                s_phase <$> promises (step (InjectionFailed p message) st) !! p
                = Some (Armed (now st + timeout_ms)))).
Proof.
  split; [|split].
  - intros st p s due dt Hp Hph Hm Hdt. split; intros Hdue.
    + assert (Hd : due_at (now st + dt) s = false).
      { unfold due_at. rewrite Hph. apply Z.leb_gt. lia. }
      destruct (step_elapse_kept st p s dt Hp Hdt Hd) as (_ & M & _). auto.
    + now destruct (step_elapse_expires st p s due dt Hp Hph Hdt Hdue Hm).
  - intros e st t p. apply step_map_kept.
  - intros st p s Hp. split; [|split].
    + intros Hph. destruct (step_ping_answered st p s Hp Hph) as (-> & _).
      reflexivity.
    + destruct (step_injection_done st p s Hp H) as (-> & _). reflexivity.
    + intros message.
      destruct (step_injection_failed st p s message Hp H) as (-> & _).
      reflexivity.
Qed.

Lemma session_entry_lifetime_witness :
  contentScriptReadyPromises
    (step (Elapse 15000) (run [Call 7; Elapse 1000; PingAnswered 0%nat] init)) !! 7
  = None.
Proof.
  apply (proj2 (proj1 session_entry_lifetime
                  (run [Call 7; Elapse 1000; PingAnswered 0%nat] init) 0%nat
                  {| s_tab := 7; s_state := Fulfilled; s_phase := Armed 16000;
                     s_listening := false |}
                  16000 15000 eq_refl eq_refl eq_refl ltac:(lia))).
  vm_compute. discriminate.
Defined.

(** C10, as stated, fails: an entry created at time 0 whose ping is
    answered after one second is, 15.5 s after its creation, resolved
    and still in the map. *)
Lemma resolved_entry_outlives_15s :
  let st := run [Call 7; Elapse 1000; PingAnswered 0%nat; Elapse 14500] init in
  now init = 0
  /\ contentScriptReadyPromises (step (Call 7) init) !! 7 = Some 0%nat
  /\ now st = 15500
  /\ state_of 0 st = Some Fulfilled
  /\ contentScriptReadyPromises st !! 7 = Some 0%nat.
Proof. vm_compute. repeat split. Qed.

End HandshakeTheorems.

(** ** Submitting a question *)

Module PopupTheorems.
Import JsString Js Popup.
Local Open Scope list_scope.






End PopupTheorems.

(** ** The proxy invoker *)

Module ProxyTheorems.
Import JsString Js Proxy.
Local Open Scope list_scope.

(** What the listener sends back, for any gateway.  A request whose
    sender is not the active tab (no active tab, no sender tab, or
    different identifiers) is answered with
    [{success: false, error: "Invalid tab context for AI processing."}]
    and the gateway is not called.  A request from the active tab is
    turned into the prompt made of title, description, transcript and
    question, the gateway is called once with it, and the payload is
    [{success: true, answer}], [answer] being whatever the gateway
    returned, or [{success: false, error}] with the message of the
    error. *)
Lemma listener_replies
    (gateway : string -> outcome jsval)
    (currentTab senderTab : option Z) (m : message) :
  type m = "processManualTranscript" ->
  (currentTab = None \/ senderTab = None \/ currentTab <> senderTab ->
   after_return (listener (Some gateway) currentTab senderTab m)
   = [SendResponse (failure "Invalid tab context for AI processing.")])
  /\ (forall id v,
        currentTab = Some id -> senderTab = Some id -> videoData m = Some v ->
        after_return (listener (Some gateway) currentTab senderTab m)
        = [AskGateway (prompt_of v (question m));
           SendResponse
             match gateway (prompt_of v (question m)) with
             | Ret aiAnswer => success aiAnswer
             | Throw e =>
                 failure (if String.eqb e "" then "Failed to get AI response." else e)
             end]).
Proof.
  intros Ht. unfold listener. rewrite Ht. simpl. split.
  - intros H. destruct currentTab as [c|], senderTab as [f|]; try reflexivity.
    destruct (Z.eqb_spec f c) as [-> | Hne]; [|reflexivity].
    destruct H as [H | [H | H]]; try discriminate. now elim H.
  - intros id v -> -> Hv. rewrite Z.eqb_refl. simpl. unfold process.
    rewrite Hv. destruct (gateway _); reflexivity.
Qed.

(** C8.  Whatever the message, its sender and the gateway, the listener
    hands the runtime a promise and never the value [true], and it has
    sent no response when it returns: every response is sent after the
    channel was to be kept open.  For the request of the content script
    from the active tab: with the [callGeminiApi] of QTube_content.js
    in scope, the payload sent back has the keys [success] and [answer]
    only, the citations are inside [answer], and [timestamps] read on
    the payload is undefined; with QTube_popup.js as it is, where no
    [callGeminiApi] is defined, the payload is the failure that names
    the missing function, and the gateway is not called. *)
Theorem listener_returns_before_it_replies :
  (forall callGeminiApi currentTab senderTab m,
      keeps_channel_open (handed (listener callGeminiApi currentTab senderTab m))
      = false
      /\ responses (before_return (listener callGeminiApi currentTab senderTab m))
         = [])
  /\ (let r := listener (Some (gateway_answering Gateway.example_answer))
                 (Some 7) (Some 7) request in
      before_return r = [QueryActiveTab]
      /\ handed r = Promise (JBool true)
      /\ exists reply inner,
           responses (after_return r) = [reply]
           /\ keys reply = ["success"; "answer"]
           /\ get_prop reply "timestamps" = Ret JUndefined
           /\ get_prop reply "answer" = Ret inner
           /\ keys inner = ["answer"; "timestamps"])
  /\ after_return (listener None (Some 7) (Some 7) request)
     = [SendResponse (failure "callGeminiApi is not defined")].
Proof.
  split; [|split].
  - intros callGeminiApi currentTab senderTab m. unfold listener.
    destruct (String.eqb (type m) "processManualTranscript"); [|now split].
    destruct currentTab as [c|], senderTab as [f|]; try (now split).
    destruct (negb (f =? c)); now split.
  - cbv zeta. split; [reflexivity|]. split; [reflexivity|].
    do 2 eexists. vm_compute. repeat split.
  - reflexivity.
Qed.

End ProxyTheorems.

(** ** Delivery with retry: bounds and the shape of a run *)

Module DeliveryBounds.
Import JsString Js Delivery.
Local Open Scope list_scope.

Lemma round_continue_lt (retries i : Z) (message : jsval) (a : attempt) :
  round retries i message a = Continue -> i < retries.
Proof.
  destruct a as [r | m | m]; cbn [round]; unfold catch_clause;
    destruct (label message); destruct (Z.ltb_spec i retries);
    simpl; try discriminate; auto.
Qed.

Lemma round_return (retries i : Z) (message : jsval) (a : attempt) (r : jsval) :
  round retries i message a = Return r -> a = Delivered r.
Proof.
  destruct a as [r' | m | m]; cbn [round]; unfold catch_clause.
  - congruence.
  - destruct (label message); destruct (i <? retries); simpl; discriminate.
  - destruct (label message); [|discriminate].
    destruct ((i <? retries) && _); discriminate.
Qed.

Lemma round_raise (retries i : Z) (message : jsval) (a : attempt) (e : string) :
  describable message ->
  round retries i message a = Raise e ->
  exists detail,
    e = ("Failed to send message after " ++ of_number (retries + 1)
         ++ " attempts: " ++ detail)%string.
Proof.
  intros Hd. rewrite DeliveryTheorems.round_describable by exact Hd.
  destruct a as [r | m | m].
  - discriminate.
  - destruct (i <? retries); [discriminate|]. intros H. injection H as <-.
    unfold failed_after. eauto.
  - destruct ((i <? retries) && _); [discriminate|]. intros H. injection H as <-.
    unfold failed_after. eauto.
Qed.

Section Shape.
Variables (env : Z -> attempt) (tabId : Z) (message : jsval).
Variables (retries delay : Z).
Hypothesis Hd : describable message.

Lemma loop_shape (k : nat) :
  forall i, i + Z.of_nat k = retries ->
    exists n, (n <= k)%nat
      /\ snd (loop (S k) env tabId message retries delay i)
         = retried n tabId message delay ++ [Send tabId message]
      /\ (forall j, i <= j < i + Z.of_nat n ->
            round retries j message (env j) = Continue)
      /\ match fst (loop (S k) env tabId message retries delay i) with
         | Ret r => env (i + Z.of_nat n) = Delivered r
         | Throw e =>
             (exists detail,
                e = ("Failed to send message after " ++ of_number (retries + 1)
                     ++ " attempts: " ++ detail)%string)
             /\ forall r, env (i + Z.of_nat n) <> Delivered r
         end.
Proof.
  induction k as [|k IH]; intros i Hi.
  - exists 0%nat. cbn [loop].
    destruct (round retries i message (env i)) eqn:E.
    + apply round_continue_lt in E. lia.
    + apply round_return in E. simpl. rewrite Z.add_0_r.
      repeat split; auto. intros j Hj. lia.
    + pose proof (round_raise _ _ _ _ _ Hd E) as Hx. simpl. rewrite Z.add_0_r.
      repeat split; auto; [lia|]. intros r Hr. rewrite Hr in E. discriminate E.
  - destruct (round retries i message (env i)) eqn:E.
    + destruct (IH (i + 1)) as (n & Hn & Ht & Hc & Hr); [lia|].
      exists (S n). rewrite (DeliveryTheorems.loop_continue _ _ _ _ _ _ _ E).
      cbn [fst snd]. split; [lia|]. split; [cbn [retried]; rewrite Ht; reflexivity|]. split.
      * intros j Hj. destruct (Z.eq_dec j i) as [-> | Hne]; [exact E|].
        apply Hc. lia.
      * replace (i + Z.of_nat (S n)) with (i + 1 + Z.of_nat n) by lia.
        exact Hr.
    + exists 0%nat. cbn [loop]. rewrite E. apply round_return in E. simpl.
      rewrite Z.add_0_r. repeat split; auto; lia.
    + exists 0%nat. cbn [loop]. rewrite E.
      pose proof (round_raise _ _ _ _ _ Hd E) as Hx. simpl. rewrite Z.add_0_r.
      repeat split; auto; try lia. intros r Hr. rewrite Hr in E. discriminate E.
Qed.

Lemma loop_lastError (m : string) (k : nat) :
  forall i, i + Z.of_nat k = retries ->
    (forall j, i <= j <= retries -> env j = LastError m) ->
    loop (S k) env tabId message retries delay i
    = (Throw ("Failed to send message after " ++ of_number (retries + 1)
              ++ " attempts: "
              ++ "Failed to send message after " ++ of_number (retries + 1)
              ++ " attempts: "
              ++ (if String.eqb m "" then "Unknown connection error" else m)),
       retried k tabId message delay ++ [Send tabId message]).
Proof.
  induction k as [|k IH]; intros i Hi Hall.
  - cbn [loop]. rewrite DeliveryTheorems.round_describable by exact Hd.
    rewrite Hall by lia.
    replace i with retries by lia. now rewrite Z.ltb_irrefl.
  - rewrite DeliveryTheorems.loop_continue.
    + rewrite IH; [reflexivity | lia | intros j Hj; apply Hall; lia].
    + rewrite DeliveryTheorems.round_describable by exact Hd.
      rewrite Hall by lia.
      destruct (Z.ltb_spec i retries); [reflexivity | lia].
Qed.

End Shape.

(** X1. For a message that the warnings can name: whatever happens to
    the attempts, with [retries] not negative the function sends at
    least once and at most [retries + 1] times, waits [delay] between
    two attempts and never after the last one, and ends either with the
    response of the last attempt or with the error that names the
    number of attempts; the final [throw] after the loop is never
    reached.  For a message that the warnings cannot name, such as
    [null] or [undefined], the first attempt is the only one: its
    response is returned, and its failure, of whatever kind, ends the
    function with the TypeError of the warning.  With a negative
    [retries] nothing is sent and the final [throw] is the result. *)
Theorem sendMessageWithRetry_bounds
    (env : Z -> attempt) (tabId : Z) (message : jsval) (retries delay : Z) :
  (describable message -> 0 <= retries ->
   exists n,
     Z.of_nat n <= retries
     /\ snd (sendMessageWithRetry env tabId message retries delay)
        = retried n tabId message delay ++ [Send tabId message]
     /\ match fst (sendMessageWithRetry env tabId message retries delay) with
        | Ret r => env (Z.of_nat n) = Delivered r
        | Throw e =>
            exists detail,
              e = ("Failed to send message after " ++ of_number (retries + 1)
                   ++ " attempts: " ++ detail)%string
        end)
  /\ (forall t, label message = Throw t -> 0 <= retries ->
        sendMessageWithRetry env tabId message retries delay
        = (match env 0 with
           | Delivered r => Ret r
           | _ => Throw t
           end, [Send tabId message]))
  /\ (retries < 0 ->
      sendMessageWithRetry env tabId message retries delay
      = (Throw "sendMessageWithRetry failed without explicit error after all retries.",
         [])).
Proof.
  split; [|split]; unfold sendMessageWithRetry.
  - intros Hd Hr.
    replace (Z.to_nat (retries + 1)) with (S (Z.to_nat retries)) by lia.
    destruct (loop_shape env tabId message retries delay Hd (Z.to_nat retries) 0)
      as (n & Hn & Ht & _ & Hres); [lia|].
    exists n. split; [lia|]. split; [exact Ht|].
    destruct (fst (loop _ _ _ _ _ _ _)); [exact Hres | apply Hres].
  - intros t Ht Hr.
    replace (Z.to_nat (retries + 1)) with (S (Z.to_nat retries)) by lia.
    cbn [loop]. rewrite (DeliveryTheorems.round_indescribable _ _ _ _ t Ht).
    now destruct (env 0).
  - intros Hr. replace (Z.to_nat (retries + 1)) with 0%nat by lia. reflexivity.
Qed.

Lemma sendMessageWithRetry_bounds_witness :
  (exists n,
     Z.of_nat n <= 2
     /\ snd (sendMessageWithRetry (fun _ => Rejected no_receiver) 7 ping 2 500)
        = retried n 7 ping 500 ++ [Send 7 ping]
     /\ match fst (sendMessageWithRetry (fun _ => Rejected no_receiver) 7 ping 2 500) with
        | Ret r => Rejected no_receiver = Delivered r
        | Throw e =>
            exists detail,
              e = ("Failed to send message after " ++ of_number (2 + 1)
                   ++ " attempts: " ++ detail)%string
        end)
  /\ sendMessageWithRetry (fun _ => Rejected no_receiver) 7 JNull 2 500
     = (Throw "Cannot read properties of null (reading 'action')", [Send 7 JNull])
  /\ sendMessageWithRetry (fun _ => Rejected no_receiver) 7 ping (-1) 500
     = (Throw "sendMessageWithRetry failed without explicit error after all retries.",
        []).
Proof.
  split; [|split].
  - apply (proj1 (sendMessageWithRetry_bounds (fun _ => Rejected no_receiver)
                    7 ping 2 500)); [exact DeliveryTheorems.describable_ping | lia].
  - apply (proj1 (proj2 (sendMessageWithRetry_bounds (fun _ => Rejected no_receiver)
                           7 JNull 2 500))
             "Cannot read properties of null (reading 'action')");
      [reflexivity | lia].
  - apply (proj2 (proj2 (sendMessageWithRetry_bounds (fun _ => Rejected no_receiver)
                           7 ping (-1) 500))).
    lia.
Defined.

(** X2. For a message that the warnings can name: when every attempt
    ends with [chrome.runtime.lastError] set, the error thrown after the
    last one carries the prefix twice: the [throw] of the last-error
    path is inside the [try], so the [catch] clause wraps its message
    again. *)
Theorem lastError_exhaustion_wraps_twice
    (env : Z -> attempt) (tabId : Z) (message : jsval) (retries delay : Z)
    (m : string) :
  describable message ->
  0 <= retries ->
  (forall i, 0 <= i <= retries -> env i = LastError m) ->
  sendMessageWithRetry env tabId message retries delay
  = (Throw ("Failed to send message after " ++ of_number (retries + 1)
            ++ " attempts: "
            ++ "Failed to send message after " ++ of_number (retries + 1)
            ++ " attempts: "
            ++ (if String.eqb m "" then "Unknown connection error" else m)),
     retried (Z.to_nat retries) tabId message delay ++ [Send tabId message]).
Proof.
  intros Hd Hr Hall. unfold sendMessageWithRetry.
  replace (Z.to_nat (retries + 1)) with (S (Z.to_nat retries)) by lia.
  apply loop_lastError; [exact Hd | lia | exact Hall].
Qed.

Lemma lastError_exhaustion_wraps_twice_witness :
  sendMessageWithRetry (fun _ => LastError port_closed) 7 ping 1 500
  = (Throw ("Failed to send message after 2 attempts: "
            ++ "Failed to send message after 2 attempts: " ++ port_closed),
     [Send 7 ping; Wait 500; Send 7 ping]).
Proof.
  apply (lastError_exhaustion_wraps_twice (fun _ => LastError port_closed)
           7 ping 1 500 port_closed);
    [exact DeliveryTheorems.describable_ping | lia | reflexivity].
Defined.

End DeliveryBounds.

(** ** The polling loop and the players it meets *)

Module PollingFacts.
Import JsString Js Bridge BridgeFacts Polling.
Local Open Scope list_scope.














End PollingFacts.

Module PollingTheorems.
Import JsString Js Bridge BridgeFacts Polling PollingFacts.
Local Open Scope list_scope.





(** X4. Once the gate is open the queue is out of use: a seek event that
    arrives while the readiness check fails (the player reports
    unstarted or cued, or has lost a method) is neither carried out nor
    queued, and no error is reported; the command is lost. *)
Theorem seek_lost_after_gate (pg : page) (t : Z) :
  playerReady pg = true -> listening pg = true ->
  fst (isYouTubePlayerAPIReady pg) = Ret false ->
  commands (calls (step (SeekEvent t) pg)) = commands (calls pg)
  /\ commandQueue (step (SeekEvent t) pg) = commandQueue pg
  /\ playerReady (step (SeekEvent t) pg) = true
  /\ uncaught (step (SeekEvent t) pg) = uncaught pg.
Proof.
  intros Hr Hl Hc. simpl. rewrite Hl. unfold run_task, on_seek. rewrite Hr.
  pose proof (isYouTubePlayerAPIReady_frames pg) as Hf.
  destruct (isYouTubePlayerAPIReady pg) as [[r | e] pg1] eqn:E; simpl in Hc, Hf;
    [|discriminate Hc].
  injection Hc as ->.
  assert (Hp : processSeekCommand t pg = (Ret false, pg1)).
  { unfold processSeekCommand. now rewrite (bind_run _ _ _ _ _ E). }
  rewrite (bind_run _ _ _ _ _ Hp). simpl.
  pose proof (extends_quiet_commands _ _ Hf) as Hq.
  apply extends_fields in Hf as (_ & F2 & F3 & _ & _ & F6).
  repeat split; congruence.
Qed.

Lemma seek_lost_after_gate_witness :
  let pg := run [PlayerChange (player_in_state 5)] (inject (player_in_state 1)) in
  commands (calls (step (SeekEvent 30) pg)) = commands (calls pg)
  /\ commandQueue (step (SeekEvent 30) pg) = commandQueue pg
  /\ playerReady (step (SeekEvent 30) pg) = true
  /\ uncaught (step (SeekEvent 30) pg) = uncaught pg.
Proof.
  apply (seek_lost_after_gate
           (run [PlayerChange (player_in_state 5)] (inject (player_in_state 1))) 30);
    reflexivity.
Defined.

End PollingTheorems.

(** ** The answer and the errors of [callGeminiApi] *)

Module CleaningFacts.
Import JsString JsStringFacts Gateway CitationGrammar GatewayFacts Cleaning.

Lemma starts_with_app_l (p a b : string) :
  starts_with p a = true -> starts_with p (a ++ b) = true.
Proof.
  revert a. induction p as [|c p IH]; intros a H; [reflexivity|].
  destruct a as [|d a]; [discriminate|]. simpl in *.
  apply andb_prop in H as [H1 H2]. rewrite H1. simpl. now apply IH.
Qed.

Lemma includes_app_l (a b p : string) :
  includes a p = true -> includes (a ++ b) p = true.
Proof.
  induction a as [|c a IH]; simpl; intros H.
  - rewrite orb_false_r in H. destruct p; [|discriminate].
    destruct b; reflexivity.
  - apply orb_prop in H as [H | H].
    + pose proof (starts_with_app_l p (String c a) b H) as K. simpl in K.
      now rewrite K.
    + rewrite (IH H). apply orb_true_r.
Qed.

Lemma includes_trimStart (s p : string) :
  includes (trimStart s) p = true -> includes s p = true.
Proof.
  induction s as [|c s IH]; [auto|].
  cbn [trimStart]. destruct (is_space c); [|auto].
  intros H. cbn [includes]. rewrite (IH H). apply orb_true_r.
Qed.

Lemma trimEnd_prefix (s : string) : exists w, s = trimEnd s ++ w.
Proof.
  induction s as [|c s [w IH]]; [now exists ""|].
  cbn [trimEnd]. destruct (trimEnd s) as [|d t].
  - destruct (is_space c).
    + now exists (String c s).
    + exists s. reflexivity.
  - exists w. simpl. simpl in IH. now rewrite <- IH.
Qed.

Lemma includes_trim (s p : string) :
  includes (trim s) p = true -> includes s p = true.
Proof.
  unfold trim. intros H. apply includes_trimStart.
  destruct (trimEnd_prefix (trimStart s)) as [w Hw]. rewrite Hw.
  now apply includes_app_l.
Qed.

Lemma collapse_skip (k : nat) :
  forall s, collapse_blank k s = collapse_blank 0 (drop k s).
Proof.
  induction k as [|k IH]; intros s; [reflexivity|].
  destruct s as [|c r]; [reflexivity|]. cbn [collapse_blank drop]. apply IH.
Qed.

Lemma blank_run_lf (c : ascii) (r : string) :
  is_lf c = true -> blank_run (String c r) <> None.
Proof.
  intros H. cbn [blank_run].
  assert (Hs : is_space c = true) by (apply is_lf_eq in H; now subst).
  rewrite Hs, H. destruct (blank_run r); discriminate.
Qed.

Lemma blank_run_none_start (r : string) :
  blank_run r = None -> no_lf_start (collapse_blank 0 r) = true.
Proof.
  destruct r as [|c r]; [reflexivity|]. intros H.
  destruct (is_lf c) eqn:E; [now elim (blank_run_lf c r E)|].
  cbn [collapse_blank]. rewrite E. simpl. now rewrite E.
Qed.

Lemma blank_run_rest (r : string) :
  forall k, blank_run r = Some k ->
    blank_run (drop k r) = None /\ (0 < k <= String.length r)%nat.
Proof.
  induction r as [|c r IH]; intros k H; [discriminate|].
  cbn [blank_run] in H. destruct (is_space c); [|discriminate].
  destruct (blank_run r) as [k'|] eqn:E.
  - injection H as <-. destruct (IH k' eq_refl) as [H1 H2].
    cbn [drop String.length]. split; [exact H1 | lia].
  - destruct (is_lf c); [|discriminate]. injection H as <-.
    cbn [drop String.length]. split; [exact E | lia].
Qed.

Lemma eqb_lf (c : ascii) : Ascii.eqb "010" c = is_lf c.
Proof.
  destruct (Ascii.eqb_spec "010" c) as [<- | Hne]; [reflexivity|].
  destruct (is_lf c) eqn:E; [|reflexivity].
  apply is_lf_eq in E. now subst.
Qed.

Lemma starts_LF3_cons (c : ascii) (x : string) :
  is_lf c = false -> starts_with LF3 (String c x) = false.
Proof.
  intros H.
  change (starts_with LF3 (String c x))
    with (Ascii.eqb "010" c && starts_with (LF ++ LF) x).
  now rewrite eqb_lf, H.
Qed.

Lemma starts_LF_no_lf (p x : string) :
  no_lf_start x = true -> starts_with (LF ++ p) x = false.
Proof.
  destruct x as [|d x]; [reflexivity|]. intros H.
  change (starts_with (LF ++ p) (String d x))
    with (Ascii.eqb "010" d && starts_with p x).
  rewrite eqb_lf. simpl in H. now destruct (is_lf d).
Qed.

Lemma starts_LF3_one (x : string) :
  no_lf_start x = true -> starts_with LF3 (LF ++ x) = false.
Proof.
  intros H.
  change (starts_with LF3 (LF ++ x))
    with (Ascii.eqb "010" "010" && starts_with (LF ++ LF) x).
  rewrite (starts_LF_no_lf LF x H). apply andb_false_r.
Qed.

Lemma starts_LF3_two (x : string) :
  no_lf_start x = true -> starts_with LF3 (LF ++ LF ++ x) = false.
Proof.
  intros H.
  change (starts_with LF3 (LF ++ LF ++ x))
    with (Ascii.eqb "010" "010" && (Ascii.eqb "010" "010" && starts_with LF x)).
  change LF with (LF ++ "") at 1.
  rewrite (starts_LF_no_lf "" x H). now rewrite !andb_false_r.
Qed.

(** The replacement of line 213 leaves no three line feeds in a row. *)
Lemma collapse_no_triple (n : nat) :
  forall s, (String.length s <= n)%nat ->
    includes (collapse_blank 0 s) LF3 = false.
Proof.
  induction n as [|n IH]; intros s Hn.
  - destruct s; [reflexivity | simpl in Hn; lia].
  - destruct s as [|c r]; [reflexivity|]. simpl in Hn.
    cbn [collapse_blank]. destruct (is_lf c) eqn:E.
    + destruct (blank_run r) as [k|] eqn:B.
      * destruct (blank_run_rest r k B) as [B' Hk].
        rewrite collapse_skip.
        pose proof (blank_run_none_start _ B') as Hs.
        assert (Hi : includes (collapse_blank 0 (drop k r)) LF3 = false).
        { apply IH. rewrite length_drop. lia. }
        set (x := collapse_blank 0 (drop k r)) in *.
        change (LF ++ LF ++ x) with (String (ascii_of_nat 10) (LF ++ x)).
        cbn [includes].
        change (String (ascii_of_nat 10) (LF ++ x)) with (LF ++ LF ++ x).
        rewrite (starts_LF3_two x Hs). cbn [orb].
        change (LF ++ x) with (String (ascii_of_nat 10) x).
        cbn [includes]. change (String (ascii_of_nat 10) x) with (LF ++ x).
        now rewrite (starts_LF3_one x Hs), Hi.
      * pose proof (blank_run_none_start _ B) as Hs.
        assert (Hi : includes (collapse_blank 0 r) LF3 = false)
          by (apply IH; lia).
        apply is_lf_eq in E. subst c.
        set (x := collapse_blank 0 r) in *. cbn [includes].
        change (String "010" x) with (LF ++ x).
        now rewrite (starts_LF3_one x Hs), Hi.
    + cbn [includes]. rewrite (starts_LF3_cons c _ E). simpl.
      apply IH. lia.
Qed.

(** A result comes from the scan of some answer text. *)
Lemma callGeminiApi_parse (response : http_response) (r : parsed) :
  callGeminiApi response = Ret r -> exists s, parse s = Some r.
Proof.
  unfold callGeminiApi, and_then, invalid_structure. intros H.
  repeat break_match; try discriminate H.
  injection H as <-. eauto.
Qed.

Lemma parse_answer (s : string) (r : parsed) :
  parse s = Some r ->
  exists occs clean,
    r = {| answer := trim (collapse_blank 0 clean);
           timestamps := map citation_spec occs |}
    /\ reading s 0 occs.
Proof.
  unfold parse. intros H.
  destruct (parse_loop_reading (S (String.length s)) s 0 [] s)
    as (occs & clean & Hloop & Hread); [lia | lia |].
  rewrite Hloop in H. injection H as <-. eauto.
Qed.

Lemma reading_occurs (text : string) (L : nat) (occs : list occurrence) :
  reading text L occs -> Forall (occurs_in text) occs.
Proof. induction 1; constructor; auto. Qed.

Lemma drop_includes (k : nat) :
  forall s c r, drop k s = String c r -> includes s (String c "") = true.
Proof.
  induction k as [|k IH]; intros s c r H.
  - simpl in H. subst s. cbn [includes starts_with].
    now rewrite Ascii.eqb_refl.
  - destruct s as [|d s]; [discriminate H|]. cbn [drop] in H.
    cbn [includes]. rewrite (IH _ _ _ H). apply orb_true_r.
Qed.

Lemma search_no_bracket (s : string) (i : nat) :
  includes s "[" = false -> search s i = None.
Proof.
  intros H. destruct (search s i) as [[j m]|] eqn:E; [|reflexivity].
  apply search_some in E as (k & _ & _ & Hm & _).
  apply match_here_bracket in Hm as [r0 Hr].
  apply drop_includes in Hr. congruence.
Qed.

Lemma digit_value_range (c : ascii) :
  is_digit c = true -> 0 <= digit_value c <= 9.
Proof.
  intros H. apply is_digit_cases in H. simpl in H.
  repeat (destruct H as [<- | H]; [vm_compute; split; discriminate|]).
  contradiction.
Qed.

Lemma digits_value_range (s : string) :
  all_chars is_digit s = true -> one_or_two s -> 0 <= digits_value s <= 99.
Proof.
  intros Hd [Hl | Hl].
  - destruct s as [|a [|b s]]; try discriminate Hl. simpl in Hd.
    rewrite andb_true_r in Hd. pose proof (digit_value_range a Hd).
    cbn [digits_value]. lia.
  - destruct s as [|a [|b [|c s]]]; try discriminate Hl. simpl in Hd.
    rewrite andb_true_r in Hd. apply andb_prop in Hd as [Ha Hb].
    pose proof (digit_value_range a Ha). pose proof (digit_value_range b Hb).
    cbn [digits_value]. lia.
Qed.

Lemma zero_padded_facts (s : string) :
  all_chars is_digit s = true -> one_or_two s ->
  all_chars is_digit (zero_padded s) = true
  /\ String.length (zero_padded s) = 2%nat
  /\ digits_value (zero_padded s) = digits_value s.
Proof.
  intros Hd [Hl | Hl].
  - destruct s as [|a [|b s]]; try discriminate Hl.
    cbn [zero_padded]. split; [exact Hd|]. split; [reflexivity|].
    cbn [digits_value]. change (digit_value "0") with 0. lia.
  - destruct s as [|a [|b [|c s]]]; try discriminate Hl. now repeat split.
Qed.

End CleaningFacts.

Module GatewayEdges.
Import JsString JsStringFacts Js Gateway CitationGrammar GatewayFacts Cleaning CleaningFacts.

(** X5. Whatever the response, the answer that [callGeminiApi] returns
    never contains three line feeds in a row: the final replacement
    turns every run of blank lines into one empty line. *)
Theorem answer_has_no_three_line_feeds (response : http_response) (r : parsed) :
  callGeminiApi response = Ret r ->
  includes (answer r) (LF ++ LF ++ LF) = false.
Proof.
  intros H. apply callGeminiApi_parse in H as [s Hs].
  apply parse_answer in Hs as (occs & clean & -> & _). cbn [answer].
  destruct (includes (trim (collapse_blank 0 clean)) (LF ++ LF ++ LF)) eqn:E;
    [|reflexivity].
  apply includes_trim in E.
  pose proof (collapse_no_triple (String.length clean) clean (Nat.le_refl _)) as K.
  unfold LF3 in K. congruence.
Qed.

Lemma answer_has_no_three_line_feeds_witness :
  includes ("one" ++ LF ++ LF ++ "two") (LF ++ LF ++ LF) = false.
Proof.
  apply (answer_has_no_three_line_feeds
           (envelope ("one" ++ LF ++ " " ++ LF ++ LF ++ LF ++ "two"))
           {| answer := "one" ++ LF ++ LF ++ "two"; timestamps := [] |}).
  reflexivity.
Defined.

(** X6. A text without an opening bracket has no citation: the answer
    is the text itself, trimmed and with its blank lines collapsed; in
    particular the empty text gives the empty answer. *)
Theorem text_without_bracket (fullAiAnswer : string) :
  includes fullAiAnswer "[" = false ->
  callGeminiApi (envelope fullAiAnswer)
  = Ret {| answer := trim (collapse_blank 0 fullAiAnswer); timestamps := [] |}.
Proof.
  intros H. rewrite GatewayTheorems.callGeminiApi_envelope.
  unfold parse. cbn [parse_loop]. unfold exec. cbn [Nat.ltb Nat.leb drop].
  now rewrite (search_no_bracket _ _ H).
Qed.

Lemma text_without_bracket_witness :
  callGeminiApi (envelope "")
  = Ret {| answer := ""; timestamps := [] |}.
Proof. apply (text_without_bracket ""). reflexivity. Defined.

(** X7. Every citation that [callGeminiApi] returns has a time between
    0 and 6039 seconds (99:99) and a label of five characters, and the
    label reads back: put in brackets and parsed again, it gives the
    same time and the same label. *)
Theorem citation_label_reads_back
    (response : http_response) (r : parsed) (c : citation) :
  callGeminiApi response = Ret r -> In c (timestamps r) ->
  0 <= time c <= 6039
  /\ String.length (timestamp c) = 5%nat
  /\ callGeminiApi (envelope ("[" ++ timestamp c ++ "]"))
     = Ret {| answer := "";
              timestamps := [ {| time := time c; timestamp := timestamp c;
                                 text := "" |} ] |}.
Proof.
  intros H Hin. apply callGeminiApi_parse in H as [s Hs].
  apply parse_answer in Hs as (occs & clean & -> & Hread).
  cbn [timestamps] in Hin. apply in_map_iff in Hin as (o & <- & Ho).
  pose proof (reading_occurs _ _ _ Hread) as Hall.
  rewrite List.Forall_forall in Hall. specialize (Hall o Ho).
  destruct Hall as (rest & _ & _ & Hm & Hm1 & Hs & Hs1 & _).
  destruct (zero_padded_facts (o_minutes o) Hm Hm1) as (Z1 & Z2 & Z3).
  pose proof (digits_value_range _ Hm Hm1) as R1.
  pose proof (digits_value_range (o_seconds o) Hs (or_intror Hs1)) as R2.
  cbn [citation_spec time timestamp].
  rewrite (zero_padded_two (o_seconds o) Hs1).
  split; [lia|]. split.
  - rewrite !length_app, Z2, Hs1. reflexivity.
  - rewrite GatewayTheorems.callGeminiApi_envelope.
    replace ("[" ++ (zero_padded (o_minutes o) ++ ":" ++ o_seconds o) ++ "]")
      with ("[" ++ zero_padded (o_minutes o) ++ ":" ++ o_seconds o ++ "]")
      by (now rewrite !app_assoc).
    rewrite (GatewayTheorems.parse_single _ _ Z1 (or_intror Z2) Hs Hs1).
    rewrite Z3, (zero_padded_two _ Z2). reflexivity.
Qed.

Lemma citation_label_reads_back_witness :
  0 <= 425 <= 6039
  /\ String.length "07:05" = 5%nat
  /\ callGeminiApi (envelope ("[" ++ "07:05" ++ "]"))
     = Ret {| answer := "";
              timestamps := [ {| time := 425; timestamp := "07:05"; text := "" |} ] |}.
Proof.
  apply (citation_label_reads_back
           (envelope ("See [7:05] - the proof" ++ LF ++ "and more"))
           {| answer := "See and more";
              timestamps := [ {| time := 425; timestamp := "07:05";
                                 text := "the proof" |} ] |}
           {| time := 425; timestamp := "07:05"; text := "the proof" |}).
  - reflexivity.
  - now left.
Defined.

(** X8. What [callGeminiApi] throws.  A response that is not ok gives
    the error with the status and the body, whatever the body holds.
    An ok response whose [candidates] is missing, [null] or empty gives
    the error of the invalid structure; but a first candidate that is
    [null], or a first part without a [text], gives a TypeError: the
    test of the structure reads through the first and the cleaning calls
    [replace] on the second. *)
Theorem callGeminiApi_errors (response : http_response) :
  (r_ok response = false ->
   callGeminiApi response
   = Throw ("Gemini API request failed: " ++ of_number (r_status response)
            ++ " " ++ r_text response))
  /\ (forall props,
        r_ok response = true -> r_json response = JObj props ->
        (lookup_prop props "candidates" = JUndefined
         \/ lookup_prop props "candidates" = JNull
         \/ lookup_prop props "candidates" = JArr [] ->
         callGeminiApi response = Throw "AI response structure invalid or empty.")
        /\ (forall rest,
              lookup_prop props "candidates" = JArr (JNull :: rest) ->
              callGeminiApi response
              = Throw "Cannot read properties of null (reading 'content')")
        /\ (forall rest cprops pprops rest' part,
              lookup_prop props "candidates" = JArr (JObj cprops :: rest) ->
              lookup_prop cprops "content" = JObj pprops ->
              lookup_prop pprops "parts" = JArr (JObj part :: rest') ->
              lookup_prop part "text" = JUndefined ->
              callGeminiApi response
              = Throw "Cannot read properties of undefined (reading 'replace')")).
Proof.
  split.
  - intros H. unfold callGeminiApi. now rewrite H.
  - intros props Hok Hj. unfold callGeminiApi. rewrite Hok, Hj. cbn [negb get_prop and_then].
    split; [|split].
    + intros [-> | [-> | ->]]; reflexivity.
    + intros rest ->. reflexivity.
    + intros rest cprops pprops rest' part -> . cbn. intros ->. cbn.
      intros ->. cbn. now intros ->.
Qed.

Lemma callGeminiApi_errors_witness :
  callGeminiApi {| r_ok := false; r_status := 429; r_text := "quota";
                   r_json := JObj [] |}
  = Throw "Gemini API request failed: 429 quota"
  /\ callGeminiApi {| r_ok := true; r_status := 200; r_text := "";
                      r_json := JObj [("candidates", JArr [])] |}
     = Throw "AI response structure invalid or empty."
  /\ callGeminiApi {| r_ok := true; r_status := 200; r_text := "";
                      r_json := JObj [("candidates", JArr [JNull])] |}
     = Throw "Cannot read properties of null (reading 'content')"
  /\ callGeminiApi
       {| r_ok := true; r_status := 200; r_text := "";
          r_json :=
            JObj [("candidates",
                   JArr [JObj [("content",
                     JObj [("parts", JArr [JObj [("inlineData", JStr "...")]])])]])] |}
     = Throw "Cannot read properties of undefined (reading 'replace')".
Proof.
  split; [|split; [|split]].
  - apply (proj1 (callGeminiApi_errors
                    {| r_ok := false; r_status := 429; r_text := "quota";
                       r_json := JObj [] |})).
    reflexivity.
  - apply (proj1 (proj2 (callGeminiApi_errors
                    {| r_ok := true; r_status := 200; r_text := "";
                       r_json := JObj [("candidates", JArr [])] |})
                  [("candidates", JArr [])] eq_refl eq_refl)).
    right; right. reflexivity.
  - apply (proj1 (proj2 (proj2 (callGeminiApi_errors
                    {| r_ok := true; r_status := 200; r_text := "";
                       r_json := JObj [("candidates", JArr [JNull])] |})
                  [("candidates", JArr [JNull])] eq_refl eq_refl)) []).
    reflexivity.
  - apply (proj2 (proj2 (proj2 (callGeminiApi_errors
                    {| r_ok := true; r_status := 200; r_text := "";
                       r_json :=
                         JObj [("candidates",
                                JArr [JObj [("content",
                                  JObj [("parts",
                                         JArr [JObj [("inlineData", JStr "...")]])])]])] |})
                  _ eq_refl eq_refl)) [] _ _ [] [("inlineData", JStr "...")]
             eq_refl eq_refl eq_refl eq_refl).
Defined.

End GatewayEdges.

(** ** The map of pending handshakes *)

Module HandshakeMapFacts.
Import JsString Handshake HandshakeFacts HandshakeMap.
Local Open Scope list_scope.

Lemma stored_live_init : stored_live init.
Proof. intros t p H. simpl in H. now rewrite lookup_empty in H. Qed.

(** Changing one promise without touching its tab or letting its timer
    fire. *)
Lemma stored_live_alter (f : session -> session) (q : nat) st st' :
  stored_live st ->
  contentScriptReadyPromises st' = contentScriptReadyPromises st ->
  promises st' = alter f q (promises st) ->
  (forall x, s_tab (f x) = s_tab x /\ s_phase (f x) <> Expired) ->
  stored_live st'.
Proof.
  intros Hs Hm Hp Hf t p H. rewrite Hm in H.
  destruct (Hs t p H) as (s & Hl & Ht & Hph). rewrite Hp.
  destruct (decide (q = p)) as [-> | Hne].
  - exists (f s). rewrite list_lookup_alter_eq, Hl. simpl.
    destruct (Hf s) as [F1 F2]. split; [reflexivity|]. split; [congruence | exact F2].
  - exists s. rewrite list_lookup_alter_ne by exact Hne. auto.
Qed.

Lemma on_timeout_stored_live (q : nat) st :
  stored_live st -> stored_live (on_timeout q st).
Proof.
  intros Hs. unfold on_timeout.
  destruct (promises st !! q) as [sq|] eqn:Hq; [|exact Hs].
  destruct (decide _) as [Hd | Hd].
  - intros t p H. simpl in H. apply lookup_delete_Some in H as [Hne H].
    destruct (Hs t p H) as (s & Hl & Ht & Hph). exists s. simpl.
    rewrite list_lookup_alter_ne; [auto|].
    intros ->. rewrite Hq in Hl. injection Hl as ->. congruence.
  - intros t p H. unfold update, set_promises in *. simpl in *.
    destruct (Hs t p H) as (s & Hl & Ht & Hph). exists s.
    rewrite list_lookup_alter_ne; [auto|].
    intros ->. rewrite Hq in Hl. injection Hl as ->. subst t. contradiction.
Qed.

Lemma fires_stored_live (ps : list nat) :
  forall st, stored_live st -> stored_live (fires ps st).
Proof.
  induction ps as [|p ps IH]; intros st Hs; [exact Hs|].
  change (fires (p :: ps) st) with (fires ps (fire_one p st)).
  apply IH. unfold fire_one. destruct (promises st !! p) as [s|]; [|exact Hs].
  destruct (due_at _ _); [now apply on_timeout_stored_live | exact Hs].
Qed.

Lemma readyListener_keeps sender type s :
  s_tab (readyListener sender type s) = s_tab s
  /\ s_phase (readyListener sender type s) = s_phase s.
Proof.
  unfold readyListener. destruct (s_listening s); [|auto].
  destruct sender; [|auto]. destruct (_ && _); [|auto].
  unfold resolve. simpl. destruct (s_state s); auto.
Qed.

Lemma resolve_keeps s : s_tab (resolve s) = s_tab s /\ s_phase (resolve s) = s_phase s.
Proof. unfold resolve. destruct (s_state s); auto. Qed.

Lemma reject_keeps r s : s_tab (reject r s) = s_tab s /\ s_phase (reject r s) = s_phase s.
Proof. unfold reject. destruct (s_state s); auto. Qed.

Lemma step_stored_live (e : event) st : stored_live st -> stored_live (step e st).
Proof.
  intros Hs. destruct e as [t' | q | q | q | q m | sender type | dt]; simpl.
  - unfold ensureContentScriptLoaded.
    destruct (contentScriptReadyPromises st !! t') eqn:E; simpl; [exact Hs|].
    intros t p H. simpl in H. apply lookup_insert_Some in H as [[<- <-] | [Hne H]].
    + exists (fresh_session t'). simpl. split; [|split; [reflexivity | discriminate]].
      apply list_lookup_middle. reflexivity.
    + destruct (Hs t p H) as (s & Hl & Ht & Hph). exists s. simpl.
      split; [|auto]. rewrite lookup_app_l; [exact Hl | eapply lookup_lt_Some; eauto].
  - destruct (in_phase AwaitPing q st); [|exact Hs].
    eapply stored_live_alter; [exact Hs | reflexivity | reflexivity |].
    intros x. unfold arm. simpl. destruct (resolve_keeps (removeListener x)) as [-> _].
    split; [reflexivity | discriminate].
  - destruct (in_phase AwaitPing q st); [|exact Hs].
    eapply stored_live_alter; [exact Hs | reflexivity | reflexivity |].
    intros x. split; [reflexivity | discriminate].
  - destruct (in_phase AwaitInject q st); [|exact Hs].
    eapply stored_live_alter; [exact Hs | reflexivity | reflexivity |].
    intros x. split; [reflexivity | discriminate].
  - destruct (in_phase AwaitInject q st); [|exact Hs].
    eapply stored_live_alter; [exact Hs | reflexivity | reflexivity |].
    intros x. unfold arm. simpl.
    destruct (reject_keeps (inject_failed m) (removeListener x)) as [-> _].
    split; [reflexivity | discriminate].
  - intros t p H. simpl in H. destruct (Hs t p H) as (s & Hl & Ht & Hph).
    exists (readyListener sender type s). simpl.
    change (List.map (readyListener sender type) (promises st))
      with (readyListener sender type <$> promises st).
    rewrite list_lookup_fmap, Hl. simpl.
    destruct (readyListener_keeps sender type s) as [-> ->]. auto.
  - destruct (dt <? 0); [exact Hs|]. apply fires_stored_live. exact Hs.
Qed.

Lemma run_stored_live (evs : list event) :
  forall st, stored_live st -> stored_live (run evs st).
Proof.
  induction evs as [|e evs IH]; intros st Hs; [exact Hs|].
  change (run (e :: evs) st) with (run evs (step e st)).
  apply IH. now apply step_stored_live.
Qed.

End HandshakeMapFacts.

Module HandshakeMapTheorems.
Import JsString Handshake HandshakeFacts HandshakeMap HandshakeMapFacts.
Local Open Scope list_scope.

(** X9. In every state the popup can reach, the map holds exactly the
    promises whose timer has not fired: such a promise is the one
    stored for its tab, and every entry names such a promise of that
    tab.  So the test [promise === contentScriptReadyPromises.get(tabId)]
    in the timer callback never fails, and an entry is never replaced
    before its own timer has removed it. *)
Theorem map_holds_the_live_promises (evs : list event) :
  let st := run evs init in
  (forall p s, promises st !! p = Some s -> s_phase s <> Expired ->
     contentScriptReadyPromises st !! s_tab s = Some p)
  /\ (forall t p, contentScriptReadyPromises st !! t = Some p ->
        exists s, promises st !! p = Some s /\ s_tab s = t
                  /\ s_phase s <> Expired).
Proof.
  split.
  - exact (run_consistent evs init consistent_init).
  - exact (run_stored_live evs init stored_live_init).
Qed.

Lemma map_holds_the_live_promises_witness :
  contentScriptReadyPromises (run [Call 7; PingAnswered 0%nat] init) !! 7
  = Some 0%nat.
Proof.
  apply (proj1 (map_holds_the_live_promises [Call 7; PingAnswered 0%nat]) 0%nat
           {| s_tab := 7; s_state := Fulfilled; s_phase := Armed 15000;
              s_listening := false |}).
  - reflexivity.
  - discriminate.
Defined.

(** X10. The outcome of a handshake is kept until its timer fires.
    After a failed injection every call for the tab made within the
    next 15 s returns the rejected promise, and nothing is sent to the
    tab; once the 15 s have passed the entry is gone and the next call
    starts over with a new promise and a new ping. *)
Theorem failed_handshake_is_kept_15s (st : popup) (tabId d1 d2 : Z) (message : string) :
  contentScriptReadyPromises st !! tabId = None -> 0 <= d1 -> 0 <= d2 ->
  let p := List.length (promises st) in
  let st4 := run [Call tabId; Elapse d1; PingFailed p; Elapse d2;
                  InjectionFailed p message] st in
  (forall dt, 0 <= dt < timeout_ms ->
     let st5 := step (Elapse dt) st4 in
     ensureContentScriptLoaded tabId st5 = (p, st5)
     /\ state_of p st5 = Some (Rejected (inject_failed message))
     /\ effects st5 = effects st ++ [Ping tabId; Inject tabId])
  /\ (forall dt, timeout_ms <= dt ->
        let st5 := step (Elapse dt) st4 in
        let q := List.length (promises st5) in
        contentScriptReadyPromises st5 !! tabId = None
        /\ ensureContentScriptLoaded tabId st5 = (q, step (Call tabId) st5)
        /\ q <> p
        /\ state_of q (step (Call tabId) st5) = Some Pending
        /\ effects (step (Call tabId) st5)
           = effects st ++ [Ping tabId; Inject tabId; Ping tabId]).
Proof.
  intros Hm Hd1 Hd2 p st4.
  destruct (HandshakeTheorems.handshake_injecting st tabId d1 d2 Hm Hd1 Hd2)
    as (P3 & M3 & E3). fold p in P3, M3, E3.
  set (st3 := run [Call tabId; Elapse d1; PingFailed p; Elapse d2] st) in *.
  assert (E4 : st4 = step (InjectionFailed p message) st3) by reflexivity.
  destruct (step_injection_failed st3 p _ message P3 eq_refl) as (P4 & M4 & F4 & N4).
  rewrite <- E4 in P4, M4, F4, N4.
  assert (M4' : contentScriptReadyPromises st4 !! tabId = Some p)
    by (rewrite M4; exact M3).
  set (s4 := arm (now st3)
               (reject (inject_failed message)
                  (removeListener (set_phase AwaitInject (fresh_session tabId))))) in *.
  split.
  - intros dt Hdt st5. subst st5.
    assert (Hdue : due_at (now st4 + dt) s4 = false).
    { simpl. apply Z.leb_gt. rewrite N4. unfold timeout_ms in *. lia. }
    destruct (step_elapse_kept st4 p s4 dt P4 (proj1 Hdt) Hdue) as (P5 & M5 & F5 & _).
    specialize (M5 M4'). change (s_tab s4) with tabId in M5.
    split; [|split].
    + unfold ensureContentScriptLoaded. now rewrite M5.
    + unfold state_of. now rewrite P5.
    + now rewrite F5, F4, E3.
  - intros dt Hdt st5 q. subst st5.
    destruct (step_elapse_expires st4 p s4 (now st3 + timeout_ms) dt P4 eq_refl)
      as (M5 & P5); [unfold timeout_ms in *; lia | rewrite N4; lia | exact M4' |].
    change (s_tab s4) with tabId in M5.
    set (st5 := step (Elapse dt) st4) in *.
    assert (F5 : effects st5 = effects st4).
    { unfold st5. simpl. destruct (dt <? 0); [reflexivity|].
      apply (fire_due_fields (set_now (now st4 + dt) st4)). }
    destruct (step_call st5 tabId M5) as (P6 & M6 & F6 & _). fold q in P6, M6.
    split; [exact M5|]. split; [|split; [|split]].
    + unfold ensureContentScriptLoaded at 1. rewrite M5.
      simpl. unfold ensureContentScriptLoaded. now rewrite M5.
    + apply lookup_lt_Some in P5. unfold q. lia.
    + unfold state_of. now rewrite P6.
    + rewrite F6, F5, F4, E3. now rewrite <- app_assoc.
Qed.

Lemma failed_handshake_is_kept_15s_witness :
  let st4 := run [Call 7; Elapse 20; PingFailed 0%nat; Elapse 300;
                  InjectionFailed 0%nat "Cannot access contents of the page"] init in
  (let st5 := step (Elapse 14999) st4 in
   ensureContentScriptLoaded 7 st5 = (0%nat, st5)
   /\ state_of 0 st5
      = Some (Rejected (inject_failed "Cannot access contents of the page"))
   /\ effects st5 = effects init ++ [Ping 7; Inject 7])
  /\ (let st5 := step (Elapse 15000) st4 in
      contentScriptReadyPromises st5 !! 7 = None
      /\ effects (step (Call 7) st5)
         = effects init ++ [Ping 7; Inject 7; Ping 7]).
Proof.
  pose proof (failed_handshake_is_kept_15s init 7 20 300
                "Cannot access contents of the page"
                eq_refl ltac:(lia) ltac:(lia)) as H.
  cbv zeta in H. destruct H as [H1 H2]. cbv zeta. split.
  - apply (H1 14999). unfold timeout_ms. lia.
  - destruct (H2 15000) as (A & _ & _ & _ & B); [unfold timeout_ms; lia|].
    split; [exact A | exact B].
Defined.

(** X11. A message reaches a promise only as the ready announcement of
    its own tab: a message of another type, from another tab or from a
    sender without a tab, or one that arrives when the listener has been
    removed, leaves the promise as it is; the announcement of the tab
    fulfils a promise that is pending and removes its listener.  A
    message never touches the map or sends anything. *)
Theorem readyListener_filters (st : popup) (senderTab : option Z) (type : string)
    (p : nat) (s : session) :
  promises st !! p = Some s ->
  let st' := step (Message senderTab type) st in
  contentScriptReadyPromises st' = contentScriptReadyPromises st
  /\ effects st' = effects st
  /\ (senderTab <> Some (s_tab s) \/ type <> "contentScriptReady"
      \/ s_listening s = false ->
      promises st' !! p = Some s)
  /\ (senderTab = Some (s_tab s) -> type = "contentScriptReady" ->
      s_listening s = true ->
      promises st' !! p = Some (resolve (removeListener s))
      /\ (s_state s = Pending -> state_of p st' = Some Fulfilled)).
Proof.
  intros Hp st'. subst st'. rewrite (step_message st p s senderTab type Hp).
  split; [reflexivity|]. split; [reflexivity|]. split.
  - intros H. f_equal. unfold readyListener.
    destruct (s_listening s); [|reflexivity].
    destruct senderTab as [id|]; [|reflexivity].
    destruct (Z.eqb_spec id (s_tab s)) as [-> | Hne]; [|reflexivity].
    destruct (String.eqb_spec type "contentScriptReady") as [-> | Hty];
      [|reflexivity].
    destruct H as [H | [H | H]]; [now elim H | now elim H | discriminate H].
  - intros -> -> Hl.
    assert (E : readyListener (Some (s_tab s)) "contentScriptReady" s
                = resolve (removeListener s)).
    { unfold readyListener. now rewrite Hl, Z.eqb_refl. }
    split; [now rewrite E|]. intros Hs. unfold state_of.
    rewrite (step_message st p s _ _ Hp), E. simpl.
    unfold resolve. simpl. now rewrite Hs.
Qed.

Lemma readyListener_filters_witness :
  let st := run [Call 7; PingFailed 0%nat; InjectionDone 0%nat] init in
  promises (step (Message (Some 8) "contentScriptReady") st) !! 0%nat
  = promises st !! 0%nat
  /\ state_of 0 (step (Message (Some 7) "contentScriptReady") st) = Some Fulfilled.
Proof.
  cbv zeta. split.
  - apply (proj1 (proj2 (proj2 (readyListener_filters
             (run [Call 7; PingFailed 0%nat; InjectionDone 0%nat] init)
             (Some 8) "contentScriptReady" 0%nat
             {| s_tab := 7; s_state := Pending; s_phase := Armed 15000;
                s_listening := true |} eq_refl)))).
    left. discriminate.
  - destruct (readyListener_filters
               (run [Call 7; PingFailed 0%nat; InjectionDone 0%nat] init)
               (Some 7) "contentScriptReady" 0%nat
               {| s_tab := 7; s_state := Pending; s_phase := Armed 15000;
                  s_listening := true |} eq_refl) as (_ & _ & _ & H).
    destruct (H eq_refl eq_refl eq_refl) as [_ F]. apply F. reflexivity.
Defined.

End HandshakeMapTheorems.

(** ** What a submission sends *)

Module SubmissionFacts.
Import JsString Js Popup Submission.
Local Open Scope list_scope.

Lemma describable_showOverlay (question : string) :
  Delivery.describable (showOverlay_message question).
Proof. now apply (DeliveryTheorems.describable_typed _ "showOverlay"). Qed.

(** What leaves the popup during a submission. *)
Lemma submit_actions_exact (w : world) (question : string) (d : dom) :
  actions (submit w question d)
  = actions d ++ TabsQuery ::
    match active_tabs w with
    | [] => []
    | (id, url) :: _ =>
        if includes url "youtube.com/watch" then
          EnsureLoaded id ::
          match handshake w id with
          | Throw _ => []
          | Ret _ =>
              List.map Io (snd (Delivery.sendMessageWithRetry (delivery w) id
                                  (showOverlay_message question) 5 750))
              ++ match fst (Delivery.sendMessageWithRetry (delivery w) id
                              (showOverlay_message question) 5 750) with
                 | Ret _ => [WindowClose]
                 | Throw _ => []
                 end
          end
        else []
    end.
Proof.
  unfold submit, attempt_overlay.
  destruct (active_tabs w) as [|[id url] tabs].
  { destruct (negb (document_hidden w)); reflexivity. }
  destruct (includes url "youtube.com/watch"); cbn [negb].
  2: { destruct (negb (document_hidden w)); reflexivity. }
  destruct (handshake w id) as [[] | e].
  2: { destruct (negb (document_hidden w)); simpl; now rewrite <- app_assoc. }
  destruct (Delivery.sendMessageWithRetry _ _ _ _ _) as [[r | e] trace];
    destruct (negb (document_hidden w)); simpl;
    rewrite <- ?app_assoc; simpl; rewrite <- ?app_assoc;
    rewrite ?List.app_nil_r; reflexivity.
Qed.

Lemma valid_or_not (question : string) :
  ((1 <= String.length question <= 200)%nat /\ question <> defaultText)
  \/ ~ ((1 <= String.length question <= 200)%nat /\ question <> defaultText).
Proof.
  destruct (String.eqb_spec question defaultText) as [E | E]; [right; tauto|].
  destruct (le_dec 1 (String.length question)); [|right; tauto].
  destruct (le_dec (String.length question) 200); [left; tauto | right; tauto].
Qed.

Lemma askQuestion_valid (w : world) (d : dom) :
  (1 <= String.length (trim (questionInput_value d)) <= 200)%nat ->
  trim (questionInput_value d) <> defaultText ->
  askQuestion w d = submit w (trim (questionInput_value d)) d.
Proof.
  intros [Hlo Hhi] Hne. unfold askQuestion.
  set (question := trim (questionInput_value d)) in *.
  assert (E1 : String.eqb question "" = false).
  { apply String.eqb_neq. intros E. rewrite E in Hlo. simpl in Hlo. lia. }
  assert (E2 : String.eqb question defaultText = false) by now apply String.eqb_neq.
  assert (E3 : (200 <? String.length question)%nat = false) by (apply Nat.ltb_ge; lia).
  now rewrite E1, E2, E3.
Qed.

Lemma askQuestion_invalid (w : world) (d : dom) :
  ~ ((1 <= String.length (trim (questionInput_value d)) <= 200)%nat
     /\ trim (questionInput_value d) <> defaultText) ->
  actions (askQuestion w d) = actions d.
Proof.
  intros H. unfold askQuestion.
  set (question := trim (questionInput_value d)) in *.
  destruct (String.eqb_spec question "") as [E1 | E1]; [reflexivity|].
  destruct (String.eqb_spec question defaultText) as [E2 | E2]; [reflexivity|].
  destruct (Nat.ltb_spec 200 (String.length question)) as [E3 | E3]; [reflexivity|].
  exfalso. apply H. split; [|exact E2]. split; [|exact E3].
  destruct question; [now elim E1 | simpl; lia].
Qed.

Lemma attempt_overlay_input (w : world) (question : string) (d : dom) :
  questionInput_value (snd (attempt_overlay w question d)) = questionInput_value d.
Proof.
  unfold attempt_overlay.
  destruct (active_tabs w) as [|[id url] tabs]; [reflexivity|].
  destruct (negb (includes url "youtube.com/watch")); [reflexivity|].
  destruct (handshake w id) as [[] | e]; [|reflexivity].
  destruct (Delivery.sendMessageWithRetry _ _ _ _ _) as [[r | e] trace]; reflexivity.
Qed.

Lemma no_close_in_io (trace : list Delivery.io) : ~ In WindowClose (List.map Io trace).
Proof. induction trace as [|x trace IH]; simpl; [tauto|]. intros [H | H]; [discriminate | auto]. Qed.

End SubmissionFacts.

Module SubmissionTheorems.
Import JsString Js Popup Submission SubmissionFacts.
Local Open Scope list_scope.

(** X12. The popup closes exactly when the whole submission went
    through: the question is valid, the first tab of the query is a
    YouTube watch page, the handshake with it succeeded and the
    [showOverlay] message was delivered.  In every other case
    [window.close] is not called. *)
Theorem popup_closes_iff_delivered (w : world) (d : dom) :
  ~ In WindowClose (actions d) ->
  let question := trim (questionInput_value d) in
  In WindowClose (actions (askQuestion w d))
  <-> ((1 <= String.length question <= 200)%nat /\ question <> defaultText)
      /\ exists id url rest r,
           active_tabs w = (id, url) :: rest
           /\ includes url "youtube.com/watch" = true
           /\ handshake w id = Ret tt
           /\ fst (Delivery.sendMessageWithRetry (delivery w) id
                     (showOverlay_message question) 5 750) = Ret r.
Proof.
  intros Hd question. split.
  - intros Hin.
    assert (Hv : (1 <= String.length question <= 200)%nat /\ question <> defaultText).
    { destruct (valid_or_not question) as [Hv | Hv]; [exact Hv|].
      rewrite (askQuestion_invalid w d Hv) in Hin. contradiction. }
    split; [exact Hv|]. destruct Hv as [Hl Hne].
    rewrite (askQuestion_valid w d Hl Hne), submit_actions_exact in Hin.
    fold question in Hin.
    apply in_app_or in Hin as [Hin | Hin]; [contradiction|].
    destruct Hin as [Hin | Hin]; [discriminate|].
    destruct (active_tabs w) as [|[id url] rest]; [contradiction|].
    destruct (includes url "youtube.com/watch") eqn:Hu; [|contradiction].
    destruct Hin as [Hin | Hin]; [discriminate|].
    destruct (handshake w id) as [[] | e] eqn:Hh; [|contradiction].
    apply in_app_or in Hin as [Hin | Hin]; [now apply no_close_in_io in Hin|].
    destruct (fst (Delivery.sendMessageWithRetry _ _ _ _ _)) as [r | e] eqn:Hr;
      [|contradiction].
    exists id, url, rest, r. repeat split; solve [reflexivity | assumption].
  - intros [[Hl Hne] (id & url & rest & r & Ht & Hu & Hh & Hr)].
    rewrite (askQuestion_valid w d Hl Hne), submit_actions_exact.
    fold question. rewrite Ht, Hu, Hh, Hr.
    apply in_or_app. right. right. right. apply in_or_app. right. now left.
Qed.

Lemma popup_closes_iff_delivered_witness :
  In WindowClose (actions (askQuestion watching typed)).
Proof.
  apply (proj2 (popup_closes_iff_delivered watching typed (fun H : In WindowClose [] => H))).
  split; [split; [vm_compute; lia | discriminate]|].
  exists 7, "https://www.youtube.com/watch?v=dQw4w9WgXcQ", [], JUndefined.
  repeat split.
Defined.

(** X13. With a valid question, the [showOverlay] message is not sent
    and the popup is not closed unless the handshake with a watch page
    has succeeded.  When the query returns no tab, or a first tab that
    is not a watch page, the query is all the popup does: neither
    [ensureContentScriptLoaded] nor [sendMessageWithRetry] is called,
    and the popup shows the TypeError of reading [url] on [undefined],
    or the request to open a video page.  When the handshake fails,
    [ensureContentScriptLoaded] (which itself pings the tab and may
    inject the script) is the last thing done, and its error is shown.
    In all three cases the button is enabled again and labelled
    [Ask AI], and the question is left in the field. *)
Theorem no_overlay_request_without_handshake (w : world) (d : dom) :
  let question := trim (questionInput_value d) in
  (1 <= String.length question <= 200)%nat -> question <> defaultText ->
  let d' := askQuestion w d in
  (askButton_disabled d' = false /\ askButton_textContent d' = "Ask AI"
   /\ questionInput_value d' = questionInput_value d)
  /\ (active_tabs w = [] ->
      actions d' = actions d ++ [TabsQuery]
      /\ popupMessage_className d' = "popup-message error"
      /\ popupMessage_textContent d'
         = userErrorMessage "Cannot read properties of undefined (reading 'url')")
  /\ (forall id url rest,
        active_tabs w = (id, url) :: rest ->
        (includes url "youtube.com/watch" = false ->
         actions d' = actions d ++ [TabsQuery]
         /\ popupMessage_className d' = "popup-message error"
         /\ popupMessage_textContent d'
            = "Please navigate to a YouTube video page first.")
        /\ (forall e, includes url "youtube.com/watch" = true ->
              handshake w id = Throw e ->
              actions d' = actions d ++ [TabsQuery; EnsureLoaded id]
              /\ popupMessage_className d' = "popup-message error"
              /\ popupMessage_textContent d' = userErrorMessage e)).
Proof.
  intros question Hl Hne d'. subst d'. rewrite (askQuestion_valid w d Hl Hne).
  fold question. split; [|split].
  - pose proof (attempt_overlay_input w question
                  (displayMessage "Ensuring AI chat is ready..." "info"
                     (set_button true "Opening AI Chat..." d))) as Hi.
    unfold submit. destruct (attempt_overlay _ _ _) as [[[] | e] d1];
      destruct (negb (document_hidden w)); simpl in *; auto.
  - intros Ht. unfold submit, attempt_overlay. rewrite Ht.
    destruct (negb (document_hidden w)); now repeat split.
  - intros id url rest Ht. split.
    + intros Hu. unfold submit, attempt_overlay. rewrite Ht, Hu.
      destruct (negb (document_hidden w)); now repeat split.
    + intros e Hu Hh. unfold submit, attempt_overlay. rewrite Ht, Hu, Hh.
      destruct (negb (document_hidden w)); simpl; rewrite <- app_assoc;
        now repeat split.
Qed.

Lemma no_overlay_request_without_handshake_witness :
  (actions (askQuestion no_tab typed) = actions typed ++ [TabsQuery]
   /\ popupMessage_textContent (askQuestion no_tab typed)
      = userErrorMessage "Cannot read properties of undefined (reading 'url')")
  /\ (actions (askQuestion elsewhere typed) = actions typed ++ [TabsQuery]
      /\ popupMessage_textContent (askQuestion elsewhere typed)
         = "Please navigate to a YouTube video page first.")
  /\ (actions (askQuestion closed_page typed)
      = actions typed ++ [TabsQuery; EnsureLoaded 7]
      /\ popupMessage_textContent (askQuestion closed_page typed)
         = userErrorMessage
             "Failed to inject QTube_content.js: Cannot access contents of the page").
Proof.
  split; [|split].
  - destruct (proj1 (proj2 (no_overlay_request_without_handshake no_tab typed
               ltac:(vm_compute; lia) ltac:(discriminate))) eq_refl)
      as (A & _ & B).
    split; [exact A | exact B].
  - destruct (proj1 (proj2 (proj2 (no_overlay_request_without_handshake elsewhere typed
               ltac:(vm_compute; lia) ltac:(discriminate)))
               7 "https://www.youtube.com/feed/subscriptions" [] eq_refl) eq_refl)
      as (A & _ & B).
    split; [exact A | exact B].
  - destruct (proj2 (proj2 (proj2 (no_overlay_request_without_handshake closed_page typed
               ltac:(vm_compute; lia) ltac:(discriminate)))
               7 "https://www.youtube.com/watch?v=dQw4w9WgXcQ" [] eq_refl)
               "Failed to inject QTube_content.js: Cannot access contents of the page"
               eq_refl eq_refl)
      as (A & _ & B).
    split; [exact A | exact B].
Defined.

(** X14. With a valid question, a watch page in front and a handshake
    that succeeds, the [showOverlay] message goes to that tab and to no
    other, carries the trimmed question, is sent at least once and at
    most six times, 750 ms apart, and the popup closes if and only if
    the last attempt was answered. *)
Theorem overlay_request_goes_to_active_tab (w : world) (d : dom)
    (id : Z) (url : string) (rest : list (Z * string)) :
  let question := trim (questionInput_value d) in
  (1 <= String.length question <= 200)%nat -> question <> defaultText ->
  active_tabs w = (id, url) :: rest ->
  includes url "youtube.com/watch" = true -> handshake w id = Ret tt ->
  exists n,
    (n <= 5)%nat
    /\ actions (askQuestion w d)
       = actions d ++ [TabsQuery; EnsureLoaded id]
         ++ List.map Io (Delivery.retried n id (showOverlay_message question) 750
                         ++ [Delivery.Send id (showOverlay_message question)])
         ++ match delivery w (Z.of_nat n) with
            | Delivery.Delivered _ => [WindowClose]
            | _ => []
            end.
Proof.
  intros question Hl Hne Ht Hu Hh.
  rewrite (askQuestion_valid w d Hl Hne), submit_actions_exact.
  fold question. rewrite Ht, Hu, Hh.
  unfold Delivery.sendMessageWithRetry.
  change (Z.to_nat (5 + 1)) with 6%nat.
  destruct (DeliveryBounds.loop_shape (delivery w) id (showOverlay_message question)
              5 750 (describable_showOverlay question) 5 0 eq_refl)
    as (n & Hn & Htr & Hc & Hres).
  exists n. split; [exact Hn|]. rewrite Htr.
  destruct (fst (Delivery.loop 6 (delivery w) id (showOverlay_message question) 5 750 0))
    as [r | e].
  - change (0 + Z.of_nat n) with (Z.of_nat n) in Hres. now rewrite Hres.
  - destruct Hres as [_ Hno]. change (0 + Z.of_nat n) with (Z.of_nat n) in Hno.
    destruct (delivery w (Z.of_nat n)) as [r | m | m] eqn:Hd; [|reflexivity ..].
    now elim (Hno r).
Qed.

Lemma overlay_request_goes_to_active_tab_witness :
  exists n,
    (n <= 5)%nat
    /\ actions (askQuestion watching typed)
       = actions typed ++ [TabsQuery; EnsureLoaded 7]
         ++ List.map Io (Delivery.retried n 7 (showOverlay_message "What is the main point?") 750
                         ++ [Delivery.Send 7 (showOverlay_message "What is the main point?")])
         ++ match delivery watching (Z.of_nat n) with
            | Delivery.Delivered _ => [WindowClose]
            | _ => []
            end.
Proof.
  apply (overlay_request_goes_to_active_tab watching typed 7
           "https://www.youtube.com/watch?v=dQw4w9WgXcQ" []).
  - vm_compute. lia.
  - discriminate.
  - reflexivity.
  - reflexivity.
  - reflexivity.
Defined.

End SubmissionTheorems.

(** ** Escaping *)

Module MarkupFacts.
Import JsString JsStringFacts Markup.

Lemma escape_char_cases (c : ascii) :
  (c = "&"%char /\ escape_char c = "&amp;")
  \/ (c = "<"%char /\ escape_char c = "&lt;")
  \/ (c = ">"%char /\ escape_char c = "&gt;")
  \/ (c = ascii_of_nat 160 /\ escape_char c = "&nbsp;")
  \/ (c <> "&"%char /\ c <> "<"%char /\ c <> ">"%char /\ escape_char c = String c "").
Proof.
  unfold escape_char.
  destruct (Ascii.eqb_spec c "&"); [auto|].
  destruct (Ascii.eqb_spec c "<"); [auto|].
  destruct (Ascii.eqb_spec c ">"); [auto 6|].
  destruct (Nat.eqb_spec (code c) 160) as [E | E]; [|auto 10].
  right; right; right; left. split; [|reflexivity].
  unfold code in E. rewrite <- E. now rewrite ascii_nat_embedding.
Qed.

Lemma includes_char_cons (c d : ascii) (r : string) :
  includes (String d r) (String c "") = Ascii.eqb c d || includes r (String c "").
Proof.
  cbn [includes starts_with]. destruct r; now rewrite andb_true_r.
Qed.

Lemma includes_char_app (c : ascii) (a b : string) :
  includes (a ++ b) (String c "")
  = includes a (String c "") || includes b (String c "").
Proof.
  induction a as [|d a IH].
  - destruct b; reflexivity.
  - change (String d a ++ b) with (String d (a ++ b)).
    rewrite !includes_char_cons, IH. now rewrite orb_assoc.
Qed.

Lemma escape_char_no_bracket (c : ascii) :
  includes (escape_char c) "<" = false /\ includes (escape_char c) ">" = false.
Proof.
  destruct (escape_char_cases c)
    as [[_ ->] | [[_ ->] | [[_ ->] | [[_ ->] | (_ & H1 & H2 & ->)]]]];
    try (split; reflexivity).
  rewrite !includes_char_cons. cbn [includes starts_with orb].
  split; rewrite orb_false_r; apply Ascii.eqb_neq; congruence.
Qed.

(** A text without ampersand in front of a text that holds one. *)
Lemma ampersand_after (w rest : string) :
  includes w "&" = false ->
  forall pre post, w ++ rest = pre ++ String "&" post ->
    exists pre', pre = w ++ pre' /\ rest = pre' ++ String "&" post.
Proof.
  induction w as [|d w IH]; intros Hw pre post H.
  - exists pre. auto.
  - rewrite includes_char_cons in Hw. apply orb_false_elim in Hw as [Hd Hw].
    destruct pre as [|p pre].
    + simpl in H. injection H as -> _. discriminate Hd.
    + simpl in H. injection H as <- H.
      destruct (IH Hw pre post H) as (pre' & -> & Hr). exists pre'. auto.
Qed.

Lemma escapeHtml_ampersand (text : string) :
  forall pre post, escapeHtml text = pre ++ String "&" post ->
    is_reference (String "&" post) = true.
Proof.
  induction text as [|c text IH]; intros pre post H.
  - destruct pre; discriminate H.
  - cbn [escapeHtml] in H.
    destruct (escape_char_cases c)
      as [[_ E] | [[_ E] | [[_ E] | [[_ E] | (Hc & _ & _ & E)]]]];
      rewrite E in H.
    5: { destruct pre as [|p pre]; simpl in H.
         - injection H as -> _. now elim Hc.
         - injection H as _ H. exact (IH _ _ H). }
    all: destruct pre as [|p pre]; simpl in H;
      [injection H as <-; reflexivity | injection H as _ H].
    + destruct (ampersand_after "amp;" _ eq_refl _ _ H) as (pre' & _ & Hr).
      exact (IH _ _ Hr).
    + destruct (ampersand_after "lt;" _ eq_refl _ _ H) as (pre' & _ & Hr).
      exact (IH _ _ Hr).
    + destruct (ampersand_after "gt;" _ eq_refl _ _ H) as (pre' & _ & Hr).
      exact (IH _ _ Hr).
    + destruct (ampersand_after "nbsp;" _ eq_refl _ _ H) as (pre' & _ & Hr).
      exact (IH _ _ Hr).
Qed.

Lemma escapeHtml_inj (a : string) :
  forall b, escapeHtml a = escapeHtml b -> a = b.
Proof.
  induction a as [|c a IH]; intros [|d b] H; [reflexivity | | |].
  - cbn [escapeHtml] in H.
    destruct (escape_char_cases d)
      as [[_ E] | [[_ E] | [[_ E] | [[_ E] | (_ & _ & _ & E)]]]];
      rewrite E in H; discriminate H.
  - cbn [escapeHtml] in H.
    destruct (escape_char_cases c)
      as [[_ E] | [[_ E] | [[_ E] | [[_ E] | (_ & _ & _ & E)]]]];
      rewrite E in H; discriminate H.
  - cbn [escapeHtml] in H.
    destruct (escape_char_cases c)
      as [[Hc E] | [[Hc E] | [[Hc E] | [[Hc E] | (C1 & C2 & C3 & E)]]]];
      destruct (escape_char_cases d)
        as [[Hd F] | [[Hd F] | [[Hd F] | [[Hd F] | (D1 & D2 & D3 & F)]]]];
      rewrite E, F in H; simpl in H; try discriminate H;
      try (injection H as H; subst; f_equal; now apply IH);
      try (injection H as H0 H; congruence).
Qed.

End MarkupFacts.

Module MarkupTheorems.
Import JsString JsStringFacts Markup MarkupFacts.

(** X15. The text that [escapeHtml] returns cannot open or close a tag:
    it holds no [<] and no [>], and every ampersand in it begins one of
    the references [&amp;], [&lt;], [&gt;] and [&nbsp;]. *)
Theorem escapeHtml_is_inert (text : string) :
  includes (escapeHtml text) "<" = false
  /\ includes (escapeHtml text) ">" = false
  /\ forall pre post, escapeHtml text = pre ++ "&" ++ post ->
       is_reference ("&" ++ post) = true.
Proof.
  split; [|split].
  - induction text as [|c text IH]; [reflexivity|].
    cbn [escapeHtml]. rewrite includes_char_app, IH.
    now rewrite (proj1 (escape_char_no_bracket c)).
  - induction text as [|c text IH]; [reflexivity|].
    cbn [escapeHtml]. rewrite includes_char_app, IH.
    now rewrite (proj2 (escape_char_no_bracket c)).
  - intros pre post H. exact (escapeHtml_ampersand text pre post H).
Qed.

Lemma escapeHtml_is_inert_witness :
  is_reference ("&" ++ "lt;b&gt; &amp; co") = true.
Proof.
  apply (proj2 (proj2 (escapeHtml_is_inert "<b> & co")) "" "lt;b&gt; &amp; co").
  reflexivity.
Defined.

(** X16. Escaping loses nothing: two texts with the same escaped form
    are the same text, and a text without ampersand, angle bracket and
    no-break space is returned unchanged. *)
Theorem escapeHtml_is_faithful (a b : string) :
  (escapeHtml a = escapeHtml b -> a = b)
  /\ (includes a "&" = false -> includes a "<" = false ->
      includes a ">" = false -> includes a (chr 160) = false ->
      escapeHtml a = a).
Proof.
  split; [apply escapeHtml_inj|].
  induction a as [|c a IH]; [reflexivity|].
  unfold chr. rewrite !includes_char_cons. intros H1 H2 H3 H4.
  apply orb_false_elim in H1 as [A1 A2]. apply orb_false_elim in H2 as [B1 B2].
  apply orb_false_elim in H3 as [C1 C2]. apply orb_false_elim in H4 as [D1 D2].
  cbn [escapeHtml]. rewrite IH by assumption.
  destruct (escape_char_cases c)
    as [[-> _] | [[-> _] | [[-> _] | [[-> _] | (_ & _ & _ & ->)]]]];
    try reflexivity; try discriminate.
Qed.

Lemma escapeHtml_is_faithful_witness : escapeHtml "What is shown?" = "What is shown?".
Proof.
  apply (proj2 (escapeHtml_is_faithful "What is shown?" "")); reflexivity.
Defined.

End MarkupTheorems.

(** ** The video identifier *)

Module VideoIdFacts.
Import JsString JsStringFacts CitationGrammar VideoId.

Lemma id_chars_sound (n : nat) :
  forall s id, id_chars n s = Some id ->
    String.length id = n /\ all_chars is_id_char id = true
    /\ exists post, s = id ++ post.
Proof.
  induction n as [|n IH]; intros s id H.
  - injection H as <-. repeat split. now exists s.
  - destruct s as [|c r]; [discriminate H|]. cbn [id_chars] in H.
    destruct (is_id_char c) eqn:Hc; [|discriminate H].
    destruct (id_chars n r) as [id'|] eqn:E; [|discriminate H].
    injection H as <-. destruct (IH r id' E) as (L & A & post & ->).
    simpl. rewrite Hc, A, L. repeat split. now exists post.
Qed.

Lemma id_chars_complete (id post : string) :
  all_chars is_id_char id = true ->
  id_chars (String.length id) (id ++ post) = Some id.
Proof.
  induction id as [|c id IH]; intros H; [reflexivity|].
  simpl in H. apply andb_prop in H as [Hc H].
  cbn [String.length String.append id_chars]. now rewrite Hc, (IH H).
Qed.

Lemma short_host_sound (s r : string) :
  short_host s = Some r ->
  exists c, is_line_terminator c = false /\ s = ("youtu" ++ String c "be/") ++ r.
Proof.
  unfold short_host. intros H.
  destruct (starts_with "youtu" s) eqn:E; [|discriminate H].
  apply starts_with_inv in E as [t ->].
  change (drop 5 ("youtu" ++ t)) with t in H.
  destruct t as [|c t]; [discriminate H|].
  destruct (is_line_terminator c) eqn:Hc; [discriminate H|].
  destruct (starts_with "be/" t) eqn:E; [|discriminate H].
  apply starts_with_inv in E as [u ->]. injection H as <-.
  exists c. split; [exact Hc | reflexivity].
Qed.

Lemma short_host_complete (c : ascii) (r : string) :
  is_line_terminator c = false ->
  short_host (("youtu" ++ String c "be/") ++ r) = Some r.
Proof. intros H. unfold short_host. cbn. now rewrite H. Qed.

Lemma after_marker_sound (s r : string) :
  In r (after_marker s) -> exists m, marker m /\ s = m ++ r.
Proof.
  unfold after_marker. intros H.
  apply in_app_or in H as [H | H].
  { destruct (starts_with "?v=" s) eqn:E; [|contradiction].
    apply starts_with_inv in E as [t ->]. destruct H as [<- | []].
    exists "?v=". split; [now left | reflexivity]. }
  apply in_app_or in H as [H | H].
  { destruct (starts_with "/embed/" s) eqn:E; [|contradiction].
    apply starts_with_inv in E as [t ->]. destruct H as [<- | []].
    exists "/embed/". split; [right; now left | reflexivity]. }
  apply in_app_or in H as [H | H].
  { destruct (starts_with "/v/" s) eqn:E; [|contradiction].
    apply starts_with_inv in E as [t ->]. destruct H as [<- | []].
    exists "/v/". split; [right; right; now left | reflexivity]. }
  destruct (short_host s) as [t|] eqn:E; [|contradiction].
  destruct H as [<- | []]. apply short_host_sound in E as (c & Hc & ->).
  exists ("youtu" ++ String c "be/"). split; [|reflexivity].
  right; right; right. now exists c.
Qed.

Lemma after_marker_complete (m r : string) :
  marker m -> In r (after_marker (m ++ r)).
Proof.
  unfold after_marker.
  intros [-> | [-> | [-> | (c & Hc & ->)]]].
  - apply in_or_app. left. cbn. now left.
  - apply in_or_app. right. apply in_or_app. left. cbn. now left.
  - do 2 (apply in_or_app; right). apply in_or_app. left. cbn. now left.
  - do 3 (apply in_or_app; right).
    rewrite (short_host_complete c r Hc). now left.
Qed.

Lemma first_id_sound (rests : list string) (id : string) :
  first_id rests = Some id -> exists r, In r rests /\ id_chars 11 r = Some id.
Proof.
  induction rests as [|r rests IH]; [discriminate|]. cbn [first_id].
  destruct (id_chars 11 r) as [x|] eqn:E.
  - intros H. injection H as <-. exists r. split; [now left | exact E].
  - intros H. destruct (IH H) as (r' & Hin & Hr). exists r'. split; [now right | exact Hr].
Qed.

Lemma first_id_complete (rests : list string) (r id : string) :
  In r rests -> id_chars 11 r = Some id -> first_id rests <> None.
Proof.
  induction rests as [|x rests IH]; [contradiction|].
  intros [-> | Hin] Hr; cbn [first_id].
  - now rewrite Hr.
  - destruct (id_chars 11 x); [discriminate | now apply IH].
Qed.

Lemma id_match_sound (s id : string) :
  match_at s = Some id ->
  well_formed id /\ exists m post, marker m /\ s = m ++ id ++ post.
Proof.
  unfold match_at. intros H.
  apply first_id_sound in H as (r & Hin & Hr).
  apply after_marker_sound in Hin as (m & Hm & ->).
  apply id_chars_sound in Hr as (L & A & post & ->).
  split; [now split|]. now exists m, post.
Qed.

Lemma id_match_complete (m id post : string) :
  marker m -> well_formed id -> match_at (m ++ id ++ post) <> None.
Proof.
  intros Hm [L A]. unfold match_at.
  apply (first_id_complete _ (id ++ post) id).
  - now apply after_marker_complete.
  - rewrite <- L. now apply id_chars_complete.
Qed.

Lemma id_search_sound (s : string) :
  forall id, first_match s = Some id ->
    well_formed id
    /\ exists pre m post, marker m /\ s = pre ++ m ++ id ++ post.
Proof.
  induction s as [|c s IH]; intros id H; cbn [first_match] in H.
  - destruct (match_at "") as [x|] eqn:E; [|discriminate H].
    injection H as ->. apply id_match_sound in E as (W & m & post & Hm & Hs).
    split; [exact W|]. now exists "", m, post.
  - destruct (match_at (String c s)) as [x|] eqn:E.
    + injection H as ->. apply id_match_sound in E as (W & m & post & Hm & Hs).
      split; [exact W|]. now exists "", m, post.
    + destruct (IH id H) as (W & pre & m & post & Hm & ->).
      split; [exact W|]. now exists (String c pre), m, post.
Qed.

Lemma id_search_complete (pre : string) :
  forall s, match_at s <> None -> first_match (pre ++ s) <> None.
Proof.
  induction pre as [|c pre IH]; intros s H.
  - simpl. destruct s; cbn [first_match]; destruct (match_at _); congruence.
  - change (String c pre ++ s) with (String c (pre ++ s)). cbn [first_match].
    destruct (match_at (String c (pre ++ s))); [discriminate | now apply IH].
Qed.

Lemma search_skip (c : ascii) (s : string) :
  match_at (String c s) = None -> first_match (String c s) = first_match s.
Proof. intros H. cbn [first_match]. now rewrite H. Qed.

Lemma search_here (s id : string) :
  match_at s = Some id -> first_match s = Some id.
Proof. intros H. destruct s; cbn [first_match]; now rewrite H. Qed.

End VideoIdFacts.

Module VideoIdTheorems.
Import JsString JsStringFacts CitationGrammar VideoId VideoIdFacts.

(** X17. [getVideoId] returns an identifier exactly when the URL holds
    one of the four markers followed by eleven identifier characters,
    and what it returns is such a group of eleven characters standing
    right after a marker. *)
Theorem getVideoId_characterised (href : string) :
  (forall id, getVideoId href = Some id ->
     well_formed id
     /\ exists pre m post, marker m /\ href = pre ++ m ++ id ++ post)
  /\ ((exists pre m id post,
         marker m /\ well_formed id /\ href = pre ++ m ++ id ++ post) ->
      exists id, getVideoId href = Some id).
Proof.
  split.
  - intros id H. now apply id_search_sound.
  - intros (pre & m & id & post & Hm & W & ->).
    pose proof (id_search_complete pre _ (id_match_complete m id post Hm W)) as H.
    unfold getVideoId. destruct (first_match _) as [x|]; [now exists x | now elim H].
Qed.

Lemma getVideoId_characterised_witness :
  exists id, getVideoId "https://m.youtube.com/v/abcdefghijk?x=1" = Some id.
Proof.
  apply (proj2 (getVideoId_characterised "https://m.youtube.com/v/abcdefghijk?x=1")).
  exists "https://m.youtube.com", "/v/", "abcdefghijk", "?x=1".
  split; [right; right; now left|]. split; [now split | reflexivity].
Defined.

(** X18. On the usual addresses of a video (the watch page, the short
    host and the embedded player) [getVideoId] returns the eleven
    characters that follow the marker, whatever comes after them; an
    identifier longer than eleven characters is cut. *)
Theorem getVideoId_usual_addresses (id rest : string) :
  well_formed id ->
  getVideoId ("https://www.youtube.com/watch?v=" ++ id ++ rest) = Some id
  /\ getVideoId ("https://youtu.be/" ++ id ++ rest) = Some id
  /\ getVideoId ("https://www.youtube.com/embed/" ++ id ++ rest) = Some id.
Proof.
  intros [L A]. pose proof (id_chars_complete id rest A) as Hid.
  rewrite L in Hid. unfold getVideoId.
  split; [|split].
  - cbn [String.append]. repeat (rewrite search_skip by reflexivity).
    apply search_here. unfold match_at, after_marker, short_host.
    cbn -[id_chars].
    try (change (is_line_terminator ".") with false; cbn -[id_chars]).
    now rewrite Hid.
  - cbn [String.append]. repeat (rewrite search_skip by reflexivity).
    apply search_here. unfold match_at, after_marker, short_host.
    cbn -[id_chars].
    try (change (is_line_terminator ".") with false; cbn -[id_chars]).
    now rewrite Hid.
  - cbn [String.append]. repeat (rewrite search_skip by reflexivity).
    apply search_here. unfold match_at, after_marker, short_host.
    cbn -[id_chars].
    try (change (is_line_terminator ".") with false; cbn -[id_chars]).
    now rewrite Hid.
Qed.

Lemma getVideoId_usual_addresses_witness :
  getVideoId ("https://www.youtube.com/watch?v=" ++ "dQw4w9WgXcQ" ++ "&t=42s")
  = Some "dQw4w9WgXcQ"
  /\ getVideoId ("https://youtu.be/" ++ "dQw4w9WgXcQ" ++ "&t=42s")
     = Some "dQw4w9WgXcQ"
  /\ getVideoId ("https://www.youtube.com/embed/" ++ "dQw4w9WgXcQ" ++ "&t=42s")
     = Some "dQw4w9WgXcQ".
Proof.
  apply (getVideoId_usual_addresses "dQw4w9WgXcQ" "&t=42s"). now split.
Defined.

End VideoIdTheorems.

(** ** The overlay *)

Module ContentFacts.
Import JsString Js Markup Content.
Local Open Scope list_scope.

(** *** Numbers written and read back *)






(** *** Showing and hiding *)

Lemma inject_keeps (st : content) :
  elements (injectYouTubePlayerControlScript st) = elements st
  /\ overlayElement (injectYouTubePlayerControlScript st) = overlayElement st
  /\ currentQuestion (injectYouTubePlayerControlScript st) = currentQuestion st
  /\ waiting (injectYouTubePlayerControlScript st) = waiting st
  /\ fetches (injectYouTubePlayerControlScript st) = fetches st
  /\ alerts (injectYouTubePlayerControlScript st) = alerts st
  /\ og_title (injectYouTubePlayerControlScript st) = og_title st.
Proof.
  unfold injectYouTubePlayerControlScript.
  destruct (0 <? script_runs st)%nat; now repeat split.
Qed.

Lemma hideOverlay_keeps (st : content) :
  elements (hideOverlay st) = elements st
  /\ overlayElement (hideOverlay st) = None
  /\ currentQuestion (hideOverlay st)
     = match overlayElement st with Some _ => None | None => currentQuestion st end
  /\ waiting (hideOverlay st) = waiting st
  /\ fetches (hideOverlay st) = fetches st
  /\ alerts (hideOverlay st) = alerts st
  /\ script_runs (hideOverlay st) = script_runs st
  /\ main (hideOverlay st) = main st.
Proof.
  unfold hideOverlay. destruct (overlayElement st) eqn:E; now repeat split.
Qed.

Lemma showOverlay_fields (question : string) (st : content) :
  elements (showOverlay question st) = elements st ++ [created question]
  /\ overlayElement (showOverlay question st) = Some (List.length (elements st))
  /\ currentQuestion (showOverlay question st) = Some question
  /\ waiting (showOverlay question st) = waiting st
  /\ fetches (showOverlay question st) = fetches st
  /\ alerts (showOverlay question st) = alerts st.
Proof.
  unfold showOverlay.
  set (st0 := match overlayElement st with Some _ => hideOverlay st | None => st end).
  assert (H0 : elements st0 = elements st /\ waiting st0 = waiting st
               /\ fetches st0 = fetches st /\ alerts st0 = alerts st).
  { unfold st0. destruct (overlayElement st); [|auto].
    destruct (hideOverlay_keeps st) as (H1 & _ & _ & H4 & H5 & H6 & _). auto. }
  destruct H0 as (E1 & E2 & E3 & E4).
  destruct (inject_keeps
              (set_variables (Some (List.length (elements st0))) (Some question)
                 (set_elements (elements st0 ++ [created question]) st0)))
    as (-> & -> & -> & -> & -> & -> & _).
  simpl. rewrite E1, E2, E3, E4. now repeat split.
Qed.

Lemma showOverlay_attached (question : string) (st : content) :
  attached (showOverlay question st) = Some (created question).
Proof.
  unfold attached.
  destruct (showOverlay_fields question st) as (-> & -> & _).
  apply list_lookup_middle. reflexivity.
Qed.

(** *** Counting the hidden input sections *)

Lemma hidden_count_app (a b : list overlay) :
  hidden_count (a ++ b) = (hidden_count a + hidden_count b)%nat.
Proof. unfold hidden_count. now rewrite List.filter_app, List.length_app. Qed.

Lemma hidden_count_le (es : list overlay) :
  (hidden_count es <= List.length es)%nat.
Proof. unfold hidden_count. apply List.filter_length_le. Qed.

Lemma hidden_count_cons (x : overlay) (es : list overlay) :
  hidden_count (x :: es)
  = ((if input_hidden x then 1 else 0) + hidden_count es)%nat.
Proof. unfold hidden_count. simpl. now destruct (input_hidden x). Qed.

Lemma hidden_count_alter_mono (f : overlay -> overlay) (es : list overlay) :
  (forall o, input_hidden o = true -> input_hidden (f o) = true) ->
  forall e, (hidden_count es <= hidden_count (alter f e es))%nat.
Proof.
  intros Hf. induction es as [|x es IH]; intros e; [apply Nat.le_refl|].
  destruct e as [|e].
  - change (alter f 0%nat (x :: es)) with (f x :: es).
    rewrite !hidden_count_cons.
    destruct (input_hidden x) eqn:Hx; [rewrite (Hf x Hx); apply Nat.le_refl|].
    destruct (input_hidden (f x)); lia.
  - change (alter f (S e) (x :: es)) with (x :: alter f e es).
    rewrite !hidden_count_cons. specialize (IH e). lia.
Qed.

Lemma hidden_count_alter_hide (f : overlay -> overlay) (es : list overlay) :
  forall e o, es !! e = Some o -> input_hidden o = false ->
    input_hidden (f o) = true ->
    hidden_count (alter f e es) = S (hidden_count es).
Proof.
  induction es as [|x es IH]; intros e o He Ho Hf; [destruct e; discriminate He|].
  destruct e as [|e].
  - change (alter f 0%nat (x :: es)) with (f x :: es).
    simpl in He. injection He as ->.
    rewrite !hidden_count_cons. now rewrite Ho, Hf.
  - change (alter f (S e) (x :: es)) with (x :: alter f e es).
    rewrite !hidden_count_cons, (IH e o He Ho Hf). lia.
Qed.

(** *** What the content script keeps in order *)

Lemma tidy_start title player : tidy (start title player).
Proof.
  unfold tidy, start. simpl. repeat split; auto; try discriminate; try lia.
  constructor.
Qed.

(** Changing one element without showing a hidden section again and
    without enabling a button that awaits its answer. *)
Lemma tidy_alter (f : overlay -> overlay) (e : nat) (st : content) :
  tidy st ->
  (forall o, input_hidden o = true -> input_hidden (f o) = true) ->
  (In e (waiting st) ->
   forall o, analyze_disabled o = true -> analyze_disabled (f o) = true) ->
  tidy (set_elements (alter f e (elements st)) st).
Proof.
  intros (T1 & T2 & T3 & T4 & T5) Hh Hd. unfold tidy. simpl.
  split; [exact T1|]. split; [|split; [exact T3|split]].
  - intros x Hx. rewrite length_alter. now apply T2.
  - intros w Hw. destruct (T4 w Hw) as (o & Ho & D & H).
    destruct (decide (e = w)) as [-> | Hne].
    + exists (f o). rewrite list_lookup_alter_eq, Ho. simpl. auto.
    + exists o. rewrite list_lookup_alter_ne by exact Hne. auto.
  - eapply Nat.le_trans; [exact T5 | now apply hidden_count_alter_mono].
Qed.

Lemma tidy_main (n : nat) (pg : Bridge.page) (st : content) :
  tidy st -> tidy (set_main n pg st).
Proof. intros H. exact H. Qed.

Lemma tidy_alert (text : string) (st : content) : tidy st -> tidy (alert text st).
Proof. intros H. exact H. Qed.

Lemma tidy_hideOverlay (st : content) : tidy st -> tidy (hideOverlay st).
Proof.
  intros H. unfold hideOverlay.
  destruct (overlayElement st) eqn:E; [|exact H].
  destruct H as (T1 & T2 & T3 & T4 & T5).
  unfold tidy. simpl. repeat split; auto. discriminate.
Qed.

Lemma tidy_inject (st : content) :
  tidy st -> tidy (injectYouTubePlayerControlScript st).
Proof.
  intros H. unfold injectYouTubePlayerControlScript.
  destruct (0 <? script_runs st)%nat; [exact H | now apply tidy_main].
Qed.

Lemma tidy_showOverlay (question : string) (st : content) :
  tidy st -> tidy (showOverlay question st).
Proof.
  intros (T1 & T2 & T3 & T4 & T5). unfold tidy.
  destruct (showOverlay_fields question st) as (-> & -> & -> & -> & -> & _).
  split; [split; discriminate|]. split; [|split; [exact T3|split]].
  - intros e He. injection He as <-. rewrite List.length_app. simpl. lia.
  - intros w Hw. destruct (T4 w Hw) as (o & Ho & D & H). exists o.
    split; [|auto]. rewrite lookup_app_l; [exact Ho | eapply lookup_lt_Some; eauto].
  - rewrite hidden_count_app. lia.
Qed.

Lemma tidy_updateOverlay (r : response) (st : content) :
  tidy st -> tidy (updateOverlay r st).
Proof.
  intros H. unfold updateOverlay. destruct (overlayElement st) as [e|]; [|exact H].
  apply tidy_alter; auto.
Qed.

Lemma remove_first_in (e w : nat) (ws : list nat) :
  In w (remove_first e ws) -> In w ws.
Proof.
  induction ws as [|x ws IH]; [auto|]. cbn [remove_first].
  destruct (x =? e)%nat; [now right|]. intros [-> | H]; [now left | right; auto].
Qed.

Lemma remove_first_nodup (e : nat) (ws : list nat) :
  List.NoDup ws -> List.NoDup (remove_first e ws) /\ ~ In e (remove_first e ws).
Proof.
  induction 1 as [|x ws Hx Hn [IH1 IH2]]; [split; [constructor | auto]|].
  cbn [remove_first]. destruct (Nat.eqb_spec x e) as [-> | Hne]; [now split|].
  split.
  - constructor; [|exact IH1]. intros H. apply Hx. eapply remove_first_in; eauto.
  - intros [H | H]; [now elim Hne | now elim IH2].
Qed.

Lemma tidy_waiting (ws : list nat) (st : content) :
  tidy st -> List.NoDup ws -> (forall w, In w ws -> In w (waiting st)) ->
  tidy (set_waiting ws st).
Proof.
  intros (T1 & T2 & T3 & T4 & T5) Hn Hs. unfold tidy. simpl.
  repeat split; auto; apply T1.
Qed.

Lemma tidy_release (e : nat) (st : content) :
  tidy st -> ~ In e (waiting st) -> tidy (release e st).
Proof.
  intros H He. unfold release. apply tidy_alter; [exact H | |].
  - intros o Ho. unfold reenable. now destruct (analyze_disabled o).
  - intros Hin. now elim He.
Qed.

Lemma tidy_resume (e : nat) (result : outcome Gateway.parsed) (st : content) :
  tidy st -> tidy (resume e result st).
Proof.
  intros H. unfold resume.
  destruct (remove_first_nodup e (waiting st)) as [N1 N2]; [apply H|].
  assert (H1 : tidy (set_waiting (remove_first e (waiting st)) st)).
  { apply tidy_waiting; [exact H | exact N1 |]. intros w. apply remove_first_in. }
  apply tidy_release.
  - destruct result; now apply tidy_updateOverlay.
  - destruct result; unfold updateOverlay; simpl;
      destruct (overlayElement st); exact N2.
Qed.

Lemma attached_inv (st : content) (o : overlay) :
  attached st = Some o ->
  exists e, overlayElement st = Some e /\ elements st !! e = Some o.
Proof.
  unfold attached. destruct (overlayElement st) as [e|]; [|discriminate].
  intros H. now exists e.
Qed.

(** The click on Analyze when a prompt is sent. *)
Lemma analyze_sends (st : content) (e : nat) (o : overlay) (title : string) :
  overlayElement st = Some e -> elements st !! e = Some o ->
  trim (transcript o) <> "" -> getVideoTitle st = Ret title ->
  processManualTranscript st
  = set_waiting (waiting st ++ [e])
      (fetch (manual_prompt title (trim (transcript o)) (currentQuestion st))
         (set_elements
            (alter (show (rendered loading)) e
               (alter (set_analyzeButton true "Analyzing...") e (elements st))) st)).
Proof.
  intros He Ho Ht Hv. unfold processManualTranscript, attached.
  rewrite He, Ho. apply String.eqb_neq in Ht. rewrite Ht.
  unfold updateOverlay. cbn [overlayElement set_elements].
  rewrite He. unfold getVideoTitle in *. cbn [og_title set_elements].
  destruct (og_title st) as [[t|]|]; try discriminate Hv;
    injection Hv as <-; reflexivity.
Qed.

(** The click on Analyze when the title cannot be read. *)
Lemma analyze_title_error (st : content) (e : nat) (o : overlay) :
  overlayElement st = Some e -> elements st !! e = Some o ->
  trim (transcript o) <> "" -> og_title st = Some None ->
  processManualTranscript st
  = release e
      (set_elements
         (alter (show (rendered (failed "Cannot read properties of null (reading 'trim')"))) e
            (alter (show (rendered loading)) e
               (alter (set_analyzeButton true "Analyzing...") e (elements st)))) st).
Proof.
  intros He Ho Ht Hv. unfold processManualTranscript, attached.
  rewrite He, Ho. apply String.eqb_neq in Ht. rewrite Ht.
  unfold updateOverlay, getVideoTitle. cbn [overlayElement set_elements og_title].
  rewrite He. cbn [overlayElement set_elements og_title]. rewrite Hv.
  cbn [overlayElement set_elements]. now rewrite He.
Qed.

Lemma analyze_blank (st : content) (e : nat) (o : overlay) :
  overlayElement st = Some e -> elements st !! e = Some o ->
  trim (transcript o) = "" ->
  processManualTranscript st
  = alert "Please paste the transcript into the text area first." st.
Proof.
  intros He Ho Ht. unfold processManualTranscript, attached.
  now rewrite He, Ho, Ht.
Qed.

(** The two responses of [processManualTranscript] as [updateOverlay]
    renders them. *)
Lemma rendered_outcome (result : outcome Gateway.parsed) :
  rendered (match result with
            | Ret data => succeeded data
            | Throw error => failed (or_else error "Failed to analyze transcript.")
            end)
  = outcome_area result.
Proof.
  destruct result as [data | error]; [reflexivity|].
  unfold rendered, failed, outcome_area. cbn [u_type u_success u_error].
  change (String.eqb "" "loading") with false. cbv iota.
  unfold or_else at 1. destruct (String.eqb_spec error "") as [-> | Hn].
  - reflexivity.
  - unfold or_else. apply String.eqb_neq in Hn. now rewrite Hn, Hn.
Qed.

Lemma resume_fields (e : nat) (result : outcome Gateway.parsed) (st : content) :
  overlayElement (resume e result st) = overlayElement st
  /\ currentQuestion (resume e result st) = currentQuestion st
  /\ fetches (resume e result st) = fetches st
  /\ alerts (resume e result st) = alerts st
  /\ waiting (resume e result st) = remove_first e (waiting st).
Proof.
  unfold resume, release, updateOverlay. cbn [overlayElement set_waiting].
  destruct result; destruct (overlayElement st) eqn:E; now repeat split.
Qed.

(** What the overlay in the document shows once the click on the button
    of element [e] has its answer. *)
Lemma resume_attached (e : nat) (result : outcome Gateway.parsed)
    (st : content) (c : nat) (o : overlay) :
  overlayElement st = Some c -> elements st !! c = Some o ->
  attached (resume e result st)
  = Some (if (c =? e)%nat then reenable (show (outcome_area result) o)
          else show (outcome_area result) o).
Proof.
  intros Hc Ho.
  assert (E : resume e result st
              = release e (set_elements
                             (alter (show (outcome_area result)) c
                                (elements (set_waiting (remove_first e (waiting st)) st)))
                             (set_waiting (remove_first e (waiting st)) st))).
  { unfold resume. rewrite <- (rendered_outcome result).
    destruct result; unfold updateOverlay; cbn [overlayElement set_waiting];
      now rewrite Hc. }
  rewrite E. unfold attached, release.
  cbn [overlayElement elements set_elements set_waiting]. rewrite Hc.
  destruct (Nat.eqb_spec c e) as [<- | Hne].
  - rewrite !list_lookup_alter_eq, Ho. reflexivity.
  - rewrite list_lookup_alter_ne by congruence.
    rewrite list_lookup_alter_eq, Ho. reflexivity.
Qed.

(** A click on Analyze that sends a prompt. *)
Lemma analyze_step (st : content) (e : nat) (o : overlay) (title : string) :
  overlayElement st = Some e -> elements st !! e = Some o ->
  input_hidden o = false -> analyze_disabled o = false ->
  trim (transcript o) <> "" -> getVideoTitle st = Ret title ->
  step AnalyzeClicked st
  = set_waiting (waiting st ++ [e])
      (fetch (manual_prompt title (trim (transcript o)) (currentQuestion st))
         (set_elements
            (alter (show (rendered loading)) e
               (alter (set_analyzeButton true "Analyzing...") e (elements st))) st))
  /\ attached (step AnalyzeClicked st) = Some (analyzing o)
  /\ existsb (Nat.eqb e) (waiting (step AnalyzeClicked st)) = true.
Proof.
  intros He Ho Hh Hd Ht Hv.
  assert (E1 : step AnalyzeClicked st = processManualTranscript st).
  { cbn [step]. unfold attached. now rewrite He, Ho, Hh, Hd. }
  rewrite (analyze_sends st e o title He Ho Ht Hv) in E1.
  rewrite E1. split; [reflexivity|]. split.
  - unfold attached. cbn [overlayElement set_waiting fetch set_elements elements].
    rewrite He, !list_lookup_alter_eq, Ho. reflexivity.
  - cbn [waiting set_waiting fetch set_elements]. rewrite existsb_app. cbn.
    now rewrite Nat.eqb_refl, orb_true_r.
Qed.

Lemma getVideoTitle_cases (st : content) :
  (exists title, getVideoTitle st = Ret title) \/ og_title st = Some None.
Proof.
  unfold getVideoTitle. destruct (og_title st) as [[t|]|]; eauto.
Qed.

Lemma nodup_snoc (e : nat) (ws : list nat) :
  List.NoDup ws -> ~ In e ws -> List.NoDup (ws ++ [e]).
Proof.
  induction 1 as [|x ws Hx Hn IH]; intros He; simpl.
  - constructor; [intros [] | constructor].
  - constructor.
    + intros H. apply in_app_or in H as [H | [-> | []]]; [auto|].
      apply He. now left.
    + apply IH. intros H. apply He. now right.
Qed.

Lemma tidy_analyze (st : content) (o : overlay) :
  tidy st -> attached st = Some o ->
  input_hidden o = false -> analyze_disabled o = false ->
  tidy (processManualTranscript st).
Proof.
  intros H Ha Hh Hd. destruct (attached_inv st o Ha) as (e & He & Ho).
  assert (Hw : ~ In e (waiting st)).
  { intros Hin. destruct H as (_ & _ & _ & T4 & _).
    destruct (T4 e Hin) as (o' & Ho' & D & _). congruence. }
  destruct (String.eqb_spec (trim (transcript o)) "") as [Ht | Ht].
  { rewrite (analyze_blank st e o He Ho Ht). now apply tidy_alert. }
  assert (H1 : tidy (set_elements
                       (alter (set_analyzeButton true "Analyzing...") e (elements st)) st)).
  { apply tidy_alter; auto. }
  assert (H2 : tidy (set_elements
                       (alter (show (rendered loading)) e
                          (alter (set_analyzeButton true "Analyzing...") e (elements st))) st)).
  { exact (tidy_alter (show (rendered loading)) e _ H1
             (fun _ _ => eq_refl) (fun _ _ D => D)). }
  destruct (getVideoTitle_cases st) as [[title Hv] | Hv].
  - rewrite (analyze_sends st e o title He Ho Ht Hv).
    destruct H2 as (T1 & T2 & T3 & T4 & T5). unfold tidy.
    cbn [elements waiting fetches set_waiting fetch set_elements
         overlayElement currentQuestion] in *.
    split; [exact T1|]. split; [exact T2|]. split; [|split].
    + apply nodup_snoc; assumption.
    + intros w Hin. apply in_app_or in Hin as [Hin | [<- | []]]; [now apply T4|].
      eexists. rewrite list_lookup_alter_eq, list_lookup_alter_eq, Ho. simpl.
      split; [reflexivity|]. now split.
    + rewrite List.length_app. simpl.
      rewrite (hidden_count_alter_hide _ _ e (set_analyzeButton true "Analyzing..." o));
        [| now rewrite list_lookup_alter_eq, Ho | exact Hh | reflexivity].
      destruct H as (_ & _ & _ & _ & T5').
      pose proof (hidden_count_alter_mono (set_analyzeButton true "Analyzing...")
                    (elements st) (fun _ D => D) e). lia.
  - rewrite (analyze_title_error st e o He Ho Ht Hv).
    apply tidy_release; [|exact Hw].
    exact (tidy_alter
             (show (rendered (failed "Cannot read properties of null (reading 'trim')")))
             e _ H2 (fun _ _ => eq_refl) (fun _ _ D => D)).
Qed.

Lemma tidy_step (ev : event) (st : content) : tidy st -> tidy (step ev st).
Proof.
  intros H. destruct ev as [m | | | | text | | e result | i | e]; cbn [step].
  - unfold onMessage.
    destruct (String.eqb (m_type m) "showOverlay"); [now apply tidy_showOverlay|].
    destruct (String.eqb (m_type m) "hideOverlay"); [now apply tidy_hideOverlay|].
    destruct (String.eqb (m_type m) "updateOverlay");
      [now apply tidy_updateOverlay|].
    destruct (String.eqb (m_type m) "ping"); exact H.
  - destruct (attached st); [now apply tidy_hideOverlay | exact H].
  - destruct (attached st); [now apply tidy_hideOverlay | exact H].
  - destruct (attached st) as [o|]; [|exact H].
    destruct (shown o); try exact H. now apply tidy_hideOverlay.
  - destruct (overlayElement st) as [e|]; [|exact H].
    destruct (attached st) as [o|]; [|exact H].
    destruct (input_hidden o); [exact H|]. apply tidy_alter; auto.
  - destruct (attached st) as [o|] eqn:Ha; [|exact H].
    destruct (input_hidden o) eqn:Hh; [exact H|].
    destruct (analyze_disabled o) eqn:Hd; [exact H|].
    now apply (tidy_analyze st o).
  - destruct (existsb _ _); [now apply tidy_resume | exact H].
  - destruct (attached st) as [o|]; [|exact H].
    destruct (shown o); try exact H.
    destruct (links !! i); [|exact H]. unfold on_link. now apply tidy_main.
  - now apply tidy_main.
Qed.

Lemma tidy_run (evs : list event) :
  forall st, tidy st -> tidy (run evs st).
Proof.
  induction evs as [|ev evs IH]; intros st H; [exact H|].
  change (run (ev :: evs) st) with (run evs (step ev st)).
  apply IH. now apply tidy_step.
Qed.

(** *** The control script *)

Lemma listening_step (e : Bridge.event) (pg : Bridge.page) :
  Bridge.listening (Bridge.step e pg) = Bridge.listening pg.
Proof.
  destruct e as [| t | v]; simpl; [| |reflexivity].
  - destruct (Bridge.timers pg) as [|d rest]; [reflexivity|].
    destruct (BridgeFacts.run_task_fields Bridge.ensurePlayerAndProcessQueue
                (Bridge.set_timers rest pg)) as (_ & _ & _ & _ & _ & ->).
    now rewrite BridgeFacts.ensure_listening.
  - destruct (Bridge.listening pg) eqn:Hl; [|exact Hl].
    destruct (BridgeFacts.run_task_fields (Bridge.on_seek t) pg)
      as (_ & _ & _ & _ & _ & ->).
    destruct (Bridge.playerReady pg) eqn:Hr.
    + now destruct (BridgeFacts.on_seek_ready t pg Hr) as (_ & _ & -> & _).
    + now rewrite (BridgeFacts.on_seek_not_ready t pg Hr).
Qed.

Lemma updateOverlay_world (r : response) (st : content) :
  script_runs (updateOverlay r st) = script_runs st
  /\ main (updateOverlay r st) = main st.
Proof. unfold updateOverlay. now destruct (overlayElement st). Qed.

Lemma processManualTranscript_world (st : content) :
  script_runs (processManualTranscript st) = script_runs st
  /\ main (processManualTranscript st) = main st.
Proof.
  destruct (overlayElement st) as [e|] eqn:He;
    [|unfold processManualTranscript; rewrite He; now split].
  destruct (attached st) as [o|] eqn:Ha;
    [|unfold processManualTranscript; rewrite He, Ha; now split].
  assert (Ho : elements st !! e = Some o) by (unfold attached in Ha; now rewrite He in Ha).
  destruct (String.eqb_spec (trim (transcript o)) "") as [Ht | Ht].
  { rewrite (analyze_blank st e o He Ho Ht). now split. }
  destruct (getVideoTitle_cases st) as [[title Hv] | Hv].
  - rewrite (analyze_sends st e o title He Ho Ht Hv). now split.
  - rewrite (analyze_title_error st e o He Ho Ht Hv). now split.
Qed.

Lemma resume_world (e : nat) (result : outcome Gateway.parsed) (st : content) :
  script_runs (resume e result st) = script_runs st
  /\ main (resume e result st) = main st.
Proof.
  unfold resume, release, updateOverlay. cbn [overlayElement set_waiting].
  destruct result; destruct (overlayElement st); now split.
Qed.

Lemma showOverlay_world (question : string) (st : content) :
  script_runs (showOverlay question st)
  = (if (0 <? script_runs st)%nat then script_runs st else S (script_runs st))
  /\ ((0 < script_runs st)%nat -> main (showOverlay question st) = main st).
Proof.
  unfold showOverlay, injectYouTubePlayerControlScript, hideOverlay.
  destruct (overlayElement st) as [e|] eqn:He; rewrite ?He;
    cbn [script_runs main set_variables set_elements set_main];
    (destruct (script_runs st) as [|n] eqn:Hs; cbn; rewrite ?Hs; cbn;
     (split; [reflexivity | intros; first [reflexivity | lia]])).
Qed.

(** Only the first request for the overlay starts the control script;
    nothing else changes the count, and nothing but the script attaches
    a listener in the main world. *)
Lemma step_script (ev : event) (st : content) :
  script_runs (step ev st)
  = (if shows ev && (script_runs st =? 0)%nat then 1%nat else script_runs st)
  /\ (script_runs (step ev st) = script_runs st ->
      Bridge.listening (main (step ev st)) = Bridge.listening (main st)).
Proof.
  destruct ev as [m | | | | text | | e result | i | e]; cbn [step shows].
  - unfold onMessage.
    destruct (String.eqb (m_type m) "showOverlay").
    + cbn [fst andb]. destruct (showOverlay_world (m_question m) st) as [E L].
      rewrite E. destruct (script_runs st) as [|n]; cbn [Nat.eqb Nat.ltb Nat.leb].
      * split; [reflexivity | discriminate].
      * split; [reflexivity|]. intros _. rewrite L by lia. reflexivity.
    + cbn [andb].
      destruct (String.eqb (m_type m) "hideOverlay");
        [cbn [fst]; destruct (hideOverlay_keeps st) as (_ & _ & _ & _ & _ & _ & -> & ->);
         now split|].
      destruct (String.eqb (m_type m) "updateOverlay");
        [cbn [fst]; destruct (updateOverlay_world (m_response m) st) as [-> ->];
         now split|].
      destruct (String.eqb (m_type m) "ping"); now split.
  - cbn [andb]. destruct (attached st); [|now split].
    destruct (hideOverlay_keeps st) as (_ & _ & _ & _ & _ & _ & -> & ->). now split.
  - cbn [andb]. destruct (attached st); [|now split].
    destruct (hideOverlay_keeps st) as (_ & _ & _ & _ & _ & _ & -> & ->). now split.
  - cbn [andb]. destruct (attached st) as [o|]; [|now split].
    destruct (hideOverlay_keeps st) as (_ & _ & _ & _ & _ & _ & E1 & E2).
    destruct (shown o); try now split. now rewrite E1, E2.
  - cbn [andb]. destruct (overlayElement st); [|now split].
    destruct (attached st) as [o|]; [|now split].
    destruct (input_hidden o); now split.
  - cbn [andb]. destruct (attached st) as [o|]; [|now split].
    destruct (input_hidden o || analyze_disabled o); [now split|].
    destruct (processManualTranscript_world st) as [-> ->]. now split.
  - cbn [andb]. destruct (existsb _ _); [|now split].
    destruct (resume_world e result st) as [-> ->]. now split.
  - cbn [andb]. destruct (attached st) as [o|]; [|now split].
    destruct (shown o); try now split.
    destruct (links !! i); [|now split].
    unfold on_link. cbn [script_runs main set_main].
    split; [reflexivity|]. intros _. apply listening_step.
  - cbn [andb script_runs main set_main].
    split; [reflexivity|]. intros _. apply listening_step.
Qed.

Lemma run_script (evs : list event) :
  forall st,
    (script_runs st <= 1)%nat ->
    (script_runs st = 0%nat -> Bridge.listening (main st) = false) ->
    script_runs (run evs st)
    = (if (0 <? script_runs st)%nat || existsb shows evs then 1%nat else 0%nat)
    /\ (script_runs (run evs st) = 0%nat ->
        Bridge.listening (main (run evs st)) = false).
Proof.
  induction evs as [|ev evs IH]; intros st H1 H0.
  - cbn [run fold_left existsb]. rewrite orb_false_r.
    split; [|exact H0]. destruct (script_runs st) as [|[|n]]; [reflexivity ..|lia].
  - change (run (ev :: evs) st) with (run evs (step ev st)).
    destruct (step_script ev st) as [E L].
    destruct (IH (step ev st)) as [R1 R2].
    + rewrite E. destruct (shows ev && (script_runs st =? 0)%nat); lia.
    + intros Hz. rewrite L; [apply H0|]; rewrite E in *;
        destruct (shows ev && (script_runs st =? 0)%nat); try discriminate; auto.
    + split; [|exact R2]. rewrite R1, E. cbn [existsb].
      destruct (script_runs st) as [|[|n]]; [| |lia]; cbn;
        destruct (shows ev); reflexivity.
Qed.

End ContentFacts.

Module ContentTheorems.
Import JsString Js Markup Content ContentFacts.
Local Open Scope list_scope.

(** X19. An overlay always starts clean.  After [showOverlay(question)]
    the overlay in the document is the one just created, with the
    escaped question, an empty text area and an empty response,
    whatever was shown before, and the question is remembered; hiding
    it leaves no overlay and no question, and hiding twice is hiding
    once. *)
Theorem overlay_starts_clean (question : string) (st : content) :
  attached (showOverlay question st) = Some (created question)
  /\ currentQuestion (showOverlay question st) = Some question
  /\ attached (hideOverlay (showOverlay question st)) = None
  /\ currentQuestion (hideOverlay (showOverlay question st)) = None
  /\ hideOverlay (hideOverlay st) = hideOverlay st.
Proof.
  split; [apply showOverlay_attached|].
  destruct (showOverlay_fields question st) as (_ & Ho & Hq & _).
  split; [exact Hq|].
  destruct (hideOverlay_keeps (showOverlay question st)) as (_ & H2 & H3 & _).
  split; [unfold attached; now rewrite H2|].
  split; [rewrite H3, Ho; reflexivity|].
  unfold hideOverlay at 1. now destruct (hideOverlay_keeps st) as (_ & -> & _).
Qed.

(** X20. However many overlays are requested, the player control script
    is started exactly once, by the first [showOverlay] message; before
    that message nothing of the content script has attached a listener
    in the main world of the page. *)
Theorem control_script_starts_once
    (evs : list event) (title : option (option string)) (player : jsval) :
  script_runs (run evs (start title player))
  = (if existsb shows evs then 1%nat else 0%nat)
  /\ (existsb shows evs = false ->
      Bridge.listening (main (run evs (start title player))) = false).
Proof.
  destruct (run_script evs (start title player)) as [R1 R2];
    [apply Nat.le_0_l | reflexivity |].
  cbn [start script_runs Nat.ltb Nat.leb orb] in R1.
  split; [exact R1|]. intros H. apply R2. now rewrite R1, H.
Qed.

Lemma control_script_starts_once_witness :
  Bridge.listening
    (main (run [Received {| m_type := "ping"; m_question := "";
                            m_response := loading |};
                Page Bridge.Timeout]
             (start None (Bridge.player_in_state 1)))) = false.
Proof.
  apply (proj2 (control_script_starts_once
                  [Received {| m_type := "ping"; m_question := "";
                               m_response := loading |};
                   Page Bridge.Timeout]
                  None (Bridge.player_in_state 1))).
  reflexivity.
Defined.

(** X21. Every overlay sends at most one prompt.  In every state the
    content script can reach there are no more prompts sent than
    overlays created, no button awaits two answers, a button that awaits
    its answer is disabled and its section hidden, and the question is
    remembered exactly while an overlay is in the document. *)
Theorem one_prompt_per_overlay
    (evs : list event) (title : option (option string)) (player : jsval) :
  let st := run evs (start title player) in
  (List.length (fetches st) <= List.length (elements st))%nat
  /\ List.NoDup (waiting st)
  /\ (forall e, In e (waiting st) ->
        exists o, elements st !! e = Some o
                  /\ analyze_disabled o = true /\ input_hidden o = true)
  /\ (overlayElement st = None <-> currentQuestion st = None).
Proof.
  intros st.
  destruct (tidy_run evs (start title player) (tidy_start title player))
    as (T1 & T2 & T3 & T4 & T5).
  fold st in T1, T2, T3, T4, T5.
  split; [|split; [exact T3 | split; [exact T4 | exact T1]]].
  eapply Nat.le_trans; [exact T5 | apply hidden_count_le].
Qed.

Lemma one_prompt_per_overlay_witness :
  exists o,
    elements (run [AnalyzeClicked] ready_to_analyze) !! 0%nat = Some o
    /\ analyze_disabled o = true /\ input_hidden o = true.
Proof.
  apply (proj1 (proj2 (proj2 (one_prompt_per_overlay
           [Received (show_request "What is shown?");
            Typed "0:00 hello and welcome"; AnalyzeClicked]
           (Some (Some " Demo ")) (Bridge.player_in_state 1)))) 0%nat).
  now left.
Defined.

(** X22. The course of an analysis.  A click on Analyze with a
    transcript that is not blank disables the button, shows the
    spinner, hides the input section and sends one prompt, made of the
    trimmed title, the trimmed transcript and the remembered question.
    When [callGeminiApi] settles, the overlay shows the escaped answer
    with one link per citation, or the escaped error, and the button is
    enabled again; nothing more is sent. *)
Theorem analysis_runs_once (st : content) (e : nat) (o : overlay)
    (title : string) (result : outcome Gateway.parsed) :
  overlayElement st = Some e -> elements st !! e = Some o ->
  input_hidden o = false -> analyze_disabled o = false ->
  trim (transcript o) <> "" -> getVideoTitle st = Ret title ->
  let st1 := step AnalyzeClicked st in
  let st2 := step (Answered e result) st1 in
  attached st1 = Some (analyzing o)
  /\ fetches st1
     = fetches st ++ [manual_prompt title (trim (transcript o)) (currentQuestion st)]
  /\ attached st2 = Some (analyzed (outcome_area result) o)
  /\ fetches st2 = fetches st1
  /\ waiting st2 = remove_first e (waiting st ++ [e]).
Proof.
  intros He Ho Hh Hd Ht Hv st1 st2.
  destruct (analyze_step st e o title He Ho Hh Hd Ht Hv) as (E1 & A1 & W).
  fold st1 in E1, A1, W.
  split; [exact A1|]. split; [now rewrite E1|].
  assert (E2 : st2 = resume e result st1).
  { unfold st2. cbn [step]. now rewrite W. }
  assert (O1 : overlayElement st1 = Some e) by now rewrite E1.
  rewrite E2. split; [|split].
  - rewrite (resume_attached e result st1 e (analyzing o) O1);
      [now rewrite Nat.eqb_refl | now rewrite <- A1; unfold attached; rewrite O1].
  - now destruct (resume_fields e result st1) as (_ & _ & -> & _).
  - destruct (resume_fields e result st1) as (_ & _ & _ & _ & ->). now rewrite E1.
Qed.

Lemma analysis_runs_once_witness :
  attached (step (Answered 0%nat (Throw "")) (step AnalyzeClicked ready_to_analyze))
  = Some (analyzed (Failure "Failed to analyze transcript.")
            (set_transcript "0:00 hello and welcome" (created "What is shown?")))
  /\ fetches (step AnalyzeClicked ready_to_analyze)
     = [manual_prompt "Demo" "0:00 hello and welcome" (Some "What is shown?")].
Proof.
  pose proof (analysis_runs_once ready_to_analyze 0%nat
                (set_transcript "0:00 hello and welcome" (created "What is shown?"))
                "Demo" (Throw "")) as H.
  cbv zeta in H.
  destruct H as (_ & F & A & _); try reflexivity; [discriminate|].
  split; [exact A | exact F].
Defined.

(** X23. An answer that arrives late.  The answer of a click on
    Analyze is written into whichever overlay is in the document when
    [callGeminiApi] settles: into none when the overlay has been closed
    meanwhile, and into the overlay of the next question when one has
    been opened meanwhile, whose input section it hides. *)
Theorem late_answer_goes_to_current_overlay (st : content) (e : nat)
    (o : overlay) (title question : string) (result : outcome Gateway.parsed) :
  overlayElement st = Some e -> elements st !! e = Some o ->
  input_hidden o = false -> analyze_disabled o = false ->
  trim (transcript o) <> "" -> getVideoTitle st = Ret title ->
  let st1 := step AnalyzeClicked st in
  attached (step (Answered e result) (step CloseClicked st1)) = None
  /\ attached (step (Answered e result)
                 (step (Received (show_request question)) st1))
     = Some (show (outcome_area result) (created question))
  /\ currentQuestion (step (Answered e result)
                        (step (Received (show_request question)) st1))
     = Some question.
Proof.
  intros He Ho Hh Hd Ht Hv st1.
  destruct (analyze_step st e o title He Ho Hh Hd Ht Hv) as (E1 & A1 & W).
  fold st1 in E1, A1, W.
  assert (O1 : overlayElement st1 = Some e) by now rewrite E1.
  assert (L : (e < List.length (elements st1))%nat).
  { unfold attached in A1. rewrite O1 in A1. now apply lookup_lt_Some in A1. }
  split.
  - assert (Ec : step CloseClicked st1 = set_variables None None st1).
    { cbn [step]. rewrite A1. unfold hideOverlay. now rewrite O1. }
    rewrite Ec. cbn [step]. cbn [waiting set_variables]. rewrite W.
    unfold attached.
    now destruct (resume_fields e result (set_variables None None st1)) as (-> & _).
  - set (st' := step (Received (show_request question)) st1).
    assert (Es : st' = showOverlay question st1) by reflexivity.
    destruct (showOverlay_fields question st1) as (F1 & F2 & F3 & F4 & F5).
    assert (W' : existsb (Nat.eqb e) (waiting st') = true).
    { rewrite Es. now rewrite F4. }
    assert (O' : overlayElement st' = Some (List.length (elements st1))).
    { rewrite Es. exact F2. }
    assert (A' : elements st' !! List.length (elements st1) = Some (created question)).
    { rewrite Es, F1. now rewrite list_lookup_middle. }
    cbn [step]. rewrite W'. split.
    + rewrite (resume_attached e result st' _ (created question) O' A').
      destruct (Nat.eqb_spec (List.length (elements st1)) e) as [Heq|Hne]; [lia|].
      reflexivity.
    + destruct (resume_fields e result st') as (_ & -> & _). now rewrite Es.
Qed.

Lemma late_answer_goes_to_current_overlay_witness :
  attached (run [AnalyzeClicked; CloseClicked;
                 Answered 0%nat (Ret {| Gateway.answer := "Yes"; Gateway.timestamps := [] |})]
              ready_to_analyze) = None
  /\ attached (run [AnalyzeClicked; Received (show_request "Next?");
                    Answered 0%nat (Ret {| Gateway.answer := "Yes"; Gateway.timestamps := [] |})]
                 ready_to_analyze)
     = Some (show (Answer "Yes" []) (created "Next?")).
Proof.
  pose proof (late_answer_goes_to_current_overlay ready_to_analyze 0%nat
                (set_transcript "0:00 hello and welcome" (created "What is shown?"))
                "Demo" "Next?"
                (Ret {| Gateway.answer := "Yes"; Gateway.timestamps := [] |})) as H.
  cbv zeta in H.
  destruct H as (A & B & _); try reflexivity; [discriminate|].
  split; [exact A | exact B].
Defined.

(** X24. A click on Analyze that asks nothing.  With a blank
    transcript the click only shows the alert.  When the [og:title]
    tag has no [content], reading the title throws after the spinner
    is shown: no prompt is sent, the overlay shows the TypeError as its
    error with the input section hidden, and the button is enabled
    again. *)
Theorem analyze_without_request (st : content) (e : nat) (o : overlay) :
  overlayElement st = Some e -> elements st !! e = Some o ->
  input_hidden o = false -> analyze_disabled o = false ->
  (trim (transcript o) = "" ->
   step AnalyzeClicked st
   = alert "Please paste the transcript into the text area first." st)
  /\ (trim (transcript o) <> "" -> og_title st = Some None ->
      fetches (step AnalyzeClicked st) = fetches st
      /\ waiting (step AnalyzeClicked st) = waiting st
      /\ alerts (step AnalyzeClicked st) = alerts st
      /\ attached (step AnalyzeClicked st)
         = Some (analyzed
                   (Failure "Cannot read properties of null (reading 'trim')") o)).
Proof.
  intros He Ho Hh Hd.
  assert (E1 : step AnalyzeClicked st = processManualTranscript st).
  { cbn [step]. unfold attached. now rewrite He, Ho, Hh, Hd. }
  rewrite E1. split.
  - intros Ht. exact (analyze_blank st e o He Ho Ht).
  - intros Ht Hv. rewrite (analyze_title_error st e o He Ho Ht Hv).
    unfold release, attached.
    cbn [fetches waiting alerts overlayElement elements set_elements].
    repeat (split; [reflexivity|]).
    rewrite He, !list_lookup_alter_eq, Ho. reflexivity.
Qed.

Lemma analyze_without_request_witness :
  step AnalyzeClicked
    (run [Received (show_request "What is shown?"); Typed "  "]
       (start None JUndefined))
  = alert "Please paste the transcript into the text area first."
      (run [Received (show_request "What is shown?"); Typed "  "]
         (start None JUndefined))
  /\ fetches (step AnalyzeClicked untitled) = []
  /\ attached (step AnalyzeClicked untitled)
     = Some (analyzed (Failure "Cannot read properties of null (reading 'trim')")
               (set_transcript "0:00 hello and welcome" (created "What is shown?"))).
Proof.
  split.
  - apply (proj1 (analyze_without_request
                    (run [Received (show_request "What is shown?"); Typed "  "]
                       (start None JUndefined))
                    0%nat (set_transcript "  " (created "What is shown?"))
                    eq_refl eq_refl eq_refl eq_refl)).
    reflexivity.
  - destruct (proj2 (analyze_without_request untitled 0%nat
                       (set_transcript "0:00 hello and welcome" (created "What is shown?"))
                       eq_refl eq_refl eq_refl eq_refl))
      as (F & _ & _ & A); [discriminate | reflexivity |].
    split; [exact F | exact A].
Defined.



End ContentTheorems.

(** ** The placeholder *)

Module PlaceholderTheorems.
Import JsString Js Popup Placeholder.

Lemma on_blur_not_blank (f : field) : trim (value (on_blur f)) <> "".
Proof.
  unfold on_blur. destruct (String.eqb_spec (trim (value f)) "") as [E | E].
  - cbn [value]. discriminate.
  - exact E.
Qed.

(** X26. The placeholder of the question field.  After [blur] the
    field is never blank: a blank field holds the default text in grey,
    any other is left as it is.  [focus] empties a field that holds the
    default text, so that focusing and leaving the field without typing
    brings the default text back; and a question sent from a field left
    blank (with the button or with Enter) is refused with the request
    to enter a question, and nothing leaves the popup. *)
Theorem placeholder_is_refused (f : field) (w : world) (d : dom) :
  trim (value (on_blur f)) <> ""
  /\ (trim (value f) <> "" -> on_blur f = f)
  /\ (value f = defaultText ->
      on_blur (on_focus f) = {| value := defaultText; color := "#999" |})
  /\ (trim (value f) = "" ->
      on_keypress "Enter" false w (with_value (value (on_blur f)) d)
      = displayMessage "Please enter a question first!" "error"
          (with_value defaultText d)).
Proof.
  split; [apply on_blur_not_blank|]. split; [|split].
  - intros H. unfold on_blur. apply String.eqb_neq in H. now rewrite H.
  - intros H. unfold on_focus. rewrite H, String.eqb_refl. reflexivity.
  - intros H. unfold on_blur. rewrite H. reflexivity.
Qed.

Lemma placeholder_is_refused_witness :
  on_blur {| value := "What is it?"; color := "#333" |}
  = {| value := "What is it?"; color := "#333" |}
  /\ on_blur (on_focus {| value := defaultText; color := "#999" |})
     = {| value := defaultText; color := "#999" |}
  /\ actions (on_keypress "Enter" false no_tab
               (with_value (value (on_blur {| value := "  "; color := "#333" |})) typed))
     = [].
Proof.
  destruct (placeholder_is_refused {| value := "What is it?"; color := "#333" |}
              no_tab typed) as (_ & A & _).
  destruct (placeholder_is_refused {| value := defaultText; color := "#999" |}
              no_tab typed) as (_ & _ & B & _).
  destruct (placeholder_is_refused {| value := "  "; color := "#333" |}
              no_tab typed) as (_ & _ & _ & C).
  split; [apply A; discriminate|]. split; [apply B; reflexivity|].
  rewrite C; reflexivity.
Defined.

End PlaceholderTheorems.
